(** * MoltBrain request-serving core: line framer, dispatcher, query cache

    A shallow embedding of

    - [MCPServer] (the MCP server source): [parseMessages], the
      ['data'] callback of [handleConnection] (socket transport) and the
      ['data'] callback of [startStdio] (standard-stream transport);
    - [QueryCache] (src/cache/QueryCache.ts): [get], [set], [has],
      [delete], [clear], [size], [keys], [prune], [invalidatePattern],
      [getOrSet], [isExpired] and [evictLRU] ([stats], whose hit rate is a
      floating-point quotient, is left out).

    JavaScript strings are sequences of UTF-16 code units, the clock
    ([Date.now()]) is passed to every operation that reads it, thrown
    exceptions are an explicit [Abrupt] completion, and writes to a socket or
    to standard output are appended to a channel. *)

From Stdlib Require Import Strings.String Strings.Ascii Strings.Byte.
From Stdlib Require Import List ZArith NArith Lia Bool DecimalString.
From Stdlib Require Import Permutation.
From Stdlib Require Decimal DecimalN.
Import ListNotations.

Set Implicit Arguments.

(* ===================================================================== *)
(** * Part I: definitions                                                  *)
(* ===================================================================== *)

(** ** The JavaScript primitives the source relies on *)

Module JS.

(** A string is a list of UTF-16 code units. *)
Definition codeunit := N.
Definition jsstring := list codeunit.

(** An ASCII literal of the source as a [jsstring]. *)
Definition lit (s : string) : jsstring :=
  map (fun a => N.of_nat (nat_of_ascii a)) (list_ascii_of_string s).

Fixpoint eqb (s t : jsstring) : bool :=
  match s, t with
  | [], [] => true
  | c :: s', d :: t' => N.eqb c d && eqb s' t'
  | _, _ => false
  end.

(** ['\n'] *)
Definition LF : codeunit := 10%N.

(** A string is truthy when it is not empty ([if (trimmed)], [x || '']). *)
Definition truthy (s : jsstring) : bool :=
  match s with [] => false | _ :: _ => true end.

(** [s.split(sep)] for a separator of one code unit: the segments between
    the occurrences of [sep]; never an empty array. *)
Fixpoint split (sep : codeunit) (s : jsstring) : list jsstring :=
  match s with
  | [] => [[]]
  | c :: rest =>
      if N.eqb c sep then [] :: split sep rest
      else match split sep rest with
           | seg :: segs => (c :: seg) :: segs
           | [] => [[c]]
           end
  end.

(** [xs.pop()]: the last element ([None] is [undefined], on an empty
    array) and the array without it. *)
Definition pop (A : Type) (xs : list A) : option A * list A :=
  match rev xs with
  | [] => (None, [])
  | x :: front => (Some x, rev front)
  end.

(** [v || ''] for [v] a string or [undefined]. *)
Definition or_empty (v : option jsstring) : jsstring :=
  match v with
  | Some s => if truthy s then s else []
  | None => []
  end.

(** WhiteSpace and LineTerminator of ECMAScript, the code points
    [String.prototype.trim] strips. All lie in the basic plane. *)
Definition isWhiteSpace (c : codeunit) : bool :=
  (existsb (N.eqb c)
     [0x09; 0x0A; 0x0B; 0x0C; 0x0D; 0x20; 0xA0; 0x1680;
      0x2028; 0x2029; 0x202F; 0x205F; 0x3000; 0xFEFF]
   || ((0x2000 <=? c) && (c <=? 0x200A)))%N.

Fixpoint trimStart (s : jsstring) : jsstring :=
  match s with
  | [] => []
  | c :: rest => if isWhiteSpace c then trimStart rest else s
  end.

Definition trimEnd (s : jsstring) : jsstring := rev (trimStart (rev s)).

Definition trim (s : jsstring) : jsstring := trimEnd (trimStart s).

(** The completion of a call that may throw, or of an awaited promise that
    may reject. The thrown value is dropped: no [catch] of the embedded
    code looks at it. *)
Inductive Completion (A : Type) : Type :=
| Normal (a : A)
| Abrupt.
Arguments Abrupt {A}.

End JS.

(** ** UTF-8 decoding of inbound bytes

    The socket callback receives a [Buffer] and calls [data.toString()],
    which decodes that one chunk alone. [startStdio] calls
    [process.stdin.setEncoding('utf8')], after which the stream decodes
    through a [StringDecoder] that keeps an incomplete trailing sequence for
    the next chunk. Both replace ill-formed input by U+FFFD; the decoder
    below is the WHATWG one. *)

Module Utf8.
Import JS.

(** [pending]: continuation bytes still expected; [acc]: the code point
    read so far; [lower], [upper]: the range allowed for the next byte. *)
Record State : Type := mkState
  { pending : nat; acc : N; lower : N; upper : N }.

Definition init : State :=
  {| pending := 0; acc := 0; lower := 0x80; upper := 0xBF |}%N.

Definition REPLACEMENT : codeunit := 0xFFFD%N.

(** A code point as UTF-16: itself, or a surrogate pair. *)
Definition utf16 (cp : N) : jsstring :=
  (if cp <? 0x10000 then [cp]
   else [0xD800 + (cp - 0x10000) / 0x400; 0xDC00 + (cp - 0x10000) mod 0x400])%N.

(** A byte read when no sequence is open. *)
Definition lead (b : N) : jsstring * State :=
  (if b <=? 0x7F then ([b], init)
   else if (0xC2 <=? b) && (b <=? 0xDF) then
     ([], mkState 1 (N.land b 0x1F) 0x80 0xBF)
   else if (0xE0 <=? b) && (b <=? 0xEF) then
     ([], mkState 2 (N.land b 0x0F)
            (if b =? 0xE0 then 0xA0 else 0x80)
            (if b =? 0xED then 0x9F else 0xBF))
   else if (0xF0 <=? b) && (b <=? 0xF4) then
     ([], mkState 3 (N.land b 0x07)
            (if b =? 0xF0 then 0x90 else 0x80)
            (if b =? 0xF4 then 0x8F else 0xBF))
   else ([REPLACEMENT], init))%N.

Definition step (st : State) (b : N) : jsstring * State :=
  match pending st with
  | O => lead b
  | S n =>
      if ((lower st <=? b) && (b <=? upper st))%N then
        let cp := N.lor (N.shiftl (acc st) 6) (N.land b 0x3F) in
        match n with
        | O => (utf16 cp, init)
        | S _ => ([], mkState n cp 0x80 0xBF)
        end
      else
        let (out, st') := lead b in (REPLACEMENT :: out, st')
  end.

Fixpoint run (st : State) (bytes : list byte) : jsstring * State :=
  match bytes with
  | [] => ([], st)
  | b :: rest =>
      let (out, st1) := step st (Byte.to_N b) in
      let (out', st2) := run st1 rest in
      (out ++ out', st2)
  end.

(** [buf.toString()]: one chunk decoded on its own; a sequence cut by the
    end of the chunk becomes U+FFFD. *)
Definition Buffer_toString (bytes : list byte) : jsstring :=
  let (out, st) := run init bytes in
  match pending st with
  | O => out
  | S _ => out ++ [REPLACEMENT]
  end.


(** [decoder.write(buf)]: what is complete is returned, the open sequence
    stays in the decoder. *)
Definition StringDecoder_write (st : State) (bytes : list byte)
  : jsstring * State :=
  run st bytes.

(** The strings a stream decoder in state [st] hands out for the chunks
    written to it, one per chunk. *)
Fixpoint StringDecoder_chunks (st : State) (chunks : list (list byte))
  : list jsstring :=
  match chunks with
  | [] => []
  | data :: rest =>
      fst (StringDecoder_write st data)
      :: StringDecoder_chunks (snd (StringDecoder_write st data)) rest
  end.

End Utf8.

(** ** MCP message types

    Modelled from the spec: [MCPRequest], [MCPResponse] and
    [MCPErrorCodes] live in [./types.js], which is not part of the sources.
    A Response is [{jsonrpc, id, result}] or
    [{jsonrpc, id, error: {code, message}}]; an [id] is a JSON scalar or
    [null]. *)

Module MCP.
Import JS.

Inductive Id : Type :=
| IdNull
| IdNumber (n : Z)
| IdString (s : jsstring).

Record MCPError : Type := { code : Z; message : jsstring }.

Inductive Body (Json : Type) : Type :=
| Result (result : Json)
| Error (error : MCPError).

Record MCPResponse (Json : Type) : Type :=
  { jsonrpc : jsstring; id : Id; body : Body Json }.

End MCP.

(** ** The server: framing and dispatch *)

Module MCPServer.
Import JS MCP.

(** *** [parseMessages] *)

Record Messages : Type := { parsed : list jsstring; remaining : jsstring }.

(** The loop [for (const line of lines) { ... parsed.push(trimmed) }]. *)
Definition push_trimmed (parsed : list jsstring) (line : jsstring)
  : list jsstring :=
  let trimmed := trim line in
  if truthy trimmed then parsed ++ [trimmed] else parsed.

(** What that loop collects from a list of segments: each one trimmed,
    the empty ones dropped. *)
Definition messages_of (segments : list jsstring) : list jsstring :=
  filter truthy (map trim segments).

Definition parseMessages (buffer : jsstring) : Messages :=
  let lines := split LF buffer in
  let (last, lines) := pop lines in
  let remaining := or_empty last in
  {| parsed := fold_left push_trimmed lines []; remaining := remaining |}.

(** *** The framer: a buffer fed chunk by chunk

    [buffer += chunk; messages = parseMessages(buffer);
     buffer = messages.remaining]. [feed] returns the messages emitted
    over all chunks, in order, and the buffer left at the end;
    [remainders] lists the buffer left after each chunk. *)
Fixpoint feed (buffer : jsstring) (chunks : list jsstring)
  : list jsstring * jsstring :=
  match chunks with
  | [] => ([], buffer)
  | chunk :: rest =>
      let messages := parseMessages (buffer ++ chunk) in
      let (emitted, final) := feed (remaining messages) rest in
      (parsed messages ++ emitted, final)
  end.

Fixpoint remainders (buffer : jsstring) (chunks : list jsstring)
  : list jsstring :=
  match chunks with
  | [] => []
  | chunk :: rest =>
      let buffer' := remaining (parseMessages (buffer ++ chunk)) in
      buffer' :: remainders buffer' rest
  end.

(** *** The lines of a text, read off the text itself

    The reference the framer is compared with: scan the text once; every
    newline closes the line collected since the previous one. What follows
    the last newline is not yet a line. *)
Fixpoint terminated_lines_from (current text : jsstring) : list jsstring :=
  match text with
  | [] => []
  | c :: rest =>
      if N.eqb c LF then current :: terminated_lines_from [] rest
      else terminated_lines_from (current ++ [c]) rest
  end.

Definition terminated_lines (text : jsstring) : list jsstring :=
  terminated_lines_from [] text.

(** The non-empty trimmed lines of a text, in order. *)
Definition text_lines (text : jsstring) : list jsstring :=
  filter truthy (map trim (terminated_lines text)).

(** *** Output channels and the code that writes to them *)

(** What has been written to a socket or to [process.stdout], oldest
    first: one element per [write] call. *)
Definition Channel := list jsstring.

(** A computation that writes to a channel and may throw. *)
Definition IO (A : Type) : Type := Channel -> Completion A * Channel.

Definition ret (A : Type) (a : A) : IO A := fun ch => (Normal a, ch).

Definition bind (A B : Type) (m : IO A) (k : A -> IO B) : IO B :=
  fun ch =>
    match m ch with
    | (Normal a, ch') => k a ch'
    | (Abrupt, ch') => (Abrupt, ch')
    end.

(** A call or an awaited promise inside the computation. *)
Definition lift (A : Type) (c : Completion A) : IO A := fun ch => (c, ch).

(** [try { body } catch (error) { handler }]: what [body] wrote before it
    threw stays written. *)
Definition try_catch (A : Type) (body handler : IO A) : IO A :=
  fun ch =>
    match body ch with
    | (Normal a, ch') => (Normal a, ch')
    | (Abrupt, ch') => handler ch'
    end.

(** [socket.write(s)], [process.stdout.write(s)]. *)
Definition write (s : jsstring) : IO unit := fun ch => (Normal tt, ch ++ [s]).

(** [for (const x of xs) { body }] *)
Fixpoint for_of (A : Type) (xs : list A) (body : A -> IO unit) : IO unit :=
  match xs with
  | [] => ret tt
  | x :: rest => bind (body x) (fun _ => for_of rest body)
  end.

Section Dispatch.

(** Opaque payloads ([params], [result]). *)
Variable Json : Type.

(** What [JSON.parse] returns; the cast [as MCPRequest] checks
    nothing, and neither transport reads a field of the request. *)
Variable MCPRequest : Type.

(** [JSON.parse]: [None] when it throws a [SyntaxError]. *)
Variable JSON_parse : jsstring -> option MCPRequest.

(** [await handlers.handleRequest(request)]: the promise resolves with a
    response or rejects. [handlers.js] is not part of the sources. *)
Variable handleRequest : MCPRequest -> Completion (MCPResponse Json).

(** [JSON.stringify] of a response: total, a response being plain JSON
    data. *)
Variable JSON_stringify : MCPResponse Json -> jsstring.

(** [MCPErrorCodes.PARSE_ERROR], declared in [./types.js]. *)
Variable PARSE_ERROR : Z.

Definition parse (message : jsstring) : Completion MCPRequest :=
  match JSON_parse message with
  | Some request => Normal request
  | None => Abrupt
  end.

(** The object literal of both [catch] clauses. *)
Definition errorResponse : MCPResponse Json :=
  {| jsonrpc := lit "2.0";
     id := IdNull;
     body := Error Json {| code := PARSE_ERROR; message := lit "Invalid JSON" |} |}.

Definition line (response : MCPResponse Json) : jsstring :=
  JSON_stringify response ++ [LF].

(** The response a message is answered with: the handler's when the
    message parses and the handler resolves, [errorResponse] when either
    throws. *)
Definition reply (message : jsstring) : MCPResponse Json :=
  match JSON_parse message with
  | Some request =>
      match handleRequest request with
      | Normal response => response
      | Abrupt => errorResponse
      end
  | None => errorResponse
  end.

(** Both ['data'] callbacks are [async] and await the handler inside the
    loop: the lines of one chunk are answered one after the other, while
    the callback of a later chunk may start before an earlier one is
    done. The definitions of this section run each callback to its end
    before the next one starts, with a handler whose outcome is a function
    of the request: they describe the runs in which every awaited promise
    settles before the next chunk arrives. The module [Listeners] below has
    the callbacks suspended and resumed in any order, and the outcomes as
    inputs. *)

(** **** Socket transport: [handleConnection] *)

(** The body of [for (const message of messages.parsed)]. *)
Definition handleConnection_message (message : jsstring) : IO unit :=
  try_catch
    (bind (lift (parse message)) (fun request =>
     bind (lift (handleRequest request)) (fun response =>
     write (line response))))
    (write (line errorResponse)).

(** One connection: the closure variable [buffer] and the socket. *)
Record Connection : Type := { buffer : jsstring; socket : Channel }.

Definition handleConnection_open : Connection :=
  {| buffer := []; socket := [] |}.

(** The ['data'] callback. The completion is that of the callback's
    promise. *)
Definition handleConnection_data (conn : Connection) (data : list byte)
  : Completion unit * Connection :=
  let buffer := buffer conn ++ Utf8.Buffer_toString data in
  let messages := parseMessages buffer in
  let buffer := remaining messages in
  let (completion, socket) :=
    for_of (parsed messages) handleConnection_message (socket conn) in
  (completion, {| buffer := buffer; socket := socket |}).

(** **** Standard-stream transport: [startStdio] *)

(** The [try] statement of the loop, on the trimmed line. *)
Definition startStdio_message (trimmed : jsstring) : IO unit :=
  try_catch
    (bind (lift (parse trimmed)) (fun request =>
     bind (lift (handleRequest request)) (fun response =>
     write (line response))))
    (write (line errorResponse)).

(** The body of [for (const line of lines)]; [ret tt] is [continue]. *)
Definition startStdio_line (line0 : jsstring) : IO unit :=
  let trimmed := trim line0 in
  if negb (truthy trimmed) then ret tt
  else startStdio_message trimmed.

(** The process: the variable [buffer], [process.stdout], and the
    decoder [setEncoding('utf8')] installs on [process.stdin]. *)
Record Stdio : Type :=
  { stdio_buffer : jsstring; stdout : Channel; decoder : Utf8.State }.

Definition startStdio_open : Stdio :=
  {| stdio_buffer := []; stdout := []; decoder := Utf8.init |}.

(** The ['data'] callback; [chunk] is a string. The assignment to
    [buffer] precedes the loop, so it stays when the loop throws. *)
Definition startStdio_data (p : Stdio) (chunk : jsstring)
  : Completion unit * Stdio :=
  let buffer := stdio_buffer p ++ chunk in
  let lines := split LF buffer in
  let (last, lines) := pop lines in
  let buffer := or_empty last in
  let (completion, out) := for_of lines startStdio_line (stdout p) in
  (completion,
   {| stdio_buffer := buffer; stdout := out; decoder := decoder p |}).

(** Bytes arriving on [process.stdin]: decoded by the stream, which then
    emits ['data'] with the decoded string. (The stream emits nothing when
    the decoded string is empty; the callback would leave buffer and output
    as they are.) *)
Definition startStdio_bytes (p : Stdio) (data : list byte)
  : Completion unit * Stdio :=
  let (chunk, dec) := Utf8.StringDecoder_write (decoder p) data in
  startStdio_data
    {| stdio_buffer := stdio_buffer p; stdout := stdout p; decoder := dec |}
    chunk.

(** **** Whole runs *)

Fixpoint handleConnection_run (conn : Connection) (chunks : list (list byte))
  : Connection :=
  match chunks with
  | [] => conn
  | data :: rest => handleConnection_run (snd (handleConnection_data conn data)) rest
  end.

Fixpoint startStdio_run (p : Stdio) (chunks : list (list byte)) : Stdio :=
  match chunks with
  | [] => p
  | data :: rest => startStdio_run (snd (startStdio_bytes p data)) rest
  end.

End Dispatch.

End MCPServer.

(** ** The ['data'] listeners, suspended and resumed

    Both ['data'] listeners are [async] functions that [await] the handler
    inside the loop over the messages of a chunk. A call of the listener
    runs until its first [await] and returns; when the awaited promise
    settles the call is resumed and runs until its next [await] or the end
    of its loop. Between two such stretches other events are served: a later
    chunk may arrive, and another suspended call may be resumed, so that the
    calls for successive chunks overlap.

    Here the order of these events is an input: a run is a list of events,
    each the arrival of a chunk or the settling of the promise one suspended
    call waits for. Nothing is assumed of the handler ([handlers.js] is no
    part of the sources, and one [handlers] object serves every connection):
    what a promise settles with, and when, comes with the event.
    [MCPServer.handleConnection_run] and [MCPServer.startStdio_run] above
    are the runs in which every promise settles before the next chunk
    arrives, with an outcome that is a function of the request. *)

Module Listeners.
Import JS MCP MCPServer.

Section Suspended.

Variable Json : Type.
Variable MCPRequest : Type.
Variable JSON_parse : jsstring -> option MCPRequest.
Variable JSON_stringify : MCPResponse Json -> jsstring.
Variable PARSE_ERROR : Z.

(** A call of a listener suspended at
    [await handlers.handleRequest(request)]: the message at hand (the loop
    variable [message], [trimmed] in [startStdio]), the request parsed from
    it and handed to the handler, and the elements the [for] loop has still
    to visit. *)
Record Listener : Type :=
  { message : jsstring; awaited : MCPRequest; to_come : list jsstring }.

Definition still_suspended (l : option Listener) : list Listener :=
  match l with Some l => [l] | None => [] end.

(** How an awaited promise settles: fulfilled with a response, or
    rejected. *)
Definition Outcome : Type := Completion (MCPResponse Json).

(** What the resumed call writes first: the response, or, from the
    [catch] clause, the error response. *)
Definition settled_line (outcome : Outcome) : jsstring :=
  match outcome with
  | Normal response => line JSON_stringify response
  | Abrupt => line JSON_stringify (errorResponse Json PARSE_ERROR)
  end.

(** The loop of [handleConnection] from the message at hand up to the next
    [await]: a message [JSON.parse] rejects is answered on the spot by the
    [catch] clause; one that parses is handed to the handler, and the call
    is suspended. *)
Fixpoint handleConnection_loop (messages : list jsstring) (out : Channel)
  : Channel * option Listener :=
  match messages with
  | [] => (out, None)
  | message :: rest =>
      match JSON_parse message with
      | Some request =>
          (out, Some {| message := message; awaited := request; to_come := rest |})
      | None =>
          handleConnection_loop rest
            (out ++ [line JSON_stringify (errorResponse Json PARSE_ERROR)])
      end
  end.

(** The loop of [startStdio], over the lines themselves: a line that is
    empty once trimmed is passed over. *)
Fixpoint startStdio_loop (lines : list jsstring) (out : Channel)
  : Channel * option Listener :=
  match lines with
  | [] => (out, None)
  | line0 :: rest =>
      let trimmed := trim line0 in
      if negb (truthy trimmed) then startStdio_loop rest out
      else
        match JSON_parse trimmed with
        | Some request =>
            (out, Some {| message := trimmed; awaited := request; to_come := rest |})
        | None =>
            startStdio_loop rest
              (out ++ [line JSON_stringify (errorResponse Json PARSE_ERROR)])
        end
  end.

(** The suspended calls after the [i]-th has run on: it is replaced by
    what is left of it, if anything. *)
Definition resumed (suspended : list Listener) (i : nat)
  (l : option Listener) : list Listener :=
  firstn i suspended ++ still_suspended l ++ skipn (S i) suspended.

(** *** A socket connection *)

(** The closure variable [buffer], what has been written to the socket,
    and the calls of the ['data'] listener that are suspended, oldest
    first. *)
Record Connection : Type :=
  { buffer : jsstring; socket : Channel; suspended : list Listener }.

Definition connection_open : Connection :=
  {| buffer := []; socket := []; suspended := [] |}.

Inductive Event : Type :=
| Data (data : list byte)
| Settled (i : nat) (outcome : Outcome).

(** ['data'] is emitted: the listener is called and runs up to its first
    [await]. The buffer is assigned before the loop. *)
Definition connection_data (conn : Connection) (data : list byte)
  : Connection :=
  let buffer0 := buffer conn ++ Utf8.Buffer_toString data in
  let messages := parseMessages buffer0 in
  let (out, l) := handleConnection_loop (parsed messages) (socket conn) in
  {| buffer := remaining messages;
     socket := out;
     suspended := suspended conn ++ still_suspended l |}.

(** The promise the [i]-th suspended call waits for settles: the call
    writes one line and goes on with its loop. *)
Definition connection_settled (conn : Connection) (i : nat)
  (outcome : Outcome) : Connection :=
  match nth_error (suspended conn) i with
  | None => conn
  | Some l =>
      let (out, l') :=
        handleConnection_loop (to_come l)
          (socket conn ++ [settled_line outcome]) in
      {| buffer := buffer conn;
         socket := out;
         suspended := resumed (suspended conn) i l' |}
  end.

Definition connection_step (conn : Connection) (event : Event) : Connection :=
  match event with
  | Data data => connection_data conn data
  | Settled i outcome => connection_settled conn i outcome
  end.

Definition connection_run (conn : Connection) (events : list Event)
  : Connection :=
  fold_left connection_step events conn.

(** *** The standard-input loop *)

(** The variable [buffer], what has been written to [process.stdout], the
    decoder of [process.stdin], the suspended calls of the ['data']
    listener, and whether [process.exit] has been called. *)
Record Process : Type :=
  { stdin_buffer : jsstring;
    stdout : Channel;
    decoder : Utf8.State;
    stdin_suspended : list Listener;
    exited : bool }.

Definition stdin_open : Process :=
  {| stdin_buffer := []; stdout := []; decoder := Utf8.init;
     stdin_suspended := []; exited := false |}.

Inductive StdinEvent : Type :=
| StdinData (data : list byte)
| StdinSettled (i : nat) (outcome : Outcome)
| StdinEnd.

(** Bytes arrive: the stream decodes them and emits ['data'] with the
    decoded string. (The stream emits nothing when the decoded string is
    empty; the listener would leave buffer and output as they are.) *)
Definition stdin_data (p : Process) (data : list byte) : Process :=
  let (chunk, dec) := Utf8.StringDecoder_write (decoder p) data in
  let buffer0 := stdin_buffer p ++ chunk in
  let lines := split LF buffer0 in
  let (last, lines) := pop lines in
  let (out, l) := startStdio_loop lines (stdout p) in
  {| stdin_buffer := or_empty last;
     stdout := out;
     decoder := dec;
     stdin_suspended := stdin_suspended p ++ still_suspended l;
     exited := false |}.

Definition stdin_settled (p : Process) (i : nat) (outcome : Outcome)
  : Process :=
  match nth_error (stdin_suspended p) i with
  | None => p
  | Some l =>
      let (out, l') :=
        startStdio_loop (to_come l) (stdout p ++ [settled_line outcome]) in
      {| stdin_buffer := stdin_buffer p;
         stdout := out;
         decoder := decoder p;
         stdin_suspended := resumed (stdin_suspended p) i l';
         exited := false |}
  end.

(** ['end']: [process.exit(0)]. The suspended calls are never resumed.
    (What the decoder still holds at the end of input has no newline in it
    and completes no line.) *)
Definition stdin_end (p : Process) : Process :=
  {| stdin_buffer := stdin_buffer p;
     stdout := stdout p;
     decoder := decoder p;
     stdin_suspended := stdin_suspended p;
     exited := true |}.

(** Once the process has exited nothing happens any more. *)
Definition stdin_step (p : Process) (event : StdinEvent) : Process :=
  if exited p then p
  else
    match event with
    | StdinData data => stdin_data p data
    | StdinSettled i outcome => stdin_settled p i outcome
    | StdinEnd => stdin_end p
    end.

Definition stdin_run (p : Process) (events : list StdinEvent) : Process :=
  fold_left stdin_step events p.

(** *** What a run is measured against *)

(** The chunks of a run, in order of arrival; on standard input, those
    that arrive before the end of input. *)
Fixpoint chunks_of (events : list Event) : list (list byte) :=
  match events with
  | [] => []
  | Data data :: rest => data :: chunks_of rest
  | Settled _ _ :: rest => chunks_of rest
  end.

Fixpoint stdin_chunks (events : list StdinEvent) : list (list byte) :=
  match events with
  | [] => []
  | StdinData data :: rest => data :: stdin_chunks rest
  | StdinSettled _ _ :: rest => stdin_chunks rest
  | StdinEnd :: _ => []
  end.

(** The responses the handler's promises were fulfilled with. *)
Fixpoint fulfilled (events : list Event) : list (MCPResponse Json) :=
  match events with
  | [] => []
  | Settled _ (Normal response) :: rest => response :: fulfilled rest
  | _ :: rest => fulfilled rest
  end.

Fixpoint stdin_fulfilled (events : list StdinEvent) : list (MCPResponse Json) :=
  match events with
  | [] => []
  | StdinSettled _ (Normal response) :: rest => response :: stdin_fulfilled rest
  | _ :: rest => stdin_fulfilled rest
  end.

(** The messages still to be answered by the suspended calls: for each
    call the one it waits for and those its loop has still to visit (on
    standard input, the lines among them that are not blank, trimmed). *)
Definition waiting_messages (suspended : list Listener) : list jsstring :=
  flat_map (fun l => message l :: to_come l) suspended.

Definition stdin_waiting_messages (suspended : list Listener) : list jsstring :=
  flat_map (fun l => message l :: messages_of (to_come l)) suspended.

(** [written] answers the message [m], given the responses the handler's
    promises were fulfilled with: it is the error response, the only answer
    to a message [JSON.parse] rejects, or one of these responses. *)
Definition answers (responses : list (MCPResponse Json))
  (m written : jsstring) : Prop :=
  match JSON_parse m with
  | None => written = line JSON_stringify (errorResponse Json PARSE_ERROR)
  | Some _ =>
      written = line JSON_stringify (errorResponse Json PARSE_ERROR)
      \/ exists response,
           In response responses /\ written = line JSON_stringify response
  end.

(** How many they are. *)
Fixpoint waiting (suspended : list Listener) : nat :=
  match suspended with
  | [] => 0
  | l :: rest => S (length (to_come l)) + waiting rest
  end.

Fixpoint stdin_waiting (suspended : list Listener) : nat :=
  match suspended with
  | [] => 0
  | l :: rest => S (length (messages_of (to_come l))) + stdin_waiting rest
  end.

(** *** The runs in which no two calls overlap

    Every promise settles before the next chunk arrives, with the outcome
    [handleRequest] gives for the request. [fuel] bounds the number of
    promises settled. *)
Variable handleRequest : MCPRequest -> Outcome.

Fixpoint connection_settle_all (fuel : nat) (conn : Connection) : Connection :=
  match fuel with
  | O => conn
  | S fuel' =>
      match suspended conn with
      | [] => conn
      | l :: _ =>
          connection_settle_all fuel'
            (connection_settled conn 0 (handleRequest (awaited l)))
      end
  end.

Fixpoint connection_run_in_turn (conn : Connection) (chunks : list (list byte))
  : Connection :=
  match chunks with
  | [] => conn
  | data :: rest =>
      let conn' := connection_data conn data in
      connection_run_in_turn
        (connection_settle_all (waiting (suspended conn')) conn') rest
  end.

Fixpoint stdin_settle_all (fuel : nat) (p : Process) : Process :=
  match fuel with
  | O => p
  | S fuel' =>
      match stdin_suspended p with
      | [] => p
      | l :: _ =>
          stdin_settle_all fuel'
            (stdin_settled p 0 (handleRequest (awaited l)))
      end
  end.

Fixpoint stdin_run_in_turn (p : Process) (chunks : list (list byte)) : Process :=
  match chunks with
  | [] => p
  | data :: rest =>
      let p' := stdin_data p data in
      stdin_run_in_turn
        (stdin_settle_all (stdin_waiting (stdin_suspended p')) p') rest
  end.

End Suspended.

End Listeners.

(** ** A concrete instance of the dispatcher's parameters

    Used by the examples: requests with an optional [id] and a method name,
    a [JSON.parse] restricted to the three lines below (every other line is
    rejected), a handler that answers [ping], rejects on [boom] and
    acknowledges anything else, and a [JSON.stringify] for responses. In
    the literals a single quote stands for the double quote of JSON. *)

Module Scenario.
Import JS MCP MCPServer.

Definition json (s : string) : jsstring :=
  map (fun c => if N.eqb c 39 then 34%N else c) (lit s).

Record Request : Type := { request_id : option Id; method : jsstring }.

Definition boom_line : jsstring :=
  json "{'jsonrpc':'2.0','id':42,'method':'boom'}".
Definition ping_line : jsstring :=
  json "{'jsonrpc':'2.0','id':7,'method':'ping'}".
Definition notification_line : jsstring :=
  json "{'jsonrpc':'2.0','method':'notifications/initialized'}".
Definition malformed_line : jsstring := lit "{not json".

Definition JSON_parse (message : jsstring) : option Request :=
  if eqb message boom_line then
    Some {| request_id := Some (IdNumber 42); method := lit "boom" |}
  else if eqb message ping_line then
    Some {| request_id := Some (IdNumber 7); method := lit "ping" |}
  else if eqb message notification_line then
    Some {| request_id := None; method := lit "notifications/initialized" |}
  else None.

Definition echo_id (request : Request) : Id :=
  match request_id request with Some i => i | None => IdNull end.

(** Results are JSON texts. *)
Definition handleRequest (request : Request)
  : Completion (MCPResponse jsstring) :=
  if eqb (method request) (lit "boom") then Abrupt
  else if eqb (method request) (lit "ping") then
    Normal {| jsonrpc := lit "2.0"; id := echo_id request;
              body := Result (json "'pong'") |}
  else
    Normal {| jsonrpc := lit "2.0"; id := echo_id request;
              body := Result (lit "{}") |}.

Definition decimal (z : Z) : jsstring :=
  lit (DecimalString.NilEmpty.string_of_int (Z.to_int z)).

Definition stringify_id (i : Id) : jsstring :=
  match i with
  | IdNull => lit "null"
  | IdNumber n => decimal n
  | IdString s => json "'" ++ s ++ json "'"
  end.

Definition JSON_stringify (response : MCPResponse jsstring) : jsstring :=
  json "{'jsonrpc':'" ++ jsonrpc response ++ json "','id':"
  ++ stringify_id (id response)
  ++ match body response with
     | Result result => json ",'result':" ++ result
     | Error _ e =>
         json ",'error':{'code':" ++ decimal (code e)
         ++ json ",'message':'" ++ message e ++ json "'}"
     end
  ++ lit "}".

(** The JSON-RPC code of a parse error. *)
Definition PARSE_ERROR : Z := -32700.

Definition error_line : jsstring :=
  json "{'jsonrpc':'2.0','id':null,'error':{'code':-32700,'message':'Invalid JSON'}}"
  ++ [LF].

Definition handleConnection_data :=
  MCPServer.handleConnection_data JSON_parse handleRequest JSON_stringify PARSE_ERROR.

Definition startStdio_bytes :=
  MCPServer.startStdio_bytes JSON_parse handleRequest JSON_stringify PARSE_ERROR.

Definition open_connection : Connection := handleConnection_open.
Definition open_stdio : Stdio := startStdio_open.

(** A text and one way to cut it into chunks. *)
Definition text : jsstring :=
  lit " ab" ++ [LF] ++ lit " c" ++ [LF] ++ lit "   " ++ [LF] ++ lit "d".
Definition chunks : list jsstring :=
  [lit " a"; lit "b" ++ [LF] ++ lit " c"; [LF] ++ lit "   " ++ [LF] ++ lit "d"].

(** U+00A0 (no-break space) then a newline, as UTF-8, cut inside the
    two-byte sequence of U+00A0. *)
Definition split_nbsp : list (list byte) := [[xc2]; [xa0; x0a]].

(** The bytes of an ASCII text. *)
Definition bytes (s : jsstring) : list byte :=
  map (fun c => match Byte.of_N c with Some b => b | None => x00 end) s.

End Scenario.

(** ** The query cache (src/cache/QueryCache.ts) *)

Module QueryCache.
Import JS.
Local Open Scope Z_scope.

Section Cache.

(** The cached values. [T] defaults to [any] in the source, so a stored
    value may be [undefined]: [Value] is [T | undefined]. *)
Variable T : Type.

Inductive Value : Type :=
| Undefined
| Defined (v : T).

Record CacheEntry : Type :=
  { data : Value; timestamp : Z; hits : Z }.

(** [onEvict] is an optional callback: here, whether one is configured.
    The calls made to it are recorded in the cache state. *)
Record QueryCacheOptions : Type :=
  { maxSize : Z; ttlMs : Z; onEvict : bool }.

(** *** [Map<string, CacheEntry<T>>]

    A JavaScript [Map] iterates in insertion order, and [evictLRU]
    depends on that order when two entries tie: an association list,
    oldest key first, without duplicate keys. *)
Definition Map := list (jsstring * CacheEntry).

Fixpoint Map_get (m : Map) (key : jsstring) : option CacheEntry :=
  match m with
  | [] => None
  | (k, e) :: rest => if eqb k key then Some e else Map_get rest key
  end.

Definition Map_has (m : Map) (key : jsstring) : bool :=
  match Map_get m key with Some _ => true | None => false end.

(** [m.set(key, e)]: an existing key keeps its place. *)
Fixpoint Map_set (m : Map) (key : jsstring) (e : CacheEntry) : Map :=
  match m with
  | [] => [(key, e)]
  | (k, e0) :: rest =>
      if eqb k key then (k, e) :: rest else (k, e0) :: Map_set rest key e
  end.

Fixpoint Map_delete (m : Map) (key : jsstring) : Map :=
  match m with
  | [] => []
  | (k, e) :: rest =>
      if eqb k key then rest else (k, e) :: Map_delete rest key
  end.

Definition Map_size (m : Map) : Z := Z.of_nat (length m).

(** *** The cache object *)

Record Cache : Type :=
  { cache : Map;
    options : QueryCacheOptions;
    onEvict_calls : list (jsstring * CacheEntry) }.

Definition with_cache (c : Cache) (m : Map) : Cache :=
  {| cache := m; options := options c; onEvict_calls := onEvict_calls c |}.

(** The constructor: [{ maxSize: 100, ttlMs: 5 * 60 * 1000, ...options }]. *)
Definition new (maxSize0 ttlMs0 : option Z) (onEvict0 : bool) : Cache :=
  {| cache := [];
     options :=
       {| maxSize := match maxSize0 with Some n => n | None => 100 end;
          ttlMs := match ttlMs0 with Some n => n | None => 5 * 60 * 1000 end;
          onEvict := onEvict0 |};
     onEvict_calls := [] |}.

Definition isExpired (c : Cache) (now : Z) (entry : CacheEntry) : bool :=
  now - timestamp entry >? ttlMs (options c).

Definition delete (c : Cache) (key : jsstring) : bool * Cache :=
  let entry := Map_get (cache c) key in
  let calls :=
    match entry with
    | Some e =>
        if onEvict (options c) then onEvict_calls c ++ [(key, e)]
        else onEvict_calls c
    | None => onEvict_calls c
    end in
  (Map_has (cache c) key,
   {| cache := Map_delete (cache c) key;
      options := options c;
      onEvict_calls := calls |}).

(** [entry.hits++] on the object the map holds. *)
Definition hit (entry : CacheEntry) : CacheEntry :=
  {| data := data entry; timestamp := timestamp entry; hits := hits entry + 1 |}.

Definition get (c : Cache) (key : jsstring) (now : Z) : Value * Cache :=
  match Map_get (cache c) key with
  | None => (Undefined, c)
  | Some entry =>
      if isExpired c now entry then (Undefined, snd (delete c key))
      else (data entry, with_cache c (Map_set (cache c) key (hit entry)))
  end.

(** One turn of the loop of [evictLRU]; [None] is [lruEntry === null]. *)
Definition evictLRU_step (lru : option (jsstring * CacheEntry))
  (kv : jsstring * CacheEntry) : option (jsstring * CacheEntry) :=
  match lru with
  | None => Some kv
  | Some (_, lruEntry) =>
      if (hits (snd kv) <? hits lruEntry)
         || ((hits (snd kv) =? hits lruEntry)
             && (timestamp (snd kv) <? timestamp lruEntry))
      then Some kv
      else lru
  end.

Definition evictLRU_scan (m : Map) : option (jsstring * CacheEntry) :=
  fold_left evictLRU_step m None.

(** The order of the scan: fewer hits first, and the earlier timestamp
    among equal hits. *)
Definition fewest_then_earliest (e e' : CacheEntry) : Prop :=
  hits e <= hits e' /\ (hits e = hits e' -> timestamp e <= timestamp e').

(** [if (lruKey) this.delete(lruKey)]: the test is on the key's
    truthiness. *)
Definition evictLRU (c : Cache) : Cache :=
  match evictLRU_scan (cache c) with
  | Some (lruKey, _) => if truthy lruKey then snd (delete c lruKey) else c
  | None => c
  end.

Definition set (c : Cache) (key : jsstring) (data0 : Value) (now : Z) : Cache :=
  let c1 :=
    if (Map_size (cache c) >=? maxSize (options c))
       && negb (Map_has (cache c) key)
    then evictLRU c else c in
  with_cache c1
    (Map_set (cache c1) key {| data := data0; timestamp := now; hits := 0 |}).

Definition has (c : Cache) (key : jsstring) (now : Z) : bool * Cache :=
  match Map_get (cache c) key with
  | None => (false, c)
  | Some entry =>
      if isExpired c now entry then (false, snd (delete c key))
      else (true, c)
  end.

Definition clear (c : Cache) : Cache :=
  {| cache := [];
     options := options c;
     onEvict_calls :=
       if onEvict (options c) then onEvict_calls c ++ cache c
       else onEvict_calls c |}.

Definition size (c : Cache) : Z := Map_size (cache c).

Definition keys (c : Cache) : list jsstring := map fst (cache c).

(** [invalidatePattern]: [pattern.test] as a predicate on keys. Deleting
    the key under the iterator leaves the keys still to come in place. *)
Definition invalidatePattern (c : Cache) (pattern : jsstring -> bool)
  : Z * Cache :=
  fold_left
    (fun (acc : Z * Cache) key =>
       if pattern key then (fst acc + 1, snd (delete (snd acc) key)) else acc)
    (keys c) (0, c).

Definition prune (c : Cache) (now : Z) : Z * Cache :=
  fold_left
    (fun (acc : Z * Cache) (kv : jsstring * CacheEntry) =>
       if isExpired c now (snd kv)
       then (fst acc + 1, snd (delete (snd acc) (fst kv)))
       else acc)
    (cache c) (0, c).

(** [prune] with the clock read anew for each entry, as the calls of
    [isExpired] in the loop do: [readings] lists the values of [Date.now()]
    in the order of the loop. [prune c now] is the case of a clock that
    stands still at [now]. *)
Definition prune_with_clock (c : Cache) (readings : list Z) : Z * Cache :=
  fold_left
    (fun (acc : Z * Cache) (kvt : (jsstring * CacheEntry) * Z) =>
       if isExpired c (snd kvt) (snd (fst kvt))
       then (fst acc + 1, snd (delete (snd acc) (fst (fst kvt))))
       else acc)
    (combine (cache c) readings) (0, c).

(** [getOrSet]: [factory] acts on a world of its own and may reject;
    [get] reads the clock at [now_get], and [set], after the [await], at
    [now_set]. *)
Definition getOrSet (World : Type) (c : Cache) (key : jsstring)
  (factory : World -> Completion Value * World)
  (now_get now_set : Z) (w : World) : Completion Value * Cache * World :=
  let (cached, c1) := get c key now_get in
  match cached with
  | Defined _ => (Normal cached, c1, w)
  | Undefined =>
      match factory w with
      | (Normal data0, w') => (Normal data0, set c1 key data0 now_set, w')
      | (Abrupt, w') => (Abrupt, c1, w')
      end
  end.

(** *** Sequences of calls *)

Inductive Call : Type :=
| CallGet (key : jsstring) (now : Z)
| CallSet (key : jsstring) (data0 : Value) (now : Z)
| CallHas (key : jsstring) (now : Z)
| CallDelete (key : jsstring)
| CallClear
| CallInvalidatePattern (pattern : jsstring -> bool)
| CallPrune (now : Z)
| CallGetOrSet (key : jsstring) (produced : Completion Value) (now_get now_set : Z).

Definition call (c : Cache) (op : Call) : Cache :=
  match op with
  | CallGet key now => snd (get c key now)
  | CallSet key data0 now => set c key data0 now
  | CallHas key now => snd (has c key now)
  | CallDelete key => snd (delete c key)
  | CallClear => clear c
  | CallInvalidatePattern pattern => snd (invalidatePattern c pattern)
  | CallPrune now => snd (prune c now)
  | CallGetOrSet key produced now_get now_set =>
      snd (fst (getOrSet c key (fun w : unit => (produced, w)) now_get now_set tt))
  end.

Definition calls (c : Cache) (ops : list Call) : Cache :=
  fold_left call ops c.

(** A call that stores under a key stores under a non-empty one. *)
Definition stores_under_nonempty_key (op : Call) : Prop :=
  match op with
  | CallSet key _ _ => truthy key = true
  | CallGetOrSet key _ _ _ => truthy key = true
  | _ => True
  end.

(** The call stores under [key]. *)
Definition stores_under (key : jsstring) (op : Call) : Prop :=
  match op with
  | CallSet k _ _ => k = key
  | CallGetOrSet k _ _ _ => k = key
  | _ => False
  end.

(** The number of keys a call adds to the store: one when the call comes
    to write an entry ([this.cache.set]) under a key that has none at that
    moment, as [set] does for a new key and [getOrSet] after a miss. *)
Definition stored (c : Cache) (op : Call) : Z :=
  match op with
  | CallSet key _ _ => if Map_has (cache c) key then 0 else 1
  | CallGetOrSet key produced now_get _ =>
      match fst (get c key now_get), produced with
      | Undefined, Normal _ =>
          if Map_has (cache (snd (get c key now_get))) key then 0 else 1
      | _, _ => 0
      end
  | _ => 0
  end.

(** The call [op] takes the cache from [c] to [c'] and every entry it
    removes is passed to [onEvict], once, and nothing else is. The options
    stay and the calls made before stay, followed by the new ones, [more].
    Without a callback there are none. With one:
    - the entries that left are as many as the new calls: the size went
      from [size c] to [size c + stored c op - length more];
    - no key is reported twice;
    - what is reported under a key is the entry the store held under it
      before the call, and the key has no entry afterwards, unless it is
      the key the call stores under. *)
Definition removals_reported (op : Call) (c c' : Cache) : Prop :=
  options c' = options c
  /\ exists more,
       onEvict_calls c' = onEvict_calls c ++ more
       /\ if onEvict (options c)
          then size c' + Z.of_nat (length more) = size c + stored c op
               /\ NoDup (map fst more)
               /\ (forall k e,
                      In (k, e) more ->
                      Map_get (cache c) k = Some e
                      /\ (Map_get (cache c') k = None \/ stores_under k op))
          else more = [].

(** From [c] to [c'] the options stay, the calls made to [onEvict] are
    those made before followed by some more, and, when a callback is
    configured, the entries that left the store are as many as these new
    calls: [size c' + new calls = size c + added]. *)
Definition reports (added : Z) (c c' : Cache) : Prop :=
  options c' = options c
  /\ exists more,
       onEvict_calls c' = onEvict_calls c ++ more
       /\ if onEvict (options c)
          then size c' + Z.of_nat (length more) = size c + added
          else more = [].

(** [c'] has the options of [c], no more entries and no other keys. *)
Definition shrinks (c c' : Cache) : Prop :=
  options c' = options c
  /\ size c' <= size c
  /\ incl (keys c') (keys c).

(** The store is within its capacity and has no empty key. *)
Definition within_capacity (c : Cache) : Prop :=
  size c <= maxSize (options c)
  /\ Forall (fun key => truthy key = true) (keys c).

End Cache.

Arguments Undefined {T}.

End QueryCache.

(** ** Concrete caches

    The caches of the examples hold strings. [two] has room for two
    entries and the default time-to-live of five minutes. *)

Module CacheScenario.
Import JS QueryCache.
Local Open Scope Z_scope.

Definition v (s : string) : Value jsstring := Defined (lit s).

Definition two : Cache jsstring := new jsstring (Some 2) None false.

(** [a] is set at time 10 and [b] at time 20; [a] is read at time 30. *)
Definition a_b : Cache jsstring :=
  set (set two (lit "a") (v "1") 10) (lit "b") (v "2") 20.

Definition a_read : Cache jsstring := snd (get a_b (lit "a") 30).

Definition entry_b : CacheEntry jsstring :=
  {| data := v "2"; timestamp := 20; hits := 0 |}.

(** [''] is set at time 10 and [b] at time 20: the store is full, and the
    entry of [''] is the first by hits and then by timestamp. *)
Definition empty_b : Cache jsstring :=
  set (set two [] (v "0") 10) (lit "b") (v "2") 20.

Definition entry_empty : CacheEntry jsstring :=
  {| data := v "0"; timestamp := 10; hits := 0 |}.

(** [a_b] in a store that has a callback [onEvict]. *)
Definition a_b_reporting : Cache jsstring :=
  set (set (new jsstring (Some 2) None true) (lit "a") (v "1") 10)
    (lit "b") (v "2") 20.

(** Three keys set in a row, the first being the empty string. *)
Definition empty_key_first : list (Call jsstring) :=
  [CallSet [] (v "0") 10; CallSet (lit "b") (v "2") 20; CallSet (lit "c") (v "3") 30].

(** The same with [a] for the first key. *)
Definition a_first : list (Call jsstring) :=
  [CallSet (lit "a") (v "1") 10; CallSet (lit "b") (v "2") 20; CallSet (lit "c") (v "3") 30].

(** [u] holds [undefined] under the key [q], stored at time 10. *)
Definition u : Cache jsstring := set two (lit "q") Undefined 10.

Definition entry_u : CacheEntry jsstring :=
  {| data := Undefined; timestamp := 10; hits := 0 |}.

(** A factory that counts its calls and produces the string [fresh]. *)
Definition counting_factory (calls : nat)
  : Completion (Value jsstring) * nat :=
  (Normal (v "fresh"), S calls).

End CacheScenario.

(** ** The server object: registry of connections, start and stop

    The fields [server] and [connections] of the class [MCPServer], and what
    its callbacks do to them. *)

Module Server.
Import JS MCP MCPServer.

(** A socket is an object, and a [Set] tells objects apart by identity:
    sockets are numbered in the order the net server creates them. *)
Definition Socket := nat.

(** [Set<any>]: the elements in insertion order, none twice. *)
Definition Set_has (s : list Socket) (x : Socket) : bool :=
  existsb (Nat.eqb x) s.

Definition Set_add (s : list Socket) (x : Socket) : list Socket :=
  if Set_has s x then s else s ++ [x].

Definition Set_delete (s : list Socket) (x : Socket) : list Socket :=
  filter (fun y => negb (Nat.eqb y x)) s.

Section Callbacks.

Variables Json MCPRequest : Type.
Variable JSON_parse : jsstring -> option MCPRequest.
Variable handleRequest : MCPRequest -> Completion (MCPResponse Json).
Variable JSON_stringify : MCPResponse Json -> jsstring.
Variable PARSE_ERROR : Z.

(** - [started]: [this.server] is not [null];
    - [close_calls]: the calls of [server.close] so far;
    - [connections]: the field of that name;
    - [sessions]: for each socket [handleConnection] was called with, the
      variable [buffer] of that call and what was written to the socket;
    - [destroyed]: the sockets [destroy] was called on, in order;
    - [created]: the number of sockets created so far. *)
Record State : Type :=
  { started : bool;
    close_calls : nat;
    connections : list Socket;
    sessions : list (Socket * Connection);
    destroyed : list Socket;
    created : nat }.

(** A new [MCPServer]. *)
Definition initial : State :=
  {| started := false; close_calls := 0; connections := []; sessions := [];
     destroyed := []; created := 0 |}.

Fixpoint session (ss : list (Socket * Connection)) (socket : Socket)
  : option Connection :=
  match ss with
  | [] => None
  | (s, conn) :: rest => if Nat.eqb s socket then Some conn else session rest socket
  end.

Fixpoint set_session (ss : list (Socket * Connection)) (socket : Socket)
  (conn : Connection) : list (Socket * Connection) :=
  match ss with
  | [] => []
  | (s, c) :: rest =>
      if Nat.eqb s socket then (s, conn) :: rest
      else (s, c) :: set_session rest socket conn
  end.

(** [start()]: [this.server = createServer(...)], then [listen]. Whether the
    promise resolves is up to the operating system. *)
Definition start (st : State) : State :=
  {| started := true; close_calls := close_calls st;
     connections := connections st; sessions := sessions st;
     destroyed := destroyed st; created := created st |}.

(** [handleConnection(socket)], called by the net server with a socket it
    has just created: the socket joins [connections] and gets a [buffer] of
    its own. *)
Definition handleConnection (st : State) : State :=
  let socket := created st in
  {| started := started st; close_calls := close_calls st;
     connections := Set_add (connections st) socket;
     sessions := sessions st ++ [(socket, handleConnection_open)];
     destroyed := destroyed st;
     created := S (created st) |}.

(** The ['data'] listener of a socket: the callback of [handleConnection]
    on the [buffer] of that socket. A socket without listener has no
    session. The buffer is assigned as the chunk arrives; the lines written
    are those of the run in which the callback ends before the next event
    (see [Listeners] for the other runs). *)
Definition on_data (st : State) (socket : Socket) (data : list byte) : State :=
  match session (sessions st) socket with
  | None => st
  | Some conn =>
      {| started := started st; close_calls := close_calls st;
         connections := connections st;
         sessions :=
           set_session (sessions st) socket
             (snd (handleConnection_data JSON_parse handleRequest
                     JSON_stringify PARSE_ERROR conn data));
         destroyed := destroyed st;
         created := created st |}
  end.

(** The ['close'] listener, and the ['error'] listener, which also logs. *)
Definition on_close (st : State) (socket : Socket) : State :=
  {| started := started st; close_calls := close_calls st;
     connections := Set_delete (connections st) socket;
     sessions := sessions st;
     destroyed := destroyed st;
     created := created st |}.

Definition on_error (st : State) (socket : Socket) : State :=
  on_close st socket.

(** [stop()]: destroy every connection, clear the set, and close the server
    when there is one. *)
Definition stop (st : State) : State :=
  {| started := started st;
     close_calls := if started st then S (close_calls st) else close_calls st;
     connections := [];
     sessions := sessions st;
     destroyed := destroyed st ++ connections st;
     created := created st |}.

(** What happens to a server. *)
Inductive Event : Type :=
| Start
| Stop
| Accept
| Data (socket : Socket) (data : list byte)
| Close (socket : Socket)
| Error (socket : Socket).

Definition step (st : State) (ev : Event) : State :=
  match ev with
  | Start => start st
  | Stop => stop st
  | Accept => handleConnection st
  | Data socket data => on_data st socket data
  | Close socket => on_close st socket
  | Error socket => on_error st socket
  end.

Definition run (st : State) (events : list Event) : State :=
  fold_left step events st.

(** The chunks a run delivers to one socket, in order. *)
Fixpoint chunks_for (socket : Socket) (events : list Event) : list (list byte) :=
  match events with
  | [] => []
  | Data s data :: rest =>
      if Nat.eqb s socket then data :: chunks_for socket rest
      else chunks_for socket rest
  | _ :: rest => chunks_for socket rest
  end.

(** What holds of the registry all along: no socket twice among the
    connections, none twice among the destroyed, none in both, and all of
    them sockets the net server has created. *)
Definition registry_sound (st : State) : Prop :=
  NoDup (connections st)
  /\ NoDup (destroyed st)
  /\ (forall s, In s (connections st) -> ~ In s (destroyed st))
  /\ (forall s, In s (connections st) \/ In s (destroyed st) -> s < created st).

(** Whether a socket is being tracked after some events, told from the
    events alone: it is once the net server has handed it over, until it
    closes or fails or the server is stopped. [created] counts the sockets
    created before the events, [before] tells whether the socket was tracked
    then. *)
Fixpoint tracked (created : nat) (socket : Socket) (before : bool)
  (events : list Event) : bool :=
  match events with
  | [] => before
  | Accept :: rest =>
      tracked (S created) socket
        (if Nat.eqb created socket then true else before) rest
  | Stop :: rest => tracked created socket false rest
  | Close s :: rest | Error s :: rest =>
      tracked created socket (if Nat.eqb s socket then false else before) rest
  | Start :: rest | Data _ _ :: rest => tracked created socket before rest
  end.

End Callbacks.

End Server.

(** ** The constructor and the command line

    [constructor], [createMCPServer] and the entry point at the end of the
    server source. *)

Module Cli.
Import JS.
Local Open Scope Z_scope.

(** The numbers that occur here: [NaN] and the integers, [-0] counted as
    [0]. An integer beyond 2^53 stands for the double nearest to it. *)
Inductive Number : Type :=
| NaN
| Int (z : Z).

(** [n || ...]: [NaN] and zero are falsy. *)
Definition number_truthy (n : Number) : bool :=
  match n with
  | NaN => false
  | Int z => negb (z =? 0)
  end.

Definition DEFAULT_PORT : Number := Int 3847.

(** *** [parseInt(s, 10)]

    Leading whitespace is skipped, one sign is read, then the longest run
    of decimal digits; [NaN] when there is no digit. *)
Definition digit (c : codeunit) : option (Decimal.uint -> Decimal.uint) :=
  if N.eqb c 48 then Some Decimal.D0
  else if N.eqb c 49 then Some Decimal.D1
  else if N.eqb c 50 then Some Decimal.D2
  else if N.eqb c 51 then Some Decimal.D3
  else if N.eqb c 52 then Some Decimal.D4
  else if N.eqb c 53 then Some Decimal.D5
  else if N.eqb c 54 then Some Decimal.D6
  else if N.eqb c 55 then Some Decimal.D7
  else if N.eqb c 56 then Some Decimal.D8
  else if N.eqb c 57 then Some Decimal.D9
  else None.

Fixpoint digits (s : jsstring) : Decimal.uint :=
  match s with
  | [] => Decimal.Nil
  | c :: rest =>
      match digit c with
      | Some d => d (digits rest)
      | None => Decimal.Nil
      end
  end.

Definition parseInt (s : jsstring) : Number :=
  let trimmed := trimStart s in
  let (sign, body) :=
    match trimmed with
    | c :: rest =>
        if N.eqb c 45 then (-1, rest)
        else if N.eqb c 43 then (1, rest)
        else (1, trimmed)
    | [] => (1, trimmed)
    end in
  match digits body with
  | Decimal.Nil => NaN
  | ds => Int (sign * Z.of_N (N.of_uint ds))
  end.

(** *** Strings and arrays *)

Fixpoint startsWith (s prefix : jsstring) {struct prefix} : bool :=
  match prefix with
  | [] => true
  | p :: prefix' =>
      match s with
      | c :: s' => N.eqb c p && startsWith s' prefix'
      | [] => false
      end
  end.

Definition endsWith (s suffix : jsstring) : bool :=
  startsWith (rev s) (rev suffix).

(** [args.includes(x)] and [args.find(test)]. *)
Definition includes (args : list jsstring) (x : jsstring) : bool :=
  existsb (fun a => eqb a x) args.

(** *** The constructor *)

Record MCPServerOptions : Type :=
  { port : option Number; host : option jsstring; dataDir : option jsstring }.

(** The fields the constructor sets from its options; [server] is [null]
    and [connections] empty, as in [Server.initial]. [handlers_dataDir] is
    the argument of [createHandlers]. *)
Record MCPServer : Type :=
  { server_port : Number; server_host : jsstring;
    handlers_dataDir : option jsstring }.

Definition constructor (options : MCPServerOptions) : MCPServer :=
  {| server_port :=
       match port options with
       | Some n => if number_truthy n then n else DEFAULT_PORT
       | None => DEFAULT_PORT
       end;
     server_host :=
       match host options with
       | Some h => if truthy h then h else lit "127.0.0.1"
       | None => lit "127.0.0.1"
       end;
     handlers_dataDir := dataDir options |}.

Definition no_options : MCPServerOptions :=
  {| port := None; host := None; dataDir := None |}.

Definition createMCPServer (options : option MCPServerOptions) : MCPServer :=
  constructor (match options with Some o => o | None => no_options end).

(** *** The entry point *)

(** What the entry point does: nothing (the file was not run as
    [server.js] or [server.ts]), [MCPServer.startStdio()], or [start()] on a
    server made by [createMCPServer]. *)
Inductive Launch : Type :=
| NotRun
| StartStdio
| StartSocket (srv : MCPServer).

(** The body of the [if], on [args = process.argv.slice(2)]. *)
Definition main (args : list jsstring) : Launch :=
  if includes args (lit "--stdio") then StartStdio
  else
    let portArg := find (fun a => startsWith a (lit "--port=")) args in
    let port0 :=
      match portArg with
      | Some a =>
          if truthy a then
            Some (match nth_error (split 61%N a) 1 with
                  | Some text => parseInt text
                  | None => NaN
                  end)
          else None
      | None => None
      end in
    StartSocket
      (createMCPServer
         (Some {| port := port0; host := None; dataDir := None |})).

Definition entry (argv : list jsstring) : Launch :=
  match nth_error argv 1 with
  | Some script =>
      if endsWith script (lit "server.js") || endsWith script (lit "server.ts")
      then main (skipn 2 argv)
      else NotRun
  | None => NotRun
  end.

(** The decimal digits of a number, as a string. *)
Fixpoint of_uint (ds : Decimal.uint) : jsstring :=
  match ds with
  | Decimal.Nil => []
  | Decimal.D0 r => 48%N :: of_uint r
  | Decimal.D1 r => 49%N :: of_uint r
  | Decimal.D2 r => 50%N :: of_uint r
  | Decimal.D3 r => 51%N :: of_uint r
  | Decimal.D4 r => 52%N :: of_uint r
  | Decimal.D5 r => 53%N :: of_uint r
  | Decimal.D6 r => 54%N :: of_uint r
  | Decimal.D7 r => 55%N :: of_uint r
  | Decimal.D8 r => 56%N :: of_uint r
  | Decimal.D9 r => 57%N :: of_uint r
  end.

Definition decimal (n : N) : jsstring := of_uint (N.to_uint n).

End Cli.

(* ===================================================================== *)
(** * Part II: properties                                                  *)
(* ===================================================================== *)

Unset Implicit Arguments.

(** ** Strings: [split] and [pop] *)

Section StringFacts.
Import JS.

Lemma split_not_nil (sep : codeunit) (s : jsstring) : split sep s <> [].
Proof.
  destruct s as [|c s]; simpl; [discriminate|].
  destruct (N.eqb c sep); [discriminate|].
  destruct (split sep s); discriminate.
Qed.

Lemma pop_last (A : Type) (xs : list A) (x : A) :
  pop (xs ++ [x]) = (Some x, xs).
Proof.
  unfold pop. rewrite rev_app_distr. simpl. now rewrite rev_involutive.
Qed.

Lemma pop_not_nil (A : Type) (xs : list A) (d : A) :
  xs <> [] -> pop xs = (Some (last xs d), removelast xs).
Proof.
  intros Hne. destruct (exists_last Hne) as [front [x ->]].
  now rewrite pop_last, last_last, removelast_last.
Qed.

Lemma or_empty_Some (s : jsstring) : or_empty (Some s) = s.
Proof. now destruct s. Qed.

(** The first segment of [split] grows by the characters put in front of
    the text as long as none of them is the separator. *)
Lemma split_cons_other (sep c : codeunit) (s : jsstring) :
  N.eqb c sep = false ->
  split sep (c :: s) =
  (c :: hd [] (split sep s)) :: tl (split sep s).
Proof.
  intros Hc. simpl. rewrite Hc.
  destruct (split sep s) eqn:E; [now apply split_not_nil in E|reflexivity].
Qed.

Lemma split_cons_sep (sep c : codeunit) (s : jsstring) :
  N.eqb c sep = true -> split sep (c :: s) = [] :: split sep s.
Proof. intros Hc. simpl. now rewrite Hc. Qed.

(** Splitting a concatenation: the complete segments of the first part,
    then the split of its open segment followed by the second part. *)
Lemma split_app (sep : codeunit) (x y : jsstring) :
  split sep (x ++ y) =
  removelast (split sep x) ++ split sep (last (split sep x) [] ++ y).
Proof.
  induction x as [|c x IH].
  - reflexivity.
  - rewrite <- app_comm_cons.
    destruct (N.eqb c sep) eqn:Hc.
    + rewrite !split_cons_sep by assumption.
      rewrite IH.
      pose proof (split_not_nil sep x) as Hne.
      destruct (split sep x) as [|seg segs] eqn:E; [congruence|].
      reflexivity.
    + rewrite (split_cons_other sep c (x ++ y) Hc), (split_cons_other sep c x Hc).
      rewrite IH.
      pose proof (split_not_nil sep x) as Hne.
      destruct (split sep x) as [|seg [|seg' segs]] eqn:E; [congruence| |].
      * cbn [removelast last app hd tl].
        now rewrite (split_cons_other sep c (seg ++ y) Hc).
      * reflexivity.
Qed.

Lemma last_app_not_nil (A : Type) (xs ys : list A) (d : A) :
  ys <> [] -> last (xs ++ ys) d = last ys d.
Proof.
  intros Hne. induction xs as [|x xs IH]; [reflexivity|].
  cbn [app]. rewrite <- IH.
  destruct (xs ++ ys) eqn:E; [|reflexivity].
  apply app_eq_nil in E. tauto.
Qed.

Lemma last_split_no_sep (sep : codeunit) (s : jsstring) :
  ~ In sep (last (split sep s) []).
Proof.
  induction s as [|c s IH]; [simpl; tauto|].
  destruct (N.eqb c sep) eqn:Hc.
  - rewrite split_cons_sep by assumption.
    pose proof (split_not_nil sep s) as Hne.
    destruct (split sep s) eqn:E; [congruence|]. exact IH.
  - rewrite split_cons_other by assumption.
    pose proof (split_not_nil sep s) as Hne.
    destruct (split sep s) as [|seg [|seg' segs]] eqn:E; [congruence| |].
    + simpl in *. intros [->|H]; [|tauto].
      now rewrite N.eqb_refl in Hc.
    + exact IH.
Qed.

Lemma split_no_sep (sep : codeunit) (s : jsstring) :
  ~ In sep s -> split sep s = [s].
Proof.
  induction s as [|c s IH]; [reflexivity|].
  intros Hn. simpl in Hn.
  assert (Hc : N.eqb c sep = false).
  { apply N.eqb_neq. intros ->. tauto. }
  rewrite split_cons_other by assumption.
  rewrite IH by tauto. reflexivity.
Qed.

End StringFacts.

(** ** The framer *)

Section FramerFacts.
Import JS MCPServer.

Lemma messages_of_app (xs ys : list jsstring) :
  messages_of (xs ++ ys) = messages_of xs ++ messages_of ys.
Proof. unfold messages_of. now rewrite map_app, filter_app. Qed.

(** The [push] loop of [parseMessages] collects [messages_of]. *)
Lemma fold_push_trimmed (lines acc : list jsstring) :
  fold_left push_trimmed lines acc = acc ++ messages_of lines.
Proof.
  revert acc. induction lines as [|l lines IH]; intros acc; simpl.
  - now rewrite app_nil_r.
  - rewrite IH. unfold push_trimmed, messages_of. simpl.
    destruct (truthy (trim l)); [now rewrite <- app_assoc|reflexivity].
Qed.

Lemma parseMessages_split (buffer : jsstring) :
  parseMessages buffer =
  {| parsed := messages_of (removelast (split LF buffer));
     remaining := last (split LF buffer) [] |}.
Proof.
  unfold parseMessages.
  rewrite (pop_not_nil _ (split LF buffer) [] (split_not_nil LF buffer)).
  now rewrite fold_push_trimmed, or_empty_Some.
Qed.

Lemma remaining_no_LF (buffer : jsstring) :
  ~ In LF (remaining (parseMessages buffer)).
Proof. rewrite parseMessages_split. apply last_split_no_sep. Qed.

Lemma removelast_split_app (x y : jsstring) :
  removelast (split LF (x ++ y)) =
  removelast (split LF x) ++ removelast (split LF (last (split LF x) [] ++ y)).
Proof.
  rewrite split_app. apply removelast_app, split_not_nil.
Qed.

Lemma last_split_app (x y : jsstring) :
  last (split LF (x ++ y)) [] = last (split LF (last (split LF x) [] ++ y)) [].
Proof.
  rewrite split_app. apply last_app_not_nil, split_not_nil.
Qed.

(** Feeding chunks to a buffer that holds no newline emits the messages of
    the whole text, and leaves its open segment in the buffer. *)
Lemma feed_concat (chunks : list jsstring) (buffer : jsstring) :
  ~ In LF buffer ->
  feed buffer chunks =
  (messages_of (removelast (split LF (buffer ++ concat chunks))),
   last (split LF (buffer ++ concat chunks)) []).
Proof.
  revert buffer. induction chunks as [|chunk rest IH]; intros buffer Hb.
  - simpl. rewrite app_nil_r, (split_no_sep LF buffer Hb). reflexivity.
  - simpl. rewrite parseMessages_split. cbn [parsed remaining].
    rewrite IH by apply last_split_no_sep.
    rewrite app_assoc.
    rewrite (removelast_split_app (buffer ++ chunk) (concat rest)).
    rewrite (last_split_app (buffer ++ chunk) (concat rest)).
    now rewrite messages_of_app.
Qed.

(** The scan of [terminated_lines] and [split] agree: the lines a newline
    closes are the segments of [split] but the last. *)
Lemma terminated_lines_from_split (text current : jsstring) :
  terminated_lines_from current text =
  removelast ((current ++ hd [] (split LF text)) :: tl (split LF text)).
Proof.
  revert current. induction text as [|c text IH]; intros current.
  - reflexivity.
  - cbn [terminated_lines_from].
    pose proof (split_not_nil LF text) as Hne.
    destruct (N.eqb c LF) eqn:Hc.
    + rewrite (split_cons_sep LF c text Hc). cbn [hd tl].
      rewrite IH, app_nil_r. cbn [app].
      destruct (split LF text) as [|seg segs] eqn:E; [congruence|].
      reflexivity.
    + rewrite (split_cons_other LF c text Hc). cbn [hd tl].
      rewrite IH, <- app_assoc. reflexivity.
Qed.

Lemma terminated_lines_split (text : jsstring) :
  terminated_lines text = removelast (split LF text).
Proof.
  unfold terminated_lines. rewrite terminated_lines_from_split.
  pose proof (split_not_nil LF text) as Hne.
  destruct (split LF text); [congruence|reflexivity].
Qed.

Lemma remainders_no_LF (chunks : list jsstring) (buffer : jsstring) :
  Forall (fun r => ~ In LF r) (remainders buffer chunks).
Proof.
  revert buffer. induction chunks as [|chunk rest IH]; intros buffer; simpl.
  - constructor.
  - constructor; [apply remaining_no_LF|apply IH].
Qed.

End FramerFacts.

(** C1. Whatever way a text is cut into chunks, the framer, fed the chunks
    in order from an empty buffer, emits the non-empty trimmed lines of the
    text, in the order of the text: the emitted sequence does not depend on
    the cut. *)
Theorem framer_emits_text_lines :
  forall (text : JS.jsstring) (chunks : list JS.jsstring),
    concat chunks = text ->
    fst (MCPServer.feed [] chunks) = MCPServer.text_lines text.
Proof.
  intros text chunks <-.
  rewrite feed_concat by (simpl; tauto).
  unfold MCPServer.text_lines. now rewrite terminated_lines_split.
Qed.

Lemma framer_emits_text_lines_witness :
  concat Scenario.chunks = Scenario.text
  /\ fst (MCPServer.feed [] Scenario.chunks) = MCPServer.text_lines Scenario.text.
Proof.
  split; [reflexivity|].
  apply (framer_emits_text_lines Scenario.text Scenario.chunks). reflexivity.
Defined.

(** ** The decoder *)

Section Utf8Facts.
Import JS Utf8.



Lemma run_cons (st : State) (b : byte) (rest : list byte) :
  run st (b :: rest) =
  (fst (step st (Byte.to_N b)) ++ fst (run (snd (step st (Byte.to_N b))) rest),
   snd (run (snd (step st (Byte.to_N b))) rest)).
Proof.
  cbn [run]. destruct (step st (Byte.to_N b)) as [out st1]. cbn [fst snd].
  now destruct (run st1 rest).
Qed.



End Utf8Facts.

(** ** The dispatcher and the two transports *)

Section DispatchFacts.
Import JS MCP MCPServer.

Variables Json MCPRequest : Type.
Variable JSON_parse : jsstring -> option MCPRequest.
Variable handleRequest : MCPRequest -> Completion (MCPResponse Json).
Variable JSON_stringify : MCPResponse Json -> jsstring.
Variable PARSE_ERROR : Z.

Local Abbreviation on_socket :=
  (handleConnection_message JSON_parse handleRequest JSON_stringify PARSE_ERROR).
Local Abbreviation on_stdout :=
  (startStdio_message JSON_parse handleRequest JSON_stringify PARSE_ERROR).
Local Abbreviation stdio_line :=
  (startStdio_line JSON_parse handleRequest JSON_stringify PARSE_ERROR).
Local Abbreviation answer :=
  (fun message =>
     line JSON_stringify (reply JSON_parse handleRequest PARSE_ERROR message)).

(** Every message is answered by one write, and the [try] statement never
    throws. *)
Lemma handleConnection_message_writes (message : jsstring) (ch : Channel) :
  on_socket message ch = (Normal tt, ch ++ [answer message]).
Proof.
  unfold handleConnection_message, reply, try_catch, bind, lift, parse, write.
  destruct (JSON_parse message) as [request|]; [|reflexivity].
  destruct (handleRequest request); reflexivity.
Qed.

Lemma startStdio_message_writes (trimmed : jsstring) (ch : Channel) :
  on_stdout trimmed ch = (Normal tt, ch ++ [answer trimmed]).
Proof.
  unfold startStdio_message, reply, try_catch, bind, lift, parse, write.
  destruct (JSON_parse trimmed) as [request|]; [|reflexivity].
  destruct (handleRequest request); reflexivity.
Qed.

Lemma for_of_handleConnection (messages : list jsstring) (ch : Channel) :
  for_of messages on_socket ch = (Normal tt, ch ++ map answer messages).
Proof.
  revert ch. induction messages as [|m messages IH]; intros ch.
  - simpl. now rewrite app_nil_r.
  - cbn [for_of map]. unfold bind at 1.
    rewrite handleConnection_message_writes, IH, <- app_assoc. reflexivity.
Qed.

Lemma for_of_startStdio (lines : list jsstring) (ch : Channel) :
  for_of lines stdio_line ch = (Normal tt, ch ++ map answer (messages_of lines)).
Proof.
  revert ch. induction lines as [|l lines IH]; intros ch.
  - simpl. now rewrite app_nil_r.
  - cbn [for_of]. unfold bind at 1. unfold startStdio_line at 1.
    unfold messages_of. cbn [map filter].
    destruct (truthy (trim l)) eqn:Ht; cbn [negb].
    + rewrite startStdio_message_writes, IH, <- app_assoc. reflexivity.
    + unfold ret. rewrite IH. reflexivity.
Qed.

(** The socket callback in closed form. *)
Lemma handleConnection_data_closed (conn : Connection) (data : list byte) :
  handleConnection_data JSON_parse handleRequest JSON_stringify PARSE_ERROR
    conn data =
  (Normal tt,
   {| buffer := last (split LF (buffer conn ++ Utf8.Buffer_toString data)) [];
      socket :=
        socket conn
        ++ map answer
             (messages_of
                (removelast
                   (split LF (buffer conn ++ Utf8.Buffer_toString data)))) |}).
Proof.
  unfold handleConnection_data.
  rewrite parseMessages_split. cbn [parsed remaining].
  now rewrite for_of_handleConnection.
Qed.

(** The standard-input callback in closed form. *)
Lemma startStdio_data_closed (p : Stdio) (chunk : jsstring) :
  startStdio_data JSON_parse handleRequest JSON_stringify PARSE_ERROR p chunk =
  (Normal tt,
   {| stdio_buffer := last (split LF (stdio_buffer p ++ chunk)) [];
      stdout :=
        stdout p
        ++ map answer
             (messages_of (removelast (split LF (stdio_buffer p ++ chunk))));
      decoder := decoder p |}).
Proof.
  unfold startStdio_data. cbv zeta.
  rewrite (pop_not_nil jsstring _ [] (split_not_nil LF (stdio_buffer p ++ chunk))).
  now rewrite for_of_startStdio, or_empty_Some.
Qed.


End DispatchFacts.

(** C8. The buffer kept after a chunk never holds a newline: in the framer
    fed any sequence of chunks, in a socket connection after any ['data']
    event, and in the standard-input loop after any ['data'] event, whatever
    the state before. *)
Theorem remainder_never_holds_newline :
  (forall (chunks : list JS.jsstring) (buffer : JS.jsstring),
      Forall (fun r => ~ In JS.LF r) (MCPServer.remainders buffer chunks))
  /\ (forall (Json MCPRequest : Type)
        (JSON_parse : JS.jsstring -> option MCPRequest)
        (handleRequest : MCPRequest -> JS.Completion (MCP.MCPResponse Json))
        (JSON_stringify : MCP.MCPResponse Json -> JS.jsstring)
        (PARSE_ERROR : Z) (conn : MCPServer.Connection) (data : list byte),
         ~ In JS.LF
             (MCPServer.buffer
                (snd (MCPServer.handleConnection_data JSON_parse handleRequest
                        JSON_stringify PARSE_ERROR conn data))))
  /\ (forall (Json MCPRequest : Type)
        (JSON_parse : JS.jsstring -> option MCPRequest)
        (handleRequest : MCPRequest -> JS.Completion (MCP.MCPResponse Json))
        (JSON_stringify : MCP.MCPResponse Json -> JS.jsstring)
        (PARSE_ERROR : Z) (p : MCPServer.Stdio) (data : list byte),
         ~ In JS.LF
             (MCPServer.stdio_buffer
                (snd (MCPServer.startStdio_bytes JSON_parse handleRequest
                        JSON_stringify PARSE_ERROR p data)))).
Proof.
  split; [|split].
  - intros chunks buffer. apply remainders_no_LF.
  - intros. rewrite handleConnection_data_closed. cbn [snd MCPServer.buffer].
    apply last_split_no_sep.
  - intros. unfold MCPServer.startStdio_bytes.
    destruct (Utf8.StringDecoder_write (MCPServer.decoder p) data) as [chunk dec].
    rewrite startStdio_data_closed. cbn [snd MCPServer.stdio_buffer].
    apply last_split_no_sep.
Qed.

(** C5. A line [JSON.parse] rejects is answered, on the socket and on
    standard output alike, by exactly one write: the error response whose
    [id] is [null] and whose code is [PARSE_ERROR]; the [try] statement ends
    normally. *)
Theorem malformed_line_yields_parse_error :
  forall (Json MCPRequest : Type)
    (JSON_parse : JS.jsstring -> option MCPRequest)
    (handleRequest : MCPRequest -> JS.Completion (MCP.MCPResponse Json))
    (JSON_stringify : MCP.MCPResponse Json -> JS.jsstring)
    (PARSE_ERROR : Z) (message : JS.jsstring) (ch : MCPServer.Channel),
    JSON_parse message = None ->
    let response := MCPServer.errorResponse Json PARSE_ERROR in
    MCPServer.handleConnection_message JSON_parse handleRequest JSON_stringify
      PARSE_ERROR message ch
    = (JS.Normal tt, ch ++ [MCPServer.line JSON_stringify response])
    /\ MCPServer.startStdio_message JSON_parse handleRequest JSON_stringify
         PARSE_ERROR message ch
       = (JS.Normal tt, ch ++ [MCPServer.line JSON_stringify response])
    /\ MCP.id response = MCP.IdNull
    /\ MCP.body response =
       MCP.Error Json
         {| MCP.code := PARSE_ERROR; MCP.message := JS.lit "Invalid JSON" |}.
Proof.
  intros Json MCPRequest JSON_parse handleRequest JSON_stringify PARSE_ERROR
    message ch Hparse response.
  rewrite handleConnection_message_writes, startStdio_message_writes.
  unfold MCPServer.reply. rewrite Hparse. repeat split.
Qed.

Lemma malformed_line_yields_parse_error_witness :
  Scenario.JSON_parse Scenario.malformed_line = None
  /\ MCPServer.handleConnection_message Scenario.JSON_parse
       Scenario.handleRequest Scenario.JSON_stringify Scenario.PARSE_ERROR
       Scenario.malformed_line []
     = (JS.Normal tt, [Scenario.error_line])
  /\ MCPServer.startStdio_message Scenario.JSON_parse
       Scenario.handleRequest Scenario.JSON_stringify Scenario.PARSE_ERROR
       Scenario.malformed_line []
     = (JS.Normal tt, [Scenario.error_line]).
Proof.
  assert (Hparse : Scenario.JSON_parse Scenario.malformed_line = None)
    by reflexivity.
  split; [exact Hparse|].
  destruct (malformed_line_yields_parse_error _ _ Scenario.JSON_parse
              Scenario.handleRequest Scenario.JSON_stringify
              Scenario.PARSE_ERROR Scenario.malformed_line [] Hparse)
    as [Hsocket [Hstdout _]].
  split; [exact Hsocket|exact Hstdout].
Defined.

(** When the handler rejects, the [catch] clause meant for [JSON.parse]
    takes over: the line written is the parse-error response. *)
Lemma handler_failure_writes_errorResponse :
  forall (Json MCPRequest : Type)
    (JSON_parse : JS.jsstring -> option MCPRequest)
    (handleRequest : MCPRequest -> JS.Completion (MCP.MCPResponse Json))
    (JSON_stringify : MCP.MCPResponse Json -> JS.jsstring)
    (PARSE_ERROR : Z) (message : JS.jsstring) (request : MCPRequest)
    (ch : MCPServer.Channel),
    JSON_parse message = Some request ->
    handleRequest request = JS.Abrupt ->
    let response := MCPServer.errorResponse Json PARSE_ERROR in
    MCPServer.handleConnection_message JSON_parse handleRequest JSON_stringify
      PARSE_ERROR message ch
    = (JS.Normal tt, ch ++ [MCPServer.line JSON_stringify response])
    /\ MCPServer.startStdio_message JSON_parse handleRequest JSON_stringify
         PARSE_ERROR message ch
       = (JS.Normal tt, ch ++ [MCPServer.line JSON_stringify response])
    /\ MCP.id response = MCP.IdNull.
Proof.
  intros Json MCPRequest JSON_parse handleRequest JSON_stringify PARSE_ERROR
    message request ch Hparse Hthrow response.
  rewrite handleConnection_message_writes, startStdio_message_writes.
  unfold MCPServer.reply. rewrite Hparse, Hthrow. repeat split.
Qed.

(** C4. The request with [id] 42 whose handler rejects: the line parses,
    the handler fails, and both transports answer with the parse-error
    response, [id] [null], instead of an error response with [id] 42. *)
Theorem rejected_request_answered_with_null_id :
  Scenario.JSON_parse Scenario.boom_line
  = Some {| Scenario.request_id := Some (MCP.IdNumber 42);
            Scenario.method := JS.lit "boom" |}
  /\ Scenario.handleRequest
       {| Scenario.request_id := Some (MCP.IdNumber 42);
          Scenario.method := JS.lit "boom" |}
     = JS.Abrupt
  /\ MCPServer.socket
       (snd (Scenario.handleConnection_data Scenario.open_connection
               (Scenario.bytes (Scenario.boom_line ++ [JS.LF]))))
     = [Scenario.error_line]
  /\ MCPServer.stdout
       (snd (Scenario.startStdio_bytes Scenario.open_stdio
               (Scenario.bytes (Scenario.boom_line ++ [JS.LF]))))
     = [Scenario.error_line].
Proof. repeat split; vm_compute; reflexivity. Qed.




(** C7. The bytes C2 A0 0A (a no-break space and a newline) arriving as
    the chunks C2 and A0 0A: the socket transport, which decodes each chunk
    alone, sees the line U+FFFD U+FFFD and answers it with one line; the
    standard-stream transport, which decodes the stream, sees a blank line
    and writes nothing. This holds for every parser, handler and
    serializer. *)
Theorem transports_differ_on_cut_character :
  forall (Json MCPRequest : Type)
    (JSON_parse : JS.jsstring -> option MCPRequest)
    (handleRequest : MCPRequest -> JS.Completion (MCP.MCPResponse Json))
    (JSON_stringify : MCP.MCPResponse Json -> JS.jsstring)
    (PARSE_ERROR : Z),
    MCPServer.socket
      (MCPServer.handleConnection_run JSON_parse handleRequest JSON_stringify
         PARSE_ERROR MCPServer.handleConnection_open Scenario.split_nbsp)
    = [MCPServer.line JSON_stringify
         (MCPServer.reply JSON_parse handleRequest PARSE_ERROR
            [Utf8.REPLACEMENT; Utf8.REPLACEMENT])]
    /\ MCPServer.stdout
         (MCPServer.startStdio_run JSON_parse handleRequest JSON_stringify
            PARSE_ERROR MCPServer.startStdio_open Scenario.split_nbsp)
       = [].
Proof.
  intros. split.
  - unfold Scenario.split_nbsp. cbn [MCPServer.handleConnection_run].
    rewrite !handleConnection_data_closed. reflexivity.
  - reflexivity.
Qed.

(** ** The map of the cache *)

Section MapFacts.
Import JS QueryCache.
Local Open Scope Z_scope.

Variable T : Type.

Lemma eqb_eq (s t : jsstring) : eqb s t = true <-> s = t.
Proof.
  revert t. induction s as [|c s IH]; intros [|d t]; simpl;
    try (split; [discriminate|congruence]); [tauto|].
  rewrite andb_true_iff, N.eqb_eq, IH. split.
  - intros [-> ->]. reflexivity.
  - intros H. inversion H. tauto.
Qed.

Lemma eqb_refl (s : jsstring) : eqb s s = true.
Proof. now apply eqb_eq. Qed.

Lemma eqb_neq (s t : jsstring) : eqb s t = false <-> s <> t.
Proof.
  rewrite <- eqb_eq. destruct (eqb s t); split; congruence.
Qed.

Lemma Map_get_In (m : Map T) (key : jsstring) (e : CacheEntry T) :
  Map_get m key = Some e -> In (key, e) m.
Proof.
  induction m as [|[k e0] m IH]; simpl; [discriminate|].
  destruct (eqb k key) eqn:E.
  - apply eqb_eq in E. intros [= ->]. left. now subst.
  - intros H. right. now apply IH.
Qed.

Lemma Map_get_None (m : Map T) (key : jsstring) :
  Map_get m key = None <-> ~ In key (map fst m).
Proof.
  induction m as [|[k e0] m IH]; simpl; [tauto|].
  destruct (eqb k key) eqn:E.
  - apply eqb_eq in E. split; [discriminate|tauto].
  - apply eqb_neq in E. rewrite IH. tauto.
Qed.

(** Without duplicate keys, an entry listed under a key is the one
    [Map_get] finds. *)
Lemma In_Map_get (m : Map T) (key : jsstring) (e : CacheEntry T) :
  NoDup (map fst m) -> In (key, e) m -> Map_get m key = Some e.
Proof.
  induction m as [|[k e0] m IH]; simpl; [tauto|].
  intros Hnd [H|H].
  - inversion H; subst. now rewrite eqb_refl.
  - inversion Hnd as [|? ? Hk Hm]; subst.
    destruct (eqb k key) eqn:E; [|now apply IH].
    apply eqb_eq in E. subst. exfalso. apply Hk.
    now apply (in_map fst) in H.
Qed.

Lemma Map_get_set_same (m : Map T) (key : jsstring) (e : CacheEntry T) :
  Map_get (Map_set m key e) key = Some e.
Proof.
  induction m as [|[k e0] m IH]; simpl.
  - now rewrite eqb_refl.
  - destruct (eqb k key) eqn:E; simpl; now rewrite E.
Qed.

Lemma Map_get_set_other (m : Map T) (key k' : jsstring) (e : CacheEntry T) :
  key <> k' -> Map_get (Map_set m key e) k' = Map_get m k'.
Proof.
  intros Hne. induction m as [|[k e0] m IH]; simpl.
  - apply eqb_neq in Hne. now rewrite Hne.
  - destruct (eqb k key) eqn:E; simpl.
    + apply eqb_eq in E. subst k. apply eqb_neq in Hne. now rewrite Hne.
    + now rewrite IH.
Qed.

Lemma Map_get_delete_other (m : Map T) (key k' : jsstring) :
  key <> k' -> Map_get (Map_delete m key) k' = Map_get m k'.
Proof.
  intros Hne. induction m as [|[k e0] m IH]; simpl; [reflexivity|].
  destruct (eqb k key) eqn:E; simpl.
  - apply eqb_eq in E. subst k. apply eqb_neq in Hne. now rewrite Hne.
  - now rewrite IH.
Qed.

Lemma Map_delete_keys_incl (m : Map T) (key k' : jsstring) :
  In k' (map fst (Map_delete m key)) -> In k' (map fst m).
Proof.
  induction m as [|[k e0] m IH]; simpl; [tauto|].
  destruct (eqb k key); simpl; tauto.
Qed.

Lemma Map_get_delete_same (m : Map T) (key : jsstring) :
  NoDup (map fst m) -> Map_get (Map_delete m key) key = None.
Proof.
  induction m as [|[k e0] m IH]; simpl; [reflexivity|].
  intros Hnd. inversion Hnd as [|? ? Hk Hm]; subst.
  destruct (eqb k key) eqn:E; simpl.
  - apply eqb_eq in E. subst. now apply Map_get_None.
  - rewrite E. now apply IH.
Qed.

Lemma Map_set_keys (m : Map T) (key : jsstring) (e : CacheEntry T) :
  map fst (Map_set m key e) =
  if Map_has m key then map fst m else map fst m ++ [key].
Proof.
  unfold Map_has. induction m as [|[k e0] m IH]; simpl; [reflexivity|].
  destruct (eqb k key) eqn:E; simpl; [reflexivity|].
  rewrite IH. now destruct (Map_get m key).
Qed.

Lemma Map_has_true (m : Map T) (key : jsstring) :
  Map_has m key = true <-> In key (map fst m).
Proof.
  unfold Map_has. pose proof (Map_get_None m key) as H.
  destruct (Map_get m key).
  - split; [intros _|reflexivity].
    destruct (in_dec (list_eq_dec N.eq_dec) key (map fst m)); [assumption|].
    assert (Some c = None) by now apply H. discriminate.
  - split; [discriminate|]. intros Hin. exfalso. now apply H.
Qed.

Lemma Map_set_NoDup (m : Map T) (key : jsstring) (e : CacheEntry T) :
  NoDup (map fst m) -> NoDup (map fst (Map_set m key e)).
Proof.
  intros Hnd. rewrite Map_set_keys.
  destruct (Map_has m key) eqn:E; [assumption|].
  apply NoDup_app; [assumption|repeat constructor; simpl; tauto|].
  intros k Hk [<-|[]].
  apply Map_has_true in Hk. congruence.
Qed.

Lemma Map_delete_NoDup (m : Map T) (key : jsstring) :
  NoDup (map fst m) -> NoDup (map fst (Map_delete m key)).
Proof.
  induction m as [|[k e0] m IH]; simpl; [trivial|].
  intros Hnd. inversion Hnd as [|? ? Hk Hm]; subst.
  destruct (eqb k key); [assumption|].
  simpl. constructor; [|now apply IH].
  intros Hin. apply Hk. eapply Map_delete_keys_incl, Hin.
Qed.

Lemma Map_delete_length (m : Map T) (key : jsstring) :
  Map_size (Map_delete m key) =
  if Map_has m key then Map_size m - 1 else Map_size m.
Proof.
  unfold Map_size, Map_has. induction m as [|[k e0] m IH]; [reflexivity|].
  cbn [Map_delete Map_get]. destruct (eqb k key); cbn [length].
  - lia.
  - destruct (Map_get m key); lia.
Qed.

(** A key that is absent is added at the end. *)
Lemma Map_set_absent (m : Map T) (key : jsstring) (e : CacheEntry T) :
  Map_get m key = None -> Map_set m key e = m ++ [(key, e)].
Proof.
  induction m as [|[k e0] m IH]; simpl; [reflexivity|].
  destruct (eqb k key); [discriminate|]. intros H. now rewrite IH.
Qed.

Lemma Map_get_delete_absent (m : Map T) (key k' : jsstring) :
  Map_get m k' = None -> Map_get (Map_delete m key) k' = None.
Proof.
  rewrite !Map_get_None. intros H Hin. apply H.
  eapply Map_delete_keys_incl, Hin.
Qed.

Lemma Map_set_length (m : Map T) (key : jsstring) (e : CacheEntry T) :
  Map_size (Map_set m key e) =
  if Map_has m key then Map_size m else Map_size m + 1.
Proof.
  unfold Map_size. rewrite <- !(length_map fst), Map_set_keys.
  destruct (Map_has m key); [reflexivity|].
  rewrite length_app. simpl. lia.
Qed.

End MapFacts.

(** ** The cache *)

Section CacheFacts.
Import JS QueryCache.
Local Open Scope Z_scope.

Variable T : Type.

Lemma fewest_then_earliest_refl (e : CacheEntry T) : fewest_then_earliest e e.
Proof. unfold fewest_then_earliest. lia. Qed.

Lemma fewest_then_earliest_trans (a b c : CacheEntry T) :
  fewest_then_earliest a b -> fewest_then_earliest b c ->
  fewest_then_earliest a c.
Proof. unfold fewest_then_earliest. lia. Qed.

(** One turn of the scan keeps the candidate or takes the entry at hand,
    whichever comes first in the order. *)
Lemma evictLRU_step_least (a kv : jsstring * CacheEntry T) :
  exists r,
    evictLRU_step (Some a) kv = Some r
    /\ (r = a \/ r = kv)
    /\ fewest_then_earliest (snd r) (snd a)
    /\ fewest_then_earliest (snd r) (snd kv).
Proof.
  unfold evictLRU_step, fewest_then_earliest. destruct a as [k0 e0].
  destruct ((hits (snd kv) <? hits e0)
            || ((hits (snd kv) =? hits e0)
                && (timestamp (snd kv) <? timestamp e0))) eqn:E.
  - exists kv. rewrite orb_true_iff, andb_true_iff in E.
    rewrite !Z.ltb_lt, Z.eqb_eq in E. cbn [snd]. intuition lia.
  - exists (k0, e0). rewrite orb_false_iff, andb_false_iff in E.
    rewrite !Z.ltb_ge, Z.eqb_neq in E. cbn [snd]. intuition lia.
Qed.

Lemma evictLRU_fold_least (m : Map T) (a : jsstring * CacheEntry T) :
  exists r,
    fold_left (@evictLRU_step T) m (Some a) = Some r
    /\ (r = a \/ In r m)
    /\ fewest_then_earliest (snd r) (snd a)
    /\ forall x, In x m -> fewest_then_earliest (snd r) (snd x).
Proof.
  revert a. induction m as [|kv m IH]; intros a.
  - exists a. simpl.
    split; [reflexivity|split; [now left|split]].
    + apply fewest_then_earliest_refl.
    + intros x [].
  - destruct (evictLRU_step_least a kv) as [b [Hb [Hsel [Hba Hbkv]]]].
    destruct (IH b) as [r [Hr [Hin [Hrb Hrm]]]].
    exists r. cbn [fold_left]. rewrite Hb. split; [exact Hr|].
    split; [|split].
    + destruct Hin as [->|Hin]; [|right; now right].
      destruct Hsel as [->| ->]; [now left|right; now left].
    + eauto using fewest_then_earliest_trans.
    + intros x [<-|Hx]; [|now apply Hrm].
      eauto using fewest_then_earliest_trans.
Qed.

(** The scan of [evictLRU] returns an entry of the map that comes first in
    the order; it returns nothing on the empty map only. *)
Lemma evictLRU_scan_least (m : Map T) (lruKey : jsstring) (lruEntry : CacheEntry T) :
  evictLRU_scan m = Some (lruKey, lruEntry) ->
  In (lruKey, lruEntry) m
  /\ forall k e, In (k, e) m -> fewest_then_earliest lruEntry e.
Proof.
  unfold evictLRU_scan. destruct m as [|a m]; [discriminate|].
  cbn [fold_left evictLRU_step].
  destruct (evictLRU_fold_least m a) as [r [Hr [Hin [Hra Hrm]]]].
  rewrite Hr. intros [= ->]. split.
  - destruct Hin as [->|Hin]; [now left|now right].
  - intros k e [Ha|Hx]; [subst a; exact Hra|exact (Hrm (k, e) Hx)].
Qed.

Lemma evictLRU_scan_Some (m : Map T) :
  m <> [] -> exists kv, evictLRU_scan m = Some kv.
Proof.
  destruct m as [|a m]; [congruence|]. intros _.
  unfold evictLRU_scan. cbn [fold_left evictLRU_step].
  destruct (evictLRU_fold_least m a) as [r [Hr _]]. now exists r.
Qed.

(** [set] in closed form: the map the new entry is written to. *)
Lemma set_cache (c : Cache T) (key : jsstring) (data0 : Value T) (now : Z) :
  cache (set c key data0 now) =
  Map_set
    (cache (if (Map_size (cache c) >=? maxSize (options c))
               && negb (Map_has (cache c) key)
            then evictLRU c else c))
    key {| data := data0; timestamp := now; hits := 0 |}.
Proof. reflexivity. Qed.

Lemma evictLRU_options (c : Cache T) : options (evictLRU c) = options c.
Proof.
  unfold evictLRU. destruct (evictLRU_scan (cache c)) as [[k e]|]; [|reflexivity].
  destruct (truthy k); reflexivity.
Qed.

(** *** What the calls other than [set] do to the store *)

Lemma shrinks_refl (c : Cache T) : shrinks c c.
Proof. unfold shrinks. split; [reflexivity|split; [lia|apply incl_refl]]. Qed.

Lemma shrinks_trans (a b c : Cache T) : shrinks a b -> shrinks b c -> shrinks a c.
Proof.
  unfold shrinks. intros [Ho [Hs Hk]] [Ho' [Hs' Hk']].
  split; [congruence|split; [lia|eapply incl_tran; eassumption]].
Qed.

Lemma delete_shrinks (c : Cache T) (key : jsstring) : shrinks c (snd (delete c key)).
Proof.
  unfold shrinks, size, keys. cbn [delete snd options cache].
  split; [reflexivity|split].
  - rewrite Map_delete_length. destruct (Map_has (cache c) key); lia.
  - intros k. apply Map_delete_keys_incl.
Qed.

Lemma get_shrinks (c : Cache T) (key : jsstring) (now : Z) :
  shrinks c (snd (get c key now)).
Proof.
  unfold get. destruct (Map_get (cache c) key) as [entry|] eqn:E;
    [|apply shrinks_refl].
  destruct (isExpired c now entry); [apply delete_shrinks|].
  assert (Hhas : Map_has (cache c) key = true) by (unfold Map_has; now rewrite E).
  unfold shrinks, size, keys. cbn [snd with_cache options cache].
  rewrite Map_set_length, Map_set_keys, Hhas.
  split; [reflexivity|split; [lia|apply incl_refl]].
Qed.

Lemma has_shrinks (c : Cache T) (key : jsstring) (now : Z) :
  shrinks c (snd (has c key now)).
Proof.
  unfold has. destruct (Map_get (cache c) key) as [entry|];
    [|apply shrinks_refl].
  destruct (isExpired c now entry); [apply delete_shrinks|apply shrinks_refl].
Qed.

Lemma clear_shrinks (c : Cache T) : shrinks c (clear c).
Proof.
  unfold shrinks, size, keys, Map_size. cbn [clear options cache length map].
  split; [reflexivity|split; [lia|intros k []]].
Qed.

(** A loop that deletes some keys, as in [invalidatePattern] and [prune]. *)
Lemma deleting_loop_shrinks (A : Type) (key_of : A -> jsstring)
  (test : A -> bool) (xs : list A) (c : Cache T) (acc : Z * Cache T) :
  shrinks c (snd acc) ->
  shrinks c
    (snd (fold_left
            (fun (acc : Z * Cache T) x =>
               if test x then (fst acc + 1, snd (delete (snd acc) (key_of x)))
               else acc)
            xs acc)).
Proof.
  revert acc. induction xs as [|x xs IH]; intros acc Hacc; [exact Hacc|].
  cbn [fold_left]. apply IH. destruct (test x); [|exact Hacc].
  cbn [snd]. eapply shrinks_trans; [exact Hacc|apply delete_shrinks].
Qed.

Lemma invalidatePattern_shrinks (c : Cache T) (pattern : jsstring -> bool) :
  shrinks c (snd (invalidatePattern c pattern)).
Proof.
  unfold invalidatePattern.
  apply (deleting_loop_shrinks jsstring (fun key => key) pattern).
  apply shrinks_refl.
Qed.

Lemma prune_shrinks (c : Cache T) (now : Z) : shrinks c (snd (prune c now)).
Proof.
  unfold prune.
  apply (deleting_loop_shrinks (jsstring * CacheEntry T) fst
           (fun kv => isExpired c now (snd kv))).
  apply shrinks_refl.
Qed.

Lemma shrinks_within_capacity (c c' : Cache T) :
  shrinks c c' -> within_capacity c -> within_capacity c'.
Proof.
  unfold shrinks, within_capacity. intros [Ho [Hs Hk]] [Hsize Hkeys].
  rewrite Ho. split; [lia|].
  rewrite Forall_forall in *. intros k Hin. apply Hkeys, Hk, Hin.
Qed.

(** *** [set] keeps the store within capacity when no key is empty *)

Lemma evictLRU_makes_room (c : Cache T) :
  1 <= maxSize (options c) ->
  size c >= maxSize (options c) ->
  within_capacity c ->
  size (evictLRU c) = size c - 1 /\ shrinks c (evictLRU c).
Proof.
  intros Hmax Hfull [_ Hkeys]. unfold evictLRU.
  assert (Hne : cache c <> []).
  { unfold size, Map_size in Hfull. destruct (cache c); [simpl in Hfull; lia|congruence]. }
  destruct (evictLRU_scan_Some (cache c) Hne) as [[lruKey lruEntry] Hscan].
  rewrite Hscan. apply evictLRU_scan_least in Hscan. destruct Hscan as [Hin _].
  assert (Hk : In lruKey (keys c)) by (apply (in_map fst) in Hin; exact Hin).
  rewrite Forall_forall in Hkeys. rewrite (Hkeys lruKey Hk).
  split; [|apply delete_shrinks].
  unfold size. cbn [delete snd cache]. rewrite Map_delete_length.
  apply Map_has_true in Hk. now rewrite Hk.
Qed.

Lemma set_within_capacity (c : Cache T) (key : jsstring) (data0 : Value T) (now : Z) :
  1 <= maxSize (options c) ->
  truthy key = true ->
  within_capacity c ->
  options (set c key data0 now) = options c
  /\ within_capacity (set c key data0 now).
Proof.
  intros Hmax Hkey Hc. unfold within_capacity, size, keys.
  rewrite set_cache. unfold set. cbn [with_cache options].
  destruct ((Map_size (cache c) >=? maxSize (options c))
            && negb (Map_has (cache c) key)) eqn:Hfull.
  - apply andb_true_iff in Hfull. destruct Hfull as [Hsize Hnew].
    apply negb_true_iff in Hnew. apply Z.geb_le in Hsize.
    destruct (evictLRU_makes_room c Hmax) as [Hroom Hshrink];
      [unfold size; lia|exact Hc|].
    rewrite evictLRU_options. split; [reflexivity|].
    pose proof (shrinks_within_capacity _ _ Hshrink Hc) as [_ Hkeys'].
    destruct Hc as [Hle _]. unfold size in *.
    rewrite Map_set_length, Map_set_keys.
    destruct (Map_has (cache (evictLRU c)) key).
    + split; [lia|exact Hkeys'].
    + split; [lia|]. apply Forall_app. split; [exact Hkeys'|].
      now repeat constructor.
  - split; [reflexivity|]. destruct Hc as [Hle Hkeys].
    unfold size in *. rewrite Map_set_length, Map_set_keys.
    apply andb_false_iff in Hfull.
    destruct (Map_has (cache c) key) eqn:Hhas.
    + split; [lia|exact Hkeys].
    + destruct Hfull as [Hsize|Hneg]; [|discriminate].
      destruct (Z.geb_spec (Map_size (cache c)) (maxSize (options c)));
        [discriminate|].
      split; [lia|]. apply Forall_app. split; [exact Hkeys|].
      now repeat constructor.
Qed.

(** Every call keeps the options, and keeps the store within capacity as
    long as nothing is stored under the empty key. *)
Lemma call_within_capacity (c : Cache T) (op : Call T) :
  1 <= maxSize (options c) ->
  stores_under_nonempty_key op ->
  within_capacity c ->
  options (call c op) = options c /\ within_capacity (call c op).
Proof.
  intros Hmax Hop Hc.
  assert (Hshrink : forall c', shrinks c c' ->
            options c' = options c /\ within_capacity c').
  { intros c' Hs. split; [apply Hs|exact (shrinks_within_capacity _ _ Hs Hc)]. }
  destruct op as [key now|key data0 now|key now|key| |pattern|now
                 |key produced now_get now_set]; cbn [call].
  - apply Hshrink, get_shrinks.
  - now apply set_within_capacity.
  - apply Hshrink, has_shrinks.
  - apply Hshrink, delete_shrinks.
  - apply Hshrink, clear_shrinks.
  - apply Hshrink, invalidatePattern_shrinks.
  - apply Hshrink, prune_shrinks.
  - unfold getOrSet.
    destruct (Hshrink _ (get_shrinks c key now_get)) as [Ho Hw].
    destruct (get c key now_get) as [cached c1]. cbn [snd] in Ho, Hw.
    destruct cached as [|v]; [|now split].
    destruct produced as [data0|]; cbn [fst snd]; [|now split].
    destruct (set_within_capacity c1 key data0 now_set) as [Ho' Hw'];
      [now rewrite Ho|exact Hop|exact Hw|].
    split; [congruence|exact Hw'].
Qed.

Lemma calls_within_capacity (ops : list (Call T)) (c : Cache T) :
  1 <= maxSize (options c) ->
  Forall (@stores_under_nonempty_key T) ops ->
  within_capacity c ->
  size (calls c ops) <= maxSize (options c).
Proof.
  revert c. induction ops as [|op ops IH]; intros c Hmax Hops Hc.
  - apply Hc.
  - inversion Hops as [|? ? Hop Hrest]; subst. unfold calls. cbn [fold_left].
    destruct (call_within_capacity c op Hmax Hop Hc) as [Ho Hw].
    rewrite <- Ho. apply IH; [now rewrite Ho|exact Hrest|exact Hw].
Qed.

(** *** Keys stay distinct

    The stores the calls build from an empty one never list a key twice:
    the hypothesis [NoDup (keys c)] of the statements below holds of every
    store a program can reach. *)

Lemma delete_NoDup (c : Cache T) (key : jsstring) :
  NoDup (keys c) -> NoDup (keys (snd (delete c key))).
Proof. unfold keys. cbn [delete snd cache]. apply Map_delete_NoDup. Qed.

Lemma evictLRU_NoDup (c : Cache T) : NoDup (keys c) -> NoDup (keys (evictLRU c)).
Proof.
  intros Hnd. unfold evictLRU.
  destruct (evictLRU_scan (cache c)) as [[k e]|]; [|exact Hnd].
  destruct (truthy k); [now apply delete_NoDup|exact Hnd].
Qed.

Lemma set_NoDup (c : Cache T) (key : jsstring) (data0 : Value T) (now : Z) :
  NoDup (keys c) -> NoDup (keys (set c key data0 now)).
Proof.
  intros Hnd. unfold keys. rewrite set_cache. apply Map_set_NoDup.
  destruct ((Map_size (cache c) >=? maxSize (options c))
            && negb (Map_has (cache c) key)); [|exact Hnd].
  now apply evictLRU_NoDup.
Qed.

Lemma get_NoDup (c : Cache T) (key : jsstring) (now : Z) :
  NoDup (keys c) -> NoDup (keys (snd (get c key now))).
Proof.
  intros Hnd. unfold get. destruct (Map_get (cache c) key) as [entry|];
    [|exact Hnd].
  destruct (isExpired c now entry); [now apply delete_NoDup|].
  unfold keys. cbn [snd with_cache cache]. now apply Map_set_NoDup.
Qed.

Lemma has_NoDup (c : Cache T) (key : jsstring) (now : Z) :
  NoDup (keys c) -> NoDup (keys (snd (has c key now))).
Proof.
  intros Hnd. unfold has. destruct (Map_get (cache c) key) as [entry|];
    [|exact Hnd].
  destruct (isExpired c now entry); [now apply delete_NoDup|exact Hnd].
Qed.

Lemma deleting_loop_NoDup (A : Type) (key_of : A -> jsstring)
  (test : A -> bool) (xs : list A) (acc : Z * Cache T) :
  NoDup (keys (snd acc)) ->
  NoDup
    (keys
       (snd (fold_left
               (fun (acc : Z * Cache T) x =>
                  if test x then (fst acc + 1, snd (delete (snd acc) (key_of x)))
                  else acc)
               xs acc))).
Proof.
  revert acc. induction xs as [|x xs IH]; intros acc Hacc; [exact Hacc|].
  cbn [fold_left]. apply IH. destruct (test x); [|exact Hacc].
  cbn [snd]. now apply delete_NoDup.
Qed.

Lemma call_NoDup (c : Cache T) (op : Call T) :
  NoDup (keys c) -> NoDup (keys (call c op)).
Proof.
  intros Hnd.
  destruct op as [key now|key data0 now|key now|key| |pattern|now
                 |key produced now_get now_set]; cbn [call].
  - now apply get_NoDup.
  - now apply set_NoDup.
  - now apply has_NoDup.
  - now apply delete_NoDup.
  - constructor.
  - unfold invalidatePattern.
    now apply (deleting_loop_NoDup jsstring (fun key => key) pattern).
  - unfold prune.
    now apply (deleting_loop_NoDup (jsstring * CacheEntry T) fst
                 (fun kv => isExpired c now (snd kv))).
  - unfold getOrSet. pose proof (get_NoDup c key now_get Hnd) as Hget.
    destruct (get c key now_get) as [cached c1]. cbn [snd] in Hget.
    destruct cached as [|v]; [|exact Hget].
    destruct produced as [data0|]; cbn [fst snd]; [|exact Hget].
    now apply set_NoDup.
Qed.

Lemma calls_NoDup (ops : list (Call T)) (c : Cache T) :
  NoDup (keys c) -> NoDup (keys (calls c ops)).
Proof.
  revert c. induction ops as [|op ops IH]; intros c Hnd; [exact Hnd|].
  unfold calls. cbn [fold_left]. apply IH. now apply call_NoDup.
Qed.

Lemma new_calls_NoDup (maxSize0 ttlMs0 : option Z) (onEvict0 : bool)
  (ops : list (Call T)) :
  NoDup (keys (calls (new T maxSize0 ttlMs0 onEvict0) ops)).
Proof. apply calls_NoDup. constructor. Qed.

End CacheFacts.

(** Which entry a call of [set] may remove: an entry present before the
    call and absent after it was removed in a call for a key not yet
    present, made with the store at capacity, and is first among all entries
    by hits, and by insertion time among those with as few hits. Whether an
    entry is removed at all is the matter of the two statements after this
    one. *)
Lemma set_evicts_fewest_hits_then_earliest :
  forall (T : Type) (c : QueryCache.Cache T) (key : JS.jsstring)
    (data0 : QueryCache.Value T) (now : Z)
    (k : JS.jsstring) (e : QueryCache.CacheEntry T),
    NoDup (QueryCache.keys c) ->
    QueryCache.Map_get (QueryCache.cache c) k = Some e ->
    QueryCache.Map_get (QueryCache.cache (QueryCache.set c key data0 now)) k = None ->
    (QueryCache.Map_has (QueryCache.cache c) key = false
     /\ (QueryCache.size c >= QueryCache.maxSize (QueryCache.options c))%Z)
    /\ (forall (k' : JS.jsstring) (e' : QueryCache.CacheEntry T),
           QueryCache.Map_get (QueryCache.cache c) k' = Some e' ->
           (QueryCache.hits e <= QueryCache.hits e')%Z
           /\ (QueryCache.hits e = QueryCache.hits e' ->
               (QueryCache.timestamp e <= QueryCache.timestamp e')%Z)).
Proof.
  intros T c key data0 now k e Hnd Hk Hgone.
  rewrite set_cache in Hgone.
  assert (Hkey : key <> k).
  { intros ->. now rewrite Map_get_set_same in Hgone. }
  rewrite (Map_get_set_other _ _ _ _ _ Hkey) in Hgone.
  destruct ((QueryCache.Map_size (QueryCache.cache c)
             >=? QueryCache.maxSize (QueryCache.options c))%Z
            && negb (QueryCache.Map_has (QueryCache.cache c) key)) eqn:Hfull;
    [|congruence].
  apply andb_true_iff in Hfull. destruct Hfull as [Hsize Hnew].
  apply negb_true_iff in Hnew. apply Z.geb_le in Hsize.
  split; [split; [exact Hnew|unfold QueryCache.size; lia]|].
  unfold QueryCache.evictLRU in Hgone.
  destruct (QueryCache.evictLRU_scan (QueryCache.cache c))
    as [[lruKey lruEntry]|] eqn:Hscan; [|congruence].
  destruct (JS.truthy lruKey); [|congruence].
  cbn [QueryCache.delete snd QueryCache.cache] in Hgone.
  apply evictLRU_scan_least in Hscan. destruct Hscan as [Hin Hleast].
  assert (lruKey = k) as ->.
  { destruct (list_eq_dec N.eq_dec lruKey k) as [Heq|Hne]; [exact Heq|].
    rewrite (Map_get_delete_other _ _ _ _ Hne) in Hgone. congruence. }
  assert (lruEntry = e) as ->.
  { apply (In_Map_get _ _ _ _ Hnd) in Hin. congruence. }
  intros k' e' Hk'. apply (Hleast k' e'). now apply Map_get_In.
Qed.

Lemma set_evicts_fewest_hits_then_earliest_witness :
  QueryCache.keys
    (QueryCache.set CacheScenario.a_read (JS.lit "c") (CacheScenario.v "3") 40)
  = [JS.lit "a"; JS.lit "c"]
  /\ (QueryCache.Map_has (QueryCache.cache CacheScenario.a_read) (JS.lit "c") = false
      /\ (QueryCache.size CacheScenario.a_read
          >= QueryCache.maxSize (QueryCache.options CacheScenario.a_read))%Z)
  /\ (forall (k' : JS.jsstring) (e' : QueryCache.CacheEntry JS.jsstring),
         QueryCache.Map_get (QueryCache.cache CacheScenario.a_read) k' = Some e' ->
         (QueryCache.hits CacheScenario.entry_b <= QueryCache.hits e')%Z
         /\ (QueryCache.hits CacheScenario.entry_b = QueryCache.hits e' ->
             (QueryCache.timestamp CacheScenario.entry_b
              <= QueryCache.timestamp e')%Z)).
Proof.
  split; [reflexivity|].
  apply (set_evicts_fewest_hits_then_earliest JS.jsstring CacheScenario.a_read
           (JS.lit "c") (CacheScenario.v "3") 40 (JS.lit "b")
           CacheScenario.entry_b).
  - vm_compute. repeat constructor; simpl; intuition discriminate.
  - reflexivity.
  - reflexivity.
Defined.

(** What [set] does for a new key in a full store, when the key the scan
    selects is not the empty string: the selected entry, first by hits and
    then by timestamp, is deleted, and nothing else; the new entry is added
    at the end. *)
Lemma set_evicts_the_selected_entry :
  forall (T : Type) (c : QueryCache.Cache T) (key : JS.jsstring)
    (data0 : QueryCache.Value T) (now : Z)
    (lruKey : JS.jsstring) (lruEntry : QueryCache.CacheEntry T),
    QueryCache.Map_has (QueryCache.cache c) key = false ->
    (QueryCache.size c >= QueryCache.maxSize (QueryCache.options c))%Z ->
    QueryCache.evictLRU_scan (QueryCache.cache c) = Some (lruKey, lruEntry) ->
    JS.truthy lruKey = true ->
    QueryCache.cache (QueryCache.set c key data0 now)
    = QueryCache.Map_delete (QueryCache.cache c) lruKey
      ++ [(key, {| QueryCache.data := data0; QueryCache.timestamp := now;
                   QueryCache.hits := 0%Z |})]
    /\ In (lruKey, lruEntry) (QueryCache.cache c)
    /\ forall (k' : JS.jsstring) (e' : QueryCache.CacheEntry T),
         In (k', e') (QueryCache.cache c) ->
         QueryCache.fewest_then_earliest lruEntry e'.
Proof.
  intros T c key data0 now lruKey lruEntry Hnew Hfull Hscan Htruthy.
  assert (Hcond : ((QueryCache.Map_size (QueryCache.cache c)
                    >=? QueryCache.maxSize (QueryCache.options c))%Z
                   && negb (QueryCache.Map_has (QueryCache.cache c) key)) = true).
  { rewrite Hnew. cbn [negb]. rewrite andb_true_r. apply Z.geb_le.
    unfold QueryCache.size in Hfull. lia. }
  split.
  - rewrite set_cache, Hcond. unfold QueryCache.evictLRU.
    rewrite Hscan, Htruthy. cbn [QueryCache.delete snd QueryCache.cache].
    apply Map_set_absent, Map_get_delete_absent.
    unfold QueryCache.Map_has in Hnew.
    now destruct (QueryCache.Map_get (QueryCache.cache c) key).
  - apply evictLRU_scan_least in Hscan. exact Hscan.
Qed.

(** C2. In the full store [empty_b] (capacity two, holding [''] and [b])
    the key [c] is new and the scan of [evictLRU] selects the entry of [''],
    first by hits and then by timestamp; yet [set] for [c] evicts no
    entry: the three keys are there afterwards. *)
Theorem least_entry_under_empty_key_is_not_evicted :
  QueryCache.Map_has (QueryCache.cache CacheScenario.empty_b) (JS.lit "c") = false
  /\ QueryCache.size CacheScenario.empty_b
     = QueryCache.maxSize (QueryCache.options CacheScenario.empty_b)
  /\ QueryCache.evictLRU_scan (QueryCache.cache CacheScenario.empty_b)
     = Some ([], CacheScenario.entry_empty)
  /\ QueryCache.cache
       (QueryCache.set CacheScenario.empty_b (JS.lit "c") (CacheScenario.v "3") 30)
     = QueryCache.cache CacheScenario.empty_b
       ++ [(JS.lit "c",
            {| QueryCache.data := CacheScenario.v "3";
               QueryCache.timestamp := 30; QueryCache.hits := 0 |})].
Proof. repeat split. Qed.

(** C6. [get] on a key whose entry is older than the time-to-live returns
    [undefined] and removes the entry, so that [has] is false afterwards; on
    a key whose entry is not older, it returns the stored value and leaves
    the entry with one more hit. *)
Theorem get_expires_or_counts_a_hit :
  forall (T : Type) (c : QueryCache.Cache T) (key : JS.jsstring)
    (entry : QueryCache.CacheEntry T) (now : Z),
    NoDup (QueryCache.keys c) ->
    QueryCache.Map_get (QueryCache.cache c) key = Some entry ->
    ((now - QueryCache.timestamp entry > QueryCache.ttlMs (QueryCache.options c))%Z ->
     fst (QueryCache.get c key now) = QueryCache.Undefined
     /\ QueryCache.Map_get (QueryCache.cache (snd (QueryCache.get c key now))) key
        = None
     /\ forall later : Z,
          fst (QueryCache.has (snd (QueryCache.get c key now)) key later) = false)
    /\ ((now - QueryCache.timestamp entry <= QueryCache.ttlMs (QueryCache.options c))%Z ->
        fst (QueryCache.get c key now) = QueryCache.data entry
        /\ QueryCache.Map_get (QueryCache.cache (snd (QueryCache.get c key now))) key
           = Some {| QueryCache.data := QueryCache.data entry;
                     QueryCache.timestamp := QueryCache.timestamp entry;
                     QueryCache.hits := (QueryCache.hits entry + 1)%Z |}).
Proof.
  intros T c key entry now Hnd Hentry. unfold QueryCache.get.
  rewrite Hentry. unfold QueryCache.isExpired. split; intros Hage.
  - assert (Hexp : (now - QueryCache.timestamp entry
                    >? QueryCache.ttlMs (QueryCache.options c))%Z = true)
      by (apply Z.gtb_lt; lia).
    rewrite Hexp. cbn [fst snd QueryCache.delete QueryCache.cache].
    assert (Hgone : QueryCache.Map_get
                      (QueryCache.Map_delete (QueryCache.cache c) key) key = None)
      by (apply Map_get_delete_same; exact Hnd).
    split; [reflexivity|split; [exact Hgone|]].
    intros later. unfold QueryCache.has. cbn [QueryCache.cache].
    now rewrite Hgone.
  - assert (Hexp : (now - QueryCache.timestamp entry
                    >? QueryCache.ttlMs (QueryCache.options c))%Z = false).
    { destruct (Z.gtb_spec (now - QueryCache.timestamp entry)
                  (QueryCache.ttlMs (QueryCache.options c))); [lia|reflexivity]. }
    rewrite Hexp. cbn [fst snd QueryCache.with_cache QueryCache.cache].
    split; [reflexivity|]. apply Map_get_set_same.
Qed.

Lemma get_expires_or_counts_a_hit_witness :
  (fst (QueryCache.get CacheScenario.a_b (JS.lit "b") 300021) = QueryCache.Undefined
   /\ QueryCache.Map_get
        (QueryCache.cache (snd (QueryCache.get CacheScenario.a_b (JS.lit "b") 300021)))
        (JS.lit "b") = None
   /\ forall later : Z,
        fst (QueryCache.has
               (snd (QueryCache.get CacheScenario.a_b (JS.lit "b") 300021))
               (JS.lit "b") later) = false)
  /\ (fst (QueryCache.get CacheScenario.a_b (JS.lit "b") 300020) = CacheScenario.v "2"
      /\ QueryCache.Map_get
           (QueryCache.cache (snd (QueryCache.get CacheScenario.a_b (JS.lit "b") 300020)))
           (JS.lit "b")
         = Some {| QueryCache.data := CacheScenario.v "2";
                   QueryCache.timestamp := 20;
                   QueryCache.hits := 1 |}).
Proof.
  assert (Hnd : NoDup (QueryCache.keys CacheScenario.a_b)).
  { vm_compute. repeat constructor; simpl; intuition discriminate. }
  split.
  - apply (proj1 (get_expires_or_counts_a_hit JS.jsstring CacheScenario.a_b
                    (JS.lit "b") CacheScenario.entry_b 300021 Hnd eq_refl)).
    vm_compute. reflexivity.
  - apply (proj2 (get_expires_or_counts_a_hit JS.jsstring CacheScenario.a_b
                    (JS.lit "b") CacheScenario.entry_b 300020 Hnd eq_refl)).
    vm_compute. discriminate.
Defined.

(** C10. When the entry under a key holds [undefined] and has not
    expired, [get] returns [undefined], as it does for a key that is absent;
    [getOrSet] then calls the factory and stores what it produces under the
    key, with a fresh timestamp and no hits. For an absent key [getOrSet]
    answers the same way. *)
Theorem getOrSet_recomputes_stored_undefined :
  forall (T World : Type) (c : QueryCache.Cache T) (key : JS.jsstring)
    (entry : QueryCache.CacheEntry T)
    (factory : World -> JS.Completion (QueryCache.Value T) * World)
    (now_get now_set : Z) (w w' : World) (produced : QueryCache.Value T),
    QueryCache.Map_get (QueryCache.cache c) key = Some entry ->
    QueryCache.data entry = QueryCache.Undefined ->
    (now_get - QueryCache.timestamp entry <= QueryCache.ttlMs (QueryCache.options c))%Z ->
    factory w = (JS.Normal produced, w') ->
    fst (QueryCache.get c key now_get) = QueryCache.Undefined
    /\ QueryCache.getOrSet c key factory now_get now_set w
       = (JS.Normal produced,
          QueryCache.set (snd (QueryCache.get c key now_get)) key produced now_set,
          w')
    /\ QueryCache.Map_get
         (QueryCache.cache
            (QueryCache.set (snd (QueryCache.get c key now_get)) key produced now_set))
         key
       = Some {| QueryCache.data := produced;
                 QueryCache.timestamp := now_set;
                 QueryCache.hits := 0 |}
    /\ forall absent : QueryCache.Cache T,
         QueryCache.Map_get (QueryCache.cache absent) key = None ->
         fst (QueryCache.get absent key now_get) = QueryCache.Undefined
         /\ QueryCache.getOrSet absent key factory now_get now_set w
            = (JS.Normal produced,
               QueryCache.set absent key produced now_set,
               w').
Proof.
  intros T World c key entry factory now_get now_set w w' produced
    Hentry Hdata Hage Hfactory.
  assert (Hget : QueryCache.get c key now_get =
                 (QueryCache.Undefined,
                  QueryCache.with_cache c
                    (QueryCache.Map_set (QueryCache.cache c) key
                       (QueryCache.hit entry)))).
  { unfold QueryCache.get, QueryCache.isExpired. rewrite Hentry.
    destruct (Z.gtb_spec (now_get - QueryCache.timestamp entry)
                (QueryCache.ttlMs (QueryCache.options c))); [lia|].
    now rewrite Hdata. }
  split; [now rewrite Hget|]. split; [|split].
  - unfold QueryCache.getOrSet. rewrite Hget, Hfactory. reflexivity.
  - rewrite set_cache. apply Map_get_set_same.
  - intros absent Habsent.
    unfold QueryCache.getOrSet, QueryCache.get. rewrite Habsent, Hfactory.
    split; reflexivity.
Qed.

Lemma getOrSet_recomputes_stored_undefined_witness :
  QueryCache.Map_get (QueryCache.cache CacheScenario.u) (JS.lit "q")
  = Some CacheScenario.entry_u
  /\ fst (QueryCache.get CacheScenario.u (JS.lit "q") 20) = QueryCache.Undefined
  /\ QueryCache.getOrSet CacheScenario.u (JS.lit "q")
       CacheScenario.counting_factory 20 25 0%nat
     = (JS.Normal (CacheScenario.v "fresh"),
        QueryCache.set (snd (QueryCache.get CacheScenario.u (JS.lit "q") 20))
          (JS.lit "q") (CacheScenario.v "fresh") 25,
        1%nat).
Proof.
  split; [reflexivity|].
  destruct (getOrSet_recomputes_stored_undefined JS.jsstring nat
              CacheScenario.u (JS.lit "q") CacheScenario.entry_u
              CacheScenario.counting_factory 20 25 0%nat 1%nat
              (CacheScenario.v "fresh") eq_refl eq_refl)
    as [Hget [Hcall _]].
  - vm_compute. discriminate.
  - reflexivity.
  - split; [exact Hget|exact Hcall].
Defined.

(** C3. With room for two entries, setting the keys [''], [b] and [c] in
    a row leaves three entries: the scan of [evictLRU] selects the entry of
    [''], and the test [if (lruKey)] then skips the deletion. With [a] in
    place of [''] the same calls leave [b] and [c]. *)
Theorem empty_key_escapes_eviction :
  QueryCache.maxSize
    (QueryCache.options
       (QueryCache.calls CacheScenario.two CacheScenario.empty_key_first)) = 2%Z
  /\ QueryCache.size
       (QueryCache.calls CacheScenario.two CacheScenario.empty_key_first) = 3%Z
  /\ QueryCache.keys
       (QueryCache.calls CacheScenario.two CacheScenario.empty_key_first)
     = [[]; JS.lit "b"; JS.lit "c"]
  /\ QueryCache.keys
       (QueryCache.calls CacheScenario.two CacheScenario.a_first)
     = [JS.lit "b"; JS.lit "c"].
Proof. repeat split. Qed.

(** ** The checks of the specification, run on the embedding *)

(** Malformed input, through either transport: one line, the parse error. *)
Example malformed_input_on_socket :
  MCPServer.socket
    (snd (Scenario.handleConnection_data Scenario.open_connection
            (Scenario.bytes (Scenario.malformed_line ++ [JS.LF]))))
  = [Scenario.error_line].
Proof. vm_compute. reflexivity. Qed.

Example malformed_input_on_stdio :
  MCPServer.stdout
    (snd (Scenario.startStdio_bytes Scenario.open_stdio
            (Scenario.bytes (Scenario.malformed_line ++ [JS.LF]))))
  = [Scenario.error_line].
Proof. vm_compute. reflexivity. Qed.

(** A request the handler answers: the response carries the request's
    [id]. *)
Example ping_is_answered_with_its_id :
  MCPServer.socket
    (snd (Scenario.handleConnection_data Scenario.open_connection
            (Scenario.bytes (Scenario.ping_line ++ [JS.LF]))))
  = [Scenario.json "{'jsonrpc':'2.0','id':7,'result':'pong'}" ++ [JS.LF]].
Proof. vm_compute. reflexivity. Qed.

(** A line that arrives in two chunks is answered once, when its newline
    arrives. *)
Example line_in_two_chunks :
  MCPServer.socket
    (MCPServer.handleConnection_run Scenario.JSON_parse Scenario.handleRequest
       Scenario.JSON_stringify Scenario.PARSE_ERROR Scenario.open_connection
       [Scenario.bytes (firstn 10 Scenario.ping_line);
        Scenario.bytes (skipn 10 Scenario.ping_line ++ [JS.LF])])
  = [Scenario.json "{'jsonrpc':'2.0','id':7,'result':'pong'}" ++ [JS.LF]].
Proof. vm_compute. reflexivity. Qed.

(** Tie-break: [a] and [b] set, [a] read once, then [c] set: [b] goes. *)
Example tie_break_evicts_b :
  QueryCache.keys
    (QueryCache.set CacheScenario.a_read (JS.lit "c") (CacheScenario.v "3") 40)
  = [JS.lit "a"; JS.lit "c"].
Proof. reflexivity. Qed.

(** Overwriting a key of a full store evicts nothing. *)
Example overwrite_keeps_all :
  QueryCache.keys
    (QueryCache.set CacheScenario.a_read (JS.lit "a") (CacheScenario.v "9") 40)
  = [JS.lit "a"; JS.lit "b"].
Proof. reflexivity. Qed.

(* ===================================================================== *)
(** * Part III: further properties of the embedded code                    *)
(* ===================================================================== *)

(** ** The cache: lookups, removals and the loops that delete *)

Section CacheLookups.
Import JS QueryCache.
Local Open Scope Z_scope.

Variable T : Type.

Lemma set_options (c : Cache T) (key : jsstring) (data0 : Value T) (now : Z) :
  options (set c key data0 now) = options c.
Proof.
  unfold set. cbn [with_cache options].
  destruct ((Map_size (cache c) >=? maxSize (options c))
            && negb (Map_has (cache c) key)); [apply evictLRU_options|reflexivity].
Qed.

Lemma Map_get_middle (pre suf : Map T) (k : jsstring) (e : CacheEntry T) :
  ~ In k (map fst pre) -> Map_get (pre ++ (k, e) :: suf) k = Some e.
Proof.
  induction pre as [|[k0 e0] pre IH]; simpl; intros Hk.
  - now rewrite eqb_refl.
  - destruct (eqb k0 k) eqn:E; [apply eqb_eq in E; tauto|]. apply IH. tauto.
Qed.

Lemma Map_delete_middle (pre suf : Map T) (k : jsstring) (e : CacheEntry T) :
  ~ In k (map fst pre) -> Map_delete (pre ++ (k, e) :: suf) k = pre ++ suf.
Proof.
  induction pre as [|[k0 e0] pre IH]; simpl; intros Hk.
  - now rewrite eqb_refl.
  - destruct (eqb k0 k) eqn:E; [apply eqb_eq in E; tauto|].
    rewrite IH; tauto.
Qed.

Lemma filter_length_split (A : Type) (f : A -> bool) (l : list A) :
  (length (filter f l) + length (filter (fun x => negb (f x)) l) = length l)%nat.
Proof.
  induction l as [|x l IH]; [reflexivity|]. simpl.
  destruct (f x); simpl; lia.
Qed.

Lemma fold_left_over_map (A B C : Type) (f : A -> B -> A) (g : C -> B)
  (l : list C) (a : A) :
  fold_left f (map g l) a = fold_left (fun a x => f a (g x)) l a.
Proof. revert a. induction l as [|x l IH]; intros a; simpl; auto. Qed.

(** A loop that deletes the entries passing [test], run over what is
    still to come of a store: the entries that pass are gone, in the order
    met; each was counted, and reported to [onEvict] when there is one. *)
Lemma deleting_loop_closed (A : Type) (entry_of : A -> jsstring * CacheEntry T)
  (test : A -> bool) (xs : list A) (pre : Map T) (count : Z)
  (opts : QueryCacheOptions) (reported : list (jsstring * CacheEntry T)) :
  NoDup (map fst (pre ++ map entry_of xs)) ->
  fold_left
    (fun (acc : Z * Cache T) (x : A) =>
       if test x then (fst acc + 1, snd (delete (snd acc) (fst (entry_of x))))
       else acc)
    xs
    (count,
     {| cache := pre ++ map entry_of xs; options := opts;
        onEvict_calls := reported |})
  = (count + Z.of_nat (length (filter test xs)),
     {| cache := pre ++ map entry_of (filter (fun x => negb (test x)) xs);
        options := opts;
        onEvict_calls :=
          if onEvict opts then reported ++ map entry_of (filter test xs)
          else reported |}).
Proof.
  revert pre count reported.
  induction xs as [|x xs IH]; intros pre count reported Hnd.
  - cbn [fold_left filter length map]. rewrite !app_nil_r. cbn [Z.of_nat].
    rewrite Z.add_0_r. now destruct (onEvict opts).
  - cbn [fold_left filter map] in *. destruct (entry_of x) as [k e] eqn:Ex.
    rewrite map_app in Hnd. cbn [map fst] in Hnd.
    pose proof (NoDup_remove_2 _ _ _ Hnd) as Hk.
    pose proof (NoDup_remove_1 _ _ _ Hnd) as Hnd'.
    destruct (test x) eqn:Ht; cbn [negb].
    + assert (Hpre : ~ In k (map fst pre)).
      { intros Hin. apply Hk. apply in_or_app. now left. }
      unfold delete at 2. cbn [fst snd cache options onEvict_calls].
      rewrite (Map_get_middle pre (map entry_of xs) k e Hpre),
        (Map_delete_middle pre (map entry_of xs) k e Hpre).
      rewrite IH by (now rewrite map_app).
      cbn [length map]. rewrite Nat2Z.inj_succ, Ex.
      destruct (onEvict opts); [rewrite <- app_assoc|]; f_equal; lia.
    + replace (pre ++ (k, e) :: map entry_of xs)
        with ((pre ++ [(k, e)]) ++ map entry_of xs)
        by now rewrite <- app_assoc.
      rewrite IH.
      * cbn [map]. rewrite Ex, <- app_assoc. reflexivity.
      * rewrite <- app_assoc, map_app. exact Hnd.
Qed.

Lemma map_fst_combine_same_length (A B : Type) (l : list A) (r : list B) :
  length r = length l -> map fst (combine l r) = l.
Proof.
  revert r. induction l as [|a l IH]; intros [|b r]; simpl; try discriminate;
    [reflexivity|]. intros [= H]. now rewrite IH.
Qed.

Lemma combine_repeat (A B : Type) (l : list A) (b : B) :
  combine l (repeat b (length l)) = map (fun a => (a, b)) l.
Proof. induction l as [|a l IH]; simpl; [reflexivity|now rewrite IH]. Qed.

End CacheLookups.

(** X1. A value stored under a key is what [get] returns for that key as
    long as the time-to-live has not run out, whatever the store held
    before; the entry then counts one hit. *)
Theorem set_then_get :
  forall (T : Type) (c : QueryCache.Cache T) (key : JS.jsstring)
    (data0 : QueryCache.Value T) (now later : Z),
    (later - now <= QueryCache.ttlMs (QueryCache.options c))%Z ->
    fst (QueryCache.get (QueryCache.set c key data0 now) key later) = data0
    /\ QueryCache.Map_get
         (QueryCache.cache
            (snd (QueryCache.get (QueryCache.set c key data0 now) key later)))
         key
       = Some {| QueryCache.data := data0;
                 QueryCache.timestamp := now;
                 QueryCache.hits := 1 |}.
Proof.
  intros T c key data0 now later Hage.
  unfold QueryCache.get. rewrite set_cache, Map_get_set_same.
  unfold QueryCache.isExpired. rewrite set_options.
  cbn [QueryCache.timestamp].
  destruct (Z.gtb_spec (later - now) (QueryCache.ttlMs (QueryCache.options c)));
    [lia|].
  cbn [fst snd QueryCache.with_cache QueryCache.cache QueryCache.data].
  split; [reflexivity|]. rewrite Map_get_set_same. reflexivity.
Qed.

Lemma set_then_get_witness :
  fst (QueryCache.get
         (QueryCache.set CacheScenario.a_b (JS.lit "c") (CacheScenario.v "3") 40)
         (JS.lit "c") 300040)
  = CacheScenario.v "3".
Proof.
  apply (set_then_get JS.jsstring CacheScenario.a_b (JS.lit "c")
           (CacheScenario.v "3") 40 300040).
  vm_compute. discriminate.
Defined.

(** X2. [has] answers true exactly when the key has an entry that is not
    older than the time-to-live, and then leaves the store, hit counts
    included, as it was; when it answers false the key has no entry
    afterwards. *)
Theorem has_reads_only :
  forall (T : Type) (c : QueryCache.Cache T) (key : JS.jsstring) (now : Z),
    NoDup (QueryCache.keys c) ->
    (fst (QueryCache.has c key now) = true <->
     exists entry,
       QueryCache.Map_get (QueryCache.cache c) key = Some entry
       /\ (now - QueryCache.timestamp entry
           <= QueryCache.ttlMs (QueryCache.options c))%Z)
    /\ (fst (QueryCache.has c key now) = true ->
        snd (QueryCache.has c key now) = c)
    /\ (fst (QueryCache.has c key now) = false ->
        QueryCache.Map_get
          (QueryCache.cache (snd (QueryCache.has c key now))) key = None).
Proof.
  intros T c key now Hnd. unfold QueryCache.has, QueryCache.isExpired.
  destruct (QueryCache.Map_get (QueryCache.cache c) key) as [entry|] eqn:E.
  - destruct (Z.gtb_spec (now - QueryCache.timestamp entry)
                (QueryCache.ttlMs (QueryCache.options c))) as [Hexp|Hok];
      cbn [fst snd].
    + split; [|split]; try discriminate.
      * split; [discriminate|]. intros [e [[= <-] He]]. lia.
      * intros _. cbn [QueryCache.delete snd QueryCache.cache].
        apply Map_get_delete_same. exact Hnd.
    + split; [|split]; try discriminate; [|reflexivity].
      split; [|reflexivity]. intros _. now exists entry.
  - cbn [fst snd]. split; [|split]; try discriminate.
    + split; [discriminate|]. intros [e [He _]]. discriminate.
    + intros _. exact E.
Qed.

Lemma has_reads_only_witness :
  QueryCache.has CacheScenario.a_read (JS.lit "a") 50
  = (true, CacheScenario.a_read).
Proof.
  assert (Hnd : NoDup (QueryCache.keys CacheScenario.a_read)).
  { vm_compute. repeat constructor; simpl; intuition discriminate. }
  destruct (has_reads_only JS.jsstring CacheScenario.a_read (JS.lit "a") 50 Hnd)
    as [_ [Hsame _]].
  assert (Htrue : fst (QueryCache.has CacheScenario.a_read (JS.lit "a") 50) = true)
    by reflexivity.
  specialize (Hsame Htrue).
  rewrite (surjective_pairing (QueryCache.has CacheScenario.a_read (JS.lit "a") 50)).
  now rewrite Hsame, Htrue.
Defined.

(** X3. [delete] answers whether the key had an entry; afterwards the key
    has none, every other key has the entry it had, and the store is smaller
    by one exactly when the answer is true. *)
Theorem delete_removes_one_key :
  forall (T : Type) (c : QueryCache.Cache T) (key : JS.jsstring),
    NoDup (QueryCache.keys c) ->
    fst (QueryCache.delete c key) = QueryCache.Map_has (QueryCache.cache c) key
    /\ QueryCache.Map_get
         (QueryCache.cache (snd (QueryCache.delete c key))) key = None
    /\ (forall k : JS.jsstring,
           k <> key ->
           QueryCache.Map_get (QueryCache.cache (snd (QueryCache.delete c key))) k
           = QueryCache.Map_get (QueryCache.cache c) k)
    /\ QueryCache.size (snd (QueryCache.delete c key))
       = (QueryCache.size c
          - (if fst (QueryCache.delete c key) then 1 else 0))%Z.
Proof.
  intros T c key Hnd. cbn [QueryCache.delete fst snd QueryCache.cache].
  unfold QueryCache.size. cbn [QueryCache.cache].
  split; [reflexivity|]. split; [now apply Map_get_delete_same|]. split.
  - intros k Hk. apply Map_get_delete_other. congruence.
  - rewrite Map_delete_length.
    destruct (QueryCache.Map_has (QueryCache.cache c) key); lia.
Qed.

Lemma delete_removes_one_key_witness :
  fst (QueryCache.delete CacheScenario.a_b (JS.lit "a")) = true
  /\ QueryCache.keys (snd (QueryCache.delete CacheScenario.a_b (JS.lit "a")))
     = [JS.lit "b"]
  /\ QueryCache.size (snd (QueryCache.delete CacheScenario.a_b (JS.lit "a")))
     = (QueryCache.size CacheScenario.a_b - 1)%Z.
Proof.
  assert (Hnd : NoDup (QueryCache.keys CacheScenario.a_b)).
  { vm_compute. repeat constructor; simpl; intuition discriminate. }
  destruct (delete_removes_one_key JS.jsstring CacheScenario.a_b (JS.lit "a") Hnd)
    as [Hans [_ [_ Hsize]]].
  split; [reflexivity|]. split; [reflexivity|exact Hsize].
Defined.

(** The two loops of the cache in closed form. *)
Lemma prune_closed (T : Type) (c : QueryCache.Cache T) (now : Z) :
  NoDup (QueryCache.keys c) ->
  QueryCache.cache (snd (QueryCache.prune c now))
  = filter (fun kv => negb (QueryCache.isExpired c now (snd kv)))
      (QueryCache.cache c)
  /\ fst (QueryCache.prune c now)
     = Z.of_nat
         (length (filter (fun kv => QueryCache.isExpired c now (snd kv))
                    (QueryCache.cache c))).
Proof.
  intros Hnd. unfold QueryCache.prune.
  pose proof (deleting_loop_closed T _ (fun kv => kv)
                (fun kv => QueryCache.isExpired c now (snd kv))
                (QueryCache.cache c) [] 0 (QueryCache.options c)
                (QueryCache.onEvict_calls c)) as Hloop.
  rewrite !map_id in Hloop. cbn [app] in Hloop. specialize (Hloop Hnd).
  replace {| QueryCache.cache := QueryCache.cache c;
             QueryCache.options := QueryCache.options c;
             QueryCache.onEvict_calls := QueryCache.onEvict_calls c |}
    with c in Hloop by now destruct c.
  rewrite Hloop. split; reflexivity.
Qed.

Lemma invalidatePattern_removes_the_matches_closed (T : Type)
  (c : QueryCache.Cache T) (pattern : JS.jsstring -> bool) :
  NoDup (QueryCache.keys c) ->
  QueryCache.cache (snd (QueryCache.invalidatePattern c pattern))
  = filter (fun kv => negb (pattern (fst kv))) (QueryCache.cache c)
  /\ fst (QueryCache.invalidatePattern c pattern)
     = Z.of_nat
         (length (filter (fun kv => pattern (fst kv)) (QueryCache.cache c))).
Proof.
  intros Hnd. unfold QueryCache.invalidatePattern, QueryCache.keys.
  rewrite fold_left_over_map.
  pose proof (deleting_loop_closed T _ (fun kv => kv)
                (fun kv => pattern (fst kv))
                (QueryCache.cache c) [] 0 (QueryCache.options c)
                (QueryCache.onEvict_calls c)) as Hloop.
  rewrite !map_id in Hloop. cbn [app] in Hloop. specialize (Hloop Hnd).
  replace {| QueryCache.cache := QueryCache.cache c;
             QueryCache.options := QueryCache.options c;
             QueryCache.onEvict_calls := QueryCache.onEvict_calls c |}
    with c in Hloop by now destruct c.
  rewrite Hloop. split; reflexivity.
Qed.

Lemma prune_with_still_clock (T : Type) (c : QueryCache.Cache T) (now : Z) :
  QueryCache.prune c now
  = QueryCache.prune_with_clock c (repeat now (length (QueryCache.cache c))).
Proof.
  unfold QueryCache.prune, QueryCache.prune_with_clock.
  rewrite combine_repeat, fold_left_over_map. reflexivity.
Qed.

(** X4. [prune] removes exactly the entries that are older than the
    time-to-live when the loop reads the clock for them, and keeps the
    others as they are and in their order; the number it returns is the
    number of entries removed, and each of them is reported to [onEvict], in
    the order of the store, when a callback is configured. *)
Theorem prune_removes_the_expired :
  forall (T : Type) (c : QueryCache.Cache T) (readings : list Z),
    NoDup (QueryCache.keys c) ->
    length readings = length (QueryCache.cache c) ->
    QueryCache.cache (snd (QueryCache.prune_with_clock c readings))
    = map fst
        (filter
           (fun kvt => negb (QueryCache.isExpired c (snd kvt) (snd (fst kvt))))
           (combine (QueryCache.cache c) readings))
    /\ fst (QueryCache.prune_with_clock c readings)
       = (QueryCache.size c
          - QueryCache.size (snd (QueryCache.prune_with_clock c readings)))%Z
    /\ QueryCache.onEvict_calls (snd (QueryCache.prune_with_clock c readings))
       = if QueryCache.onEvict (QueryCache.options c)
         then QueryCache.onEvict_calls c
              ++ map fst
                   (filter
                      (fun kvt => QueryCache.isExpired c (snd kvt) (snd (fst kvt)))
                      (combine (QueryCache.cache c) readings))
         else QueryCache.onEvict_calls c.
Proof.
  intros T c readings Hnd Hlen. unfold QueryCache.prune_with_clock.
  pose proof (deleting_loop_closed T _ fst
                (fun kvt => QueryCache.isExpired c (snd kvt) (snd (fst kvt)))
                (combine (QueryCache.cache c) readings) [] 0
                (QueryCache.options c) (QueryCache.onEvict_calls c)) as Hloop.
  rewrite (map_fst_combine_same_length _ _ _ _ Hlen) in Hloop.
  cbn [app] in Hloop. specialize (Hloop Hnd).
  replace {| QueryCache.cache := QueryCache.cache c;
             QueryCache.options := QueryCache.options c;
             QueryCache.onEvict_calls := QueryCache.onEvict_calls c |}
    with c in Hloop by now destruct c.
  rewrite Hloop. cbn [fst snd QueryCache.cache QueryCache.onEvict_calls].
  split; [reflexivity|split; [|reflexivity]].
  unfold QueryCache.size, QueryCache.Map_size. cbn [QueryCache.cache].
  rewrite length_map.
  pose proof (filter_length_split _
                (fun kvt => QueryCache.isExpired c (snd kvt) (snd (fst kvt)))
                (combine (QueryCache.cache c) readings)) as Hsplit.
  rewrite length_combine, Hlen, Nat.min_id in Hsplit.
  lia.
Qed.

Lemma prune_removes_the_expired_witness :
  QueryCache.keys
    (snd (QueryCache.prune_with_clock CacheScenario.a_b [300015; 300016]%Z))
  = [JS.lit "b"]
  /\ fst (QueryCache.prune_with_clock CacheScenario.a_b [300015; 300016]%Z)
     = (QueryCache.size CacheScenario.a_b
        - QueryCache.size
            (snd (QueryCache.prune_with_clock CacheScenario.a_b
                    [300015; 300016]%Z)))%Z.
Proof.
  assert (Hnd : NoDup (QueryCache.keys CacheScenario.a_b)).
  { vm_compute. repeat constructor; simpl; intuition discriminate. }
  destruct (prune_removes_the_expired JS.jsstring CacheScenario.a_b
              [300015; 300016]%Z Hnd eq_refl)
    as [_ [Hcount _]].
  split; [reflexivity|exact Hcount].
Defined.

(** X5. [invalidatePattern] removes exactly the entries whose key the
    pattern accepts and keeps the others as they are and in their order; the
    number it returns is the number of entries removed. *)
Theorem invalidatePattern_removes_the_matches :
  forall (T : Type) (c : QueryCache.Cache T) (pattern : JS.jsstring -> bool),
    NoDup (QueryCache.keys c) ->
    QueryCache.cache (snd (QueryCache.invalidatePattern c pattern))
    = filter (fun kv => negb (pattern (fst kv))) (QueryCache.cache c)
    /\ fst (QueryCache.invalidatePattern c pattern)
       = (QueryCache.size c
          - QueryCache.size (snd (QueryCache.invalidatePattern c pattern)))%Z
    /\ QueryCache.onEvict_calls (snd (QueryCache.invalidatePattern c pattern))
       = if QueryCache.onEvict (QueryCache.options c)
         then QueryCache.onEvict_calls c
              ++ filter (fun kv => pattern (fst kv)) (QueryCache.cache c)
         else QueryCache.onEvict_calls c.
Proof.
  intros T c pattern Hnd. unfold QueryCache.invalidatePattern, QueryCache.keys.
  rewrite fold_left_over_map.
  pose proof (deleting_loop_closed T _ (fun kv => kv)
                (fun kv => pattern (fst kv))
                (QueryCache.cache c) [] 0 (QueryCache.options c)
                (QueryCache.onEvict_calls c)) as Hloop.
  rewrite !map_id in Hloop. cbn [app] in Hloop. specialize (Hloop Hnd).
  replace {| QueryCache.cache := QueryCache.cache c;
             QueryCache.options := QueryCache.options c;
             QueryCache.onEvict_calls := QueryCache.onEvict_calls c |}
    with c in Hloop by now destruct c.
  rewrite Hloop. cbn [fst snd QueryCache.cache QueryCache.onEvict_calls].
  split; [reflexivity|split; [|reflexivity]].
  unfold QueryCache.size, QueryCache.Map_size. cbn [QueryCache.cache].
  pose proof (filter_length_split _ (fun kv => pattern (fst kv))
                (QueryCache.cache c)).
  lia.
Qed.

Lemma invalidatePattern_removes_the_matches_witness :
  QueryCache.keys
    (snd (QueryCache.invalidatePattern CacheScenario.a_b
            (fun key => JS.eqb key (JS.lit "a"))))
  = [JS.lit "b"]
  /\ fst (QueryCache.invalidatePattern CacheScenario.a_b
            (fun key => JS.eqb key (JS.lit "a")))
     = (QueryCache.size CacheScenario.a_b
        - QueryCache.size
            (snd (QueryCache.invalidatePattern CacheScenario.a_b
                    (fun key => JS.eqb key (JS.lit "a")))))%Z.
Proof.
  assert (Hnd : NoDup (QueryCache.keys CacheScenario.a_b)).
  { vm_compute. repeat constructor; simpl; intuition discriminate. }
  destruct (invalidatePattern_removes_the_matches JS.jsstring CacheScenario.a_b
              (fun key => JS.eqb key (JS.lit "a")) Hnd)
    as [_ [Hcount _]].
  split; [reflexivity|exact Hcount].
Defined.

(** X6. A cache made by the constructor with room for at least one entry
    never holds more entries than [maxSize], whatever calls are made, as
    long as no call stores under the empty key. *)
Theorem store_stays_within_capacity :
  forall (T : Type) (maxSize0 ttlMs0 : option Z) (onEvict0 : bool)
    (ops : list (QueryCache.Call T)),
    (1 <= QueryCache.maxSize
            (QueryCache.options (QueryCache.new T maxSize0 ttlMs0 onEvict0)))%Z ->
    Forall (@QueryCache.stores_under_nonempty_key T) ops ->
    (QueryCache.size
       (QueryCache.calls (QueryCache.new T maxSize0 ttlMs0 onEvict0) ops)
     <= QueryCache.maxSize
          (QueryCache.options (QueryCache.new T maxSize0 ttlMs0 onEvict0)))%Z.
Proof.
  intros T maxSize0 ttlMs0 onEvict0 ops Hmax Hops.
  apply calls_within_capacity; [exact Hmax|exact Hops|].
  split; [|constructor].
  unfold QueryCache.size, QueryCache.Map_size. cbn [QueryCache.new
    QueryCache.cache length Z.of_nat]. lia.
Qed.

Lemma store_stays_within_capacity_witness :
  (QueryCache.size (QueryCache.calls CacheScenario.two CacheScenario.a_first)
   <= 2)%Z.
Proof.
  apply (store_stays_within_capacity JS.jsstring (Some 2%Z) None false
           CacheScenario.a_first).
  - vm_compute. discriminate.
  - repeat constructor.
Defined.

Section CacheFrames.
Import JS QueryCache.
Local Open Scope Z_scope.

Variable T : Type.

Lemma delete_keeps_or_drops (c : Cache T) (key k : jsstring) (e : CacheEntry T) :
  NoDup (keys c) ->
  Map_get (cache c) k = Some e ->
  Map_get (cache (snd (delete c key))) k = None
  \/ Map_get (cache (snd (delete c key))) k = Some e.
Proof.
  intros Hnd He. cbn [delete snd cache].
  destruct (list_eq_dec N.eq_dec key k) as [->|Hne].
  - left. now apply Map_get_delete_same.
  - right. now rewrite Map_get_delete_other.
Qed.

Lemma evictLRU_keeps_or_drops (c : Cache T) (k : jsstring) (e : CacheEntry T) :
  NoDup (keys c) ->
  Map_get (cache c) k = Some e ->
  Map_get (cache (evictLRU c)) k = None \/ Map_get (cache (evictLRU c)) k = Some e.
Proof.
  intros Hnd He. unfold evictLRU.
  destruct (evictLRU_scan (cache c)) as [[lruKey lruEntry]|]; [|now right].
  destruct (truthy lruKey); [now apply delete_keeps_or_drops|now right].
Qed.

Lemma set_other_keeps_or_drops (c : Cache T) (key k : jsstring)
  (data0 : Value T) (now : Z) (e : CacheEntry T) :
  NoDup (keys c) ->
  key <> k ->
  Map_get (cache c) k = Some e ->
  Map_get (cache (set c key data0 now)) k = None
  \/ Map_get (cache (set c key data0 now)) k = Some e.
Proof.
  intros Hnd Hne He. rewrite set_cache, (Map_get_set_other _ _ _ _ _ Hne).
  destruct ((Map_size (cache c) >=? maxSize (options c))
            && negb (Map_has (cache c) key));
    [now apply evictLRU_keeps_or_drops|now right].
Qed.

Lemma get_other_keeps (c : Cache T) (key k : jsstring) (now : Z) :
  key <> k ->
  Map_get (cache (snd (get c key now))) k = Map_get (cache c) k.
Proof.
  intros Hne. unfold get.
  destruct (Map_get (cache c) key) as [entry|]; [|reflexivity].
  destruct (isExpired c now entry); cbn [snd delete with_cache cache].
  - now apply Map_get_delete_other.
  - now apply Map_get_set_other.
Qed.

Lemma Map_get_filter (f : jsstring * CacheEntry T -> bool) (m : Map T)
  (k : jsstring) (e : CacheEntry T) :
  NoDup (map fst m) ->
  Map_get m k = Some e ->
  Map_get (filter f m) k = if f (k, e) then Some e else None.
Proof.
  induction m as [|[k0 e0] m IH]; [discriminate|].
  intros Hnd. inversion Hnd as [|? ? Hk0 Hm]; subst. cbn [Map_get filter].
  destruct (eqb k0 k) eqn:E.
  - apply eqb_eq in E. subst k0. intros [= ->].
    destruct (f (k, e)); cbn [Map_get].
    + now rewrite eqb_refl.
    + apply Map_get_None. intros Hin. apply Hk0.
      apply in_map_iff in Hin. destruct Hin as [[k' e'] [Hfst Hin]].
      apply filter_In in Hin. apply in_map_iff. exists (k', e'). tauto.
  - intros He. destruct (f (k0, e0)); cbn [Map_get]; [rewrite E|]; now apply IH.
Qed.

(** *** The calls to [onEvict] *)

Lemma reports_refl (c : Cache T) : reports 0 c c.
Proof.
  split; [reflexivity|]. exists []. rewrite app_nil_r. split; [reflexivity|].
  destruct (onEvict (options c)); [cbn [length Z.of_nat]; lia|reflexivity].
Qed.

Lemma reports_trans (a b : Z) (c1 c2 c3 : Cache T) :
  reports a c1 c2 -> reports b c2 c3 -> reports (a + b) c1 c3.
Proof.
  intros [Ho [r [Hr Hs]]] [Ho' [r' [Hr' Hs']]].
  split; [congruence|]. exists (r ++ r').
  split; [now rewrite Hr', Hr, app_assoc|].
  rewrite Ho in Hs'. destruct (onEvict (options c1)).
  - rewrite length_app, Nat2Z.inj_add. lia.
  - subst. reflexivity.
Qed.

Lemma delete_reports (c : Cache T) (key : jsstring) :
  reports 0 c (snd (delete c key)).
Proof.
  split; [reflexivity|]. cbn [delete snd onEvict_calls options].
  unfold size. cbn [cache]. rewrite Map_delete_length. unfold Map_has.
  destruct (Map_get (cache c) key) as [e|].
  - destruct (onEvict (options c)) eqn:E.
    + exists [(key, e)]. split; [reflexivity|].
      cbn [length]. lia.
    + exists []. rewrite app_nil_r. now split.
  - exists []. rewrite app_nil_r. split; [reflexivity|].
    destruct (onEvict (options c)); [cbn [length Z.of_nat]; lia|reflexivity].
Qed.

Lemma deleting_loop_reports (A : Type) (key_of : A -> jsstring)
  (test : A -> bool) (xs : list A) (c : Cache T) (acc : Z * Cache T) :
  reports 0 c (snd acc) ->
  reports 0 c
    (snd (fold_left
            (fun (acc : Z * Cache T) x =>
               if test x then (fst acc + 1, snd (delete (snd acc) (key_of x)))
               else acc)
            xs acc)).
Proof.
  revert acc. induction xs as [|x xs IH]; intros acc Hacc; [exact Hacc|].
  cbn [fold_left]. apply IH. destruct (test x); [|exact Hacc].
  cbn [snd]. apply (reports_trans 0 0 c (snd acc)); [exact Hacc|].
  apply delete_reports.
Qed.

Lemma get_reports (c : Cache T) (key : jsstring) (now : Z) :
  reports 0 c (snd (get c key now)).
Proof.
  unfold get. destruct (Map_get (cache c) key) as [entry|] eqn:E;
    [|apply reports_refl].
  destruct (isExpired c now entry); [apply delete_reports|].
  cbn [snd]. split; [reflexivity|]. exists []. cbn [with_cache onEvict_calls options].
  rewrite app_nil_r. split; [reflexivity|].
  unfold size, with_cache. cbn [cache]. rewrite Map_set_length.
  unfold Map_has. rewrite E.
  destruct (onEvict (options c)); [cbn [length Z.of_nat]; lia|reflexivity].
Qed.

Lemma evictLRU_reports (c : Cache T) : reports 0 c (evictLRU c).
Proof.
  unfold evictLRU.
  destruct (evictLRU_scan (cache c)) as [[lruKey lruEntry]|]; [|apply reports_refl].
  destruct (truthy lruKey); [apply delete_reports|apply reports_refl].
Qed.

Lemma set_reports (c : Cache T) (key : jsstring) (data0 : Value T) (now : Z) :
  exists added, 0 <= added <= 1 /\ reports added c (set c key data0 now).
Proof.
  unfold set.
  set (c1 := if (Map_size (cache c) >=? maxSize (options c))
                && negb (Map_has (cache c) key)
             then evictLRU c else c).
  assert (H1 : reports 0 c c1).
  { unfold c1. destruct ((Map_size (cache c) >=? maxSize (options c))
                         && negb (Map_has (cache c) key));
      [apply evictLRU_reports|apply reports_refl]. }
  exists (if Map_has (cache c1) key then 0 else 1).
  split; [destruct (Map_has (cache c1) key); lia|].
  replace (if Map_has (cache c1) key then 0 else 1)
    with (0 + (if Map_has (cache c1) key then 0 else 1)) by lia.
  apply (reports_trans _ _ c c1); [exact H1|].
  split; [reflexivity|]. exists []. cbn [with_cache onEvict_calls options].
  rewrite app_nil_r. split; [reflexivity|].
  unfold size, with_cache. cbn [cache]. rewrite Map_set_length.
  destruct (onEvict (options c1)); [|reflexivity].
  cbn [length Z.of_nat]. destruct (Map_has (cache c1) key); lia.
Qed.

End CacheFrames.

(** X7. A call that does not store under a key leaves the entry of that
    key with its value and its timestamp, and with the hits it had or one
    more, unless it removes the entry: no call but a [set] or a [getOrSet]
    for that key resets or lowers a hit count. *)
Theorem entry_kept_between_stores :
  forall (T : Type) (c : QueryCache.Cache T) (op : QueryCache.Call T)
    (k : JS.jsstring) (e : QueryCache.CacheEntry T),
    NoDup (QueryCache.keys c) ->
    QueryCache.Map_get (QueryCache.cache c) k = Some e ->
    ~ QueryCache.stores_under k op ->
    QueryCache.Map_get (QueryCache.cache (QueryCache.call c op)) k = None
    \/ exists e',
         QueryCache.Map_get (QueryCache.cache (QueryCache.call c op)) k = Some e'
         /\ QueryCache.data e' = QueryCache.data e
         /\ QueryCache.timestamp e' = QueryCache.timestamp e
         /\ (QueryCache.hits e <= QueryCache.hits e' <= QueryCache.hits e + 1)%Z.
Proof.
  intros T c op k e Hnd He Hop.
  assert (Hsame : forall c',
             QueryCache.Map_get (QueryCache.cache c') k = None
             \/ QueryCache.Map_get (QueryCache.cache c') k = Some e ->
             QueryCache.Map_get (QueryCache.cache c') k = None
             \/ exists e',
                  QueryCache.Map_get (QueryCache.cache c') k = Some e'
                  /\ QueryCache.data e' = QueryCache.data e
                  /\ QueryCache.timestamp e' = QueryCache.timestamp e
                  /\ (QueryCache.hits e <= QueryCache.hits e'
                      <= QueryCache.hits e + 1)%Z).
  { intros c' [H|H]; [now left|right]. exists e. repeat split; try lia. exact H. }
  destruct op as [key now|key data0 now|key now|key| |pattern|now
                 |key produced now_get now_set]; cbn [QueryCache.call].
  - destruct (list_eq_dec N.eq_dec key k) as [->|Hne].
    + unfold QueryCache.get. rewrite He.
      destruct (QueryCache.isExpired c now e).
      * left. cbn [snd QueryCache.delete QueryCache.cache].
        now apply Map_get_delete_same.
      * right. exists (QueryCache.hit e).
        cbn [snd QueryCache.with_cache QueryCache.cache].
        rewrite Map_get_set_same. cbn. repeat split; lia.
    + apply Hsame. right. now rewrite get_other_keeps.
  - cbn [QueryCache.stores_under] in Hop.
    apply Hsame. now apply set_other_keeps_or_drops.
  - apply Hsame. unfold QueryCache.has.
    destruct (QueryCache.Map_get (QueryCache.cache c) key) as [entry|];
      [|now right].
    destruct (QueryCache.isExpired c now entry);
      [now apply delete_keeps_or_drops|now right].
  - apply Hsame. now apply delete_keeps_or_drops.
  - left. reflexivity.
  - destruct (invalidatePattern_removes_the_matches_closed T c pattern Hnd)
      as [Hcache _].
    apply Hsame. rewrite Hcache, (Map_get_filter T _ _ k e Hnd He).
    destruct (negb (pattern (fst (k, e)))); [now right|now left].
  - destruct (prune_closed T c now Hnd) as [Hcache _].
    apply Hsame. rewrite Hcache, (Map_get_filter T _ _ k e Hnd He).
    destruct (negb (QueryCache.isExpired c now (snd (k, e))));
      [now right|now left].
  - cbn [QueryCache.stores_under] in Hop. unfold QueryCache.getOrSet.
    pose proof (get_other_keeps T c key k now_get Hop) as Hget.
    pose proof (get_NoDup T c key now_get Hnd) as Hnd1.
    destruct (QueryCache.get c key now_get) as [cached c1]. cbn [snd] in *.
    rewrite He in Hget. apply Hsame.
    destruct cached as [|v]; [|now right].
    destruct produced as [data0|]; cbn [fst snd]; [|now right].
    now apply set_other_keeps_or_drops.
Qed.

Lemma entry_kept_between_stores_witness :
  QueryCache.Map_get
    (QueryCache.cache
       (QueryCache.call CacheScenario.a_b (QueryCache.CallGet JS.jsstring (JS.lit "a") 30)))
    (JS.lit "b") = None
  \/ exists e',
       QueryCache.Map_get
         (QueryCache.cache
            (QueryCache.call CacheScenario.a_b (QueryCache.CallGet JS.jsstring (JS.lit "a") 30)))
         (JS.lit "b") = Some e'
       /\ QueryCache.data e' = QueryCache.data CacheScenario.entry_b
       /\ QueryCache.timestamp e' = QueryCache.timestamp CacheScenario.entry_b
       /\ (QueryCache.hits CacheScenario.entry_b <= QueryCache.hits e'
           <= QueryCache.hits CacheScenario.entry_b + 1)%Z.
Proof.
  apply (entry_kept_between_stores JS.jsstring CacheScenario.a_b
           (QueryCache.CallGet JS.jsstring (JS.lit "a") 30) (JS.lit "b")
           CacheScenario.entry_b).
  - vm_compute. repeat constructor; simpl; intuition discriminate.
  - reflexivity.
  - simpl. tauto.
Defined.

(** ** The calls to [onEvict], entry by entry *)

Section CacheReports.
Import JS QueryCache.
Local Open Scope Z_scope.

Variable T : Type.

Lemma removals_reported_intro (op : Call T) (c c' : Cache T)
  (more : list (jsstring * CacheEntry T)) :
  options c' = options c ->
  onEvict_calls c'
  = (if onEvict (options c) then onEvict_calls c ++ more else onEvict_calls c) ->
  size c' + Z.of_nat (length more) = size c + stored c op ->
  NoDup (map fst more) ->
  (forall k e,
      In (k, e) more ->
      Map_get (cache c) k = Some e
      /\ (Map_get (cache c') k = None \/ stores_under k op)) ->
  removals_reported op c c'.
Proof.
  intros Ho Hc Hs Hnd Hin. split; [exact Ho|].
  destruct (onEvict (options c)).
  - exists more. split; [exact Hc|split; [exact Hs|split; [exact Hnd|exact Hin]]].
  - exists []. now rewrite app_nil_r.
Qed.

(** A call that reports nothing and removes nothing. *)
Lemma no_removals (op : Call T) (c c' : Cache T) :
  options c' = options c ->
  onEvict_calls c' = onEvict_calls c ->
  size c' = size c + stored c op ->
  removals_reported op c c'.
Proof.
  intros Ho Hc Hs. apply (removals_reported_intro op c c' []).
  - exact Ho.
  - rewrite app_nil_r. now destruct (onEvict (options c)).
  - cbn [length Z.of_nat]. lia.
  - constructor.
  - intros k e [].
Qed.

Lemma delete_removals (op : Call T) (c : Cache T) (key : jsstring) :
  NoDup (keys c) ->
  stored c op = 0 ->
  removals_reported op c (snd (delete c key)).
Proof.
  intros Hnd Hst.
  apply (removals_reported_intro op c _
           match Map_get (cache c) key with Some e => [(key, e)] | None => [] end).
  - reflexivity.
  - cbn [delete snd onEvict_calls].
    destruct (Map_get (cache c) key); rewrite ?app_nil_r;
      now destruct (onEvict (options c)).
  - unfold size. cbn [delete snd cache]. rewrite Map_delete_length, Hst.
    unfold Map_has. destruct (Map_get (cache c) key); cbn [length Z.of_nat]; lia.
  - destruct (Map_get (cache c) key); repeat constructor. intros [].
  - intros k e Hin. destruct (Map_get (cache c) key) as [e0|] eqn:E; [|destruct Hin].
    destruct Hin as [[= <- <-]|[]]. split; [exact E|left].
    cbn [delete snd cache]. now apply Map_get_delete_same.
Qed.

Lemma get_removals (op : Call T) (c : Cache T) (key : jsstring) (now : Z) :
  NoDup (keys c) ->
  stored c op = 0 ->
  removals_reported op c (snd (get c key now)).
Proof.
  intros Hnd Hst. unfold get.
  destruct (Map_get (cache c) key) as [entry|] eqn:E.
  - destruct (isExpired c now entry); [now apply delete_removals|].
    apply no_removals; try reflexivity.
    unfold size. cbn [snd with_cache cache]. rewrite Map_set_length, Hst.
    unfold Map_has. rewrite E. lia.
  - cbn [snd]. apply no_removals; try reflexivity. rewrite Hst. lia.
Qed.

Lemma NoDup_map_filter (A B : Type) (f : A -> B) (test : A -> bool) (l : list A) :
  NoDup (map f l) -> NoDup (map f (filter test l)).
Proof.
  induction l as [|x l IH]; cbn [map filter]; [trivial|].
  intros Hnd. inversion Hnd as [|? ? Hx Hl]; subst.
  destruct (test x); [|now apply IH]. cbn [map]. constructor; [|now apply IH].
  intros Hin. apply Hx. apply in_map_iff in Hin. destruct Hin as [y [Hy Hin]].
  apply filter_In in Hin. apply in_map_iff. exists y. tauto.
Qed.

(** The loops of [prune] and [invalidatePattern], with the calls they
    make to [onEvict]. *)
Lemma deleting_loop_whole (test : jsstring * CacheEntry T -> bool) (c : Cache T) :
  NoDup (keys c) ->
  snd (fold_left
         (fun (acc : Z * Cache T) (kv : jsstring * CacheEntry T) =>
            if test kv then (fst acc + 1, snd (delete (snd acc) (fst kv)))
            else acc)
         (cache c) (0, c))
  = {| cache := filter (fun kv => negb (test kv)) (cache c);
       options := options c;
       onEvict_calls :=
         if onEvict (options c)
         then onEvict_calls c ++ filter test (cache c)
         else onEvict_calls c |}.
Proof.
  intros Hnd.
  pose proof (deleting_loop_closed T _ (fun kv => kv) test
                (cache c) [] 0 (options c) (onEvict_calls c)) as Hloop.
  rewrite !map_id in Hloop. cbn [app] in Hloop. specialize (Hloop Hnd).
  replace {| cache := cache c; options := options c;
             onEvict_calls := onEvict_calls c |}
    with c in Hloop by now destruct c.
  now rewrite Hloop.
Qed.

Lemma filter_removals (op : Call T) (test : jsstring * CacheEntry T -> bool)
  (c : Cache T) :
  NoDup (keys c) ->
  stored c op = 0 ->
  removals_reported op c
    {| cache := filter (fun kv => negb (test kv)) (cache c);
       options := options c;
       onEvict_calls :=
         if onEvict (options c)
         then onEvict_calls c ++ filter test (cache c)
         else onEvict_calls c |}.
Proof.
  intros Hnd Hst.
  apply (removals_reported_intro op c _ (filter test (cache c))).
  - reflexivity.
  - reflexivity.
  - unfold size, Map_size. cbn [cache]. rewrite Hst.
    pose proof (filter_length_split _ test (cache c)). lia.
  - now apply NoDup_map_filter.
  - intros k e Hin. apply filter_In in Hin. destruct Hin as [Hin Htest].
    pose proof (In_Map_get T _ _ _ Hnd Hin) as Hget.
    split; [exact Hget|left]. cbn [cache].
    rewrite (Map_get_filter T _ _ k e Hnd Hget). now rewrite Htest.
Qed.

(** What [set] removes: nothing, or the entry [evictLRU] deletes, which
    is never that of the key being set. *)
Lemma set_removed (c : Cache T) (key : jsstring) (data0 : Value T) (now : Z) :
  NoDup (keys c) ->
  exists more,
    onEvict_calls (set c key data0 now)
    = (if onEvict (options c) then onEvict_calls c ++ more else onEvict_calls c)
    /\ size (set c key data0 now) + Z.of_nat (length more)
       = size c + (if Map_has (cache c) key then 0 else 1)
    /\ NoDup (map fst more)
    /\ forall k e,
         In (k, e) more ->
         Map_get (cache c) k = Some e
         /\ Map_get (cache (set c key data0 now)) k = None.
Proof.
  intros Hnd.
  assert (Hplain :
    exists more,
      onEvict_calls c
      = (if onEvict (options c) then onEvict_calls c ++ more else onEvict_calls c)
      /\ size (with_cache c
                 (Map_set (cache c) key
                    {| data := data0; timestamp := now; hits := 0 |}))
         + Z.of_nat (length more)
         = size c + (if Map_has (cache c) key then 0 else 1)
      /\ NoDup (map fst more)
      /\ forall k e,
           In (k, e) more ->
           Map_get (cache c) k = Some e
           /\ Map_get
                (cache (with_cache c
                          (Map_set (cache c) key
                             {| data := data0; timestamp := now; hits := 0 |})))
                k = None).
  { exists []. split; [|split; [|split]].
    - rewrite app_nil_r. now destruct (onEvict (options c)).
    - unfold size. cbn [with_cache cache length Z.of_nat].
      rewrite Map_set_length. destruct (Map_has (cache c) key); lia.
    - constructor.
    - intros k e []. }
  unfold set.
  destruct ((Map_size (cache c) >=? maxSize (options c))
            && negb (Map_has (cache c) key)) eqn:Hcond; [|exact Hplain].
  apply andb_true_iff in Hcond. destruct Hcond as [_ Hnew].
  apply negb_true_iff in Hnew.
  assert (Habsent : Map_get (cache c) key = None).
  { unfold Map_has in Hnew. now destruct (Map_get (cache c) key). }
  unfold evictLRU.
  destruct (evictLRU_scan (cache c)) as [[lruKey lruEntry]|] eqn:Hscan;
    [|exact Hplain].
  destruct (truthy lruKey); [|exact Hplain].
  apply evictLRU_scan_least in Hscan. destruct Hscan as [Hin _].
  pose proof (In_Map_get T _ _ _ Hnd Hin) as Hlru.
  assert (Hne : key <> lruKey) by (intros ->; congruence).
  exists [(lruKey, lruEntry)]. split; [|split; [|split]].
  - cbn [with_cache delete snd onEvict_calls options]. now rewrite Hlru.
  - unfold size. cbn [with_cache delete snd cache length].
    rewrite Map_set_length, Map_delete_length. unfold Map_has.
    rewrite (Map_get_delete_absent T _ lruKey key Habsent), Hlru, Habsent. lia.
  - repeat constructor. intros [].
  - intros k e [[= <- <-]|[]]. split; [exact Hlru|].
    cbn [with_cache delete snd cache].
    rewrite (Map_get_set_other T _ _ _ _ Hne). now apply Map_get_delete_same.
Qed.

Lemma set_removals (c : Cache T) (key : jsstring) (data0 : Value T) (now : Z) :
  NoDup (keys c) ->
  removals_reported (CallSet key data0 now) c (set c key data0 now).
Proof.
  intros Hnd.
  destruct (set_removed c key data0 now Hnd) as [more [Hc [Hs [Hn Hin]]]].
  apply (removals_reported_intro _ c _ more); try assumption.
  - apply set_options.
  - intros k e H. destruct (Hin k e H) as [Hk Hgone]. split; [exact Hk|now left].
Qed.

(** Whether the statement holds of a call depends on the call through
    [stored] and [stores_under] only. *)
Lemma removals_reported_ext (op op' : Call T) (c c' : Cache T) :
  stored c op = stored c op' ->
  (forall k, stores_under k op -> stores_under k op') ->
  removals_reported op c c' -> removals_reported op' c c'.
Proof.
  intros Hst Hsu [Ho [more [Hc H]]]. split; [exact Ho|]. exists more.
  split; [exact Hc|]. destruct (onEvict (options c)); [|exact H].
  destruct H as [Hs [Hnd Hin]]. rewrite <- Hst.
  split; [exact Hs|split; [exact Hnd|]].
  intros k e H. destruct (Hin k e H) as [Hk [Hgone|Hunder]].
  - split; [exact Hk|now left].
  - split; [exact Hk|right; now apply Hsu].
Qed.

(** [getOrSet] on an entry that has expired, when the factory produces a
    value: the expired entry is deleted and reported, then [set] stores
    under the key, which is new by now, and may evict another entry. *)
Lemma getOrSet_expired_removals (c : Cache T) (key : jsstring)
  (entry : CacheEntry T) (data0 : Value T) (now_get now_set : Z) :
  NoDup (keys c) ->
  Map_get (cache c) key = Some entry ->
  isExpired c now_get entry = true ->
  removals_reported (CallGetOrSet key (Normal data0) now_get now_set) c
    (set (snd (delete c key)) key data0 now_set).
Proof.
  intros Hnd Hentry Hexp.
  pose proof (delete_NoDup T c key Hnd) as Hnd1.
  assert (Hgone : Map_get (cache (snd (delete c key))) key = None).
  { cbn [delete snd cache]. now apply Map_get_delete_same. }
  destruct (set_removed (snd (delete c key)) key data0 now_set Hnd1)
    as [more [Hc [Hs [Hn Hin]]]].
  assert (Hst : stored c (CallGetOrSet key (Normal data0) now_get now_set) = 1).
  { cbn [stored]. unfold get. rewrite Hentry, Hexp. cbn [fst snd].
    unfold Map_has. now rewrite Hgone. }
  apply (removals_reported_intro _ c _ ((key, entry) :: more)).
  - now rewrite set_options.
  - rewrite Hc. cbn [delete snd onEvict_calls options]. rewrite Hentry.
    destruct (onEvict (options c)); [now rewrite <- app_assoc|reflexivity].
  - assert (Hsize : size (snd (delete c key)) = size c - 1).
    { unfold size. cbn [delete snd cache]. rewrite Map_delete_length.
      unfold Map_has. now rewrite Hentry. }
    rewrite Hst. unfold Map_has in Hs. rewrite Hgone, Hsize in Hs.
    cbn [length]. lia.
  - cbn [map fst]. constructor; [|exact Hn].
    intros Hk. apply in_map_iff in Hk. destruct Hk as [[k e] [Hfst Hk]].
    cbn [fst] in Hfst. subst k. destruct (Hin key e Hk) as [Hsome _]. congruence.
  - intros k e [[= <- <-]|Hk].
    + split; [exact Hentry|right; reflexivity].
    + destruct (Hin k e Hk) as [Hsome Hnone]. split; [|now left].
      cbn [delete snd cache] in Hsome.
      destruct (list_eq_dec N.eq_dec key k) as [->|Hne].
      * rewrite Map_get_delete_same in Hsome by exact Hnd. discriminate.
      * now rewrite Map_get_delete_other in Hsome.
Qed.

Lemma getOrSet_removals (c : Cache T) (key : jsstring)
  (produced : Completion (Value T)) (now_get now_set : Z) :
  NoDup (keys c) ->
  removals_reported (CallGetOrSet key produced now_get now_set) c
    (call c (CallGetOrSet key produced now_get now_set)).
Proof.
  intros Hnd. cbn [call]. unfold getOrSet.
  destruct (Map_get (cache c) key) as [entry|] eqn:Hentry.
  - destruct (isExpired c now_get entry) eqn:Hexp.
    + assert (Hget : get c key now_get = (Undefined, snd (delete c key))).
      { unfold get. now rewrite Hentry, Hexp. }
      rewrite Hget. destruct produced as [data0|]; cbn [fst snd].
      * now apply getOrSet_expired_removals with (entry := entry).
      * apply delete_removals; [exact Hnd|]. cbn [stored]. now rewrite Hget.
    + assert (Hget : get c key now_get
                     = (data entry,
                        with_cache c (Map_set (cache c) key (hit entry)))).
      { unfold get. now rewrite Hentry, Hexp. }
      assert (Hhas : Map_has (Map_set (cache c) key (hit entry)) key = true).
      { unfold Map_has. now rewrite Map_get_set_same. }
      assert (Hsize : Map_size (Map_set (cache c) key (hit entry))
                      = Map_size (cache c)).
      { rewrite Map_set_length. unfold Map_has. now rewrite Hentry. }
      assert (Hst : stored c (CallGetOrSet key produced now_get now_set) = 0).
      { cbn [stored]. rewrite Hget. cbn [fst snd with_cache cache].
        rewrite Hhas. destruct (data entry); [destruct produced|]; reflexivity. }
      rewrite Hget.
      destruct (data entry) as [|v]; [destruct produced as [data0|]|];
        cbn [fst snd]; apply no_removals; rewrite ?Hst, ?set_options;
        try reflexivity.
      * unfold set. cbn [with_cache cache]. rewrite Hhas, andb_false_r.
        reflexivity.
      * unfold size. rewrite set_cache. cbn [with_cache cache].
        rewrite Hhas, andb_false_r. cbn [with_cache cache].
        rewrite Map_set_length, Hhas, Hsize. lia.
      * unfold size. cbn [with_cache cache]. rewrite Hsize. lia.
      * unfold size. cbn [with_cache cache]. rewrite Hsize. lia.
  - assert (Hget : get c key now_get = (Undefined, c)).
    { unfold get. now rewrite Hentry. }
    rewrite Hget. destruct produced as [data0|]; cbn [fst snd].
    + apply (removals_reported_ext (CallSet key data0 now_set)).
      * cbn [stored]. now rewrite Hget.
      * intros k H. exact H.
      * now apply set_removals.
    + apply no_removals; try reflexivity. cbn [stored]. rewrite Hget.
      cbn [fst]. lia.
Qed.

End CacheReports.

(** X8. Every entry a call removes from the store is passed to [onEvict],
    once, and nothing else is. Whatever the call, the options stay and the
    calls already made to [onEvict] stay, followed by the new ones; without
    a callback there are none. With a callback, the entries that left the
    store are as many as the new calls (the size after the call, plus the
    new calls, is the size before, plus one when the call stored under a key
    that had no entry at that moment); no key is reported twice; and what is
    reported under a key is the entry the store held under that key before
    the call, gone afterwards unless the call stored under that very key
    ([getOrSet] on an expired entry). *)
Theorem every_removal_is_reported :
  forall (T : Type) (c : QueryCache.Cache T) (op : QueryCache.Call T),
    NoDup (QueryCache.keys c) ->
    QueryCache.removals_reported op c (QueryCache.call c op).
Proof.
  intros T c op Hnd.
  destruct op as [key now|key data0 now|key now|key| |pattern|now
                 |key produced now_get now_set].
  - cbn [QueryCache.call]. now apply get_removals.
  - cbn [QueryCache.call]. now apply set_removals.
  - cbn [QueryCache.call]. unfold QueryCache.has.
    destruct (QueryCache.Map_get (QueryCache.cache c) key) as [entry|].
    + destruct (QueryCache.isExpired c now entry); [now apply delete_removals|].
      cbn [snd]. apply no_removals; try reflexivity. cbn [QueryCache.stored]. lia.
    + cbn [snd]. apply no_removals; try reflexivity. cbn [QueryCache.stored]. lia.
  - cbn [QueryCache.call]. now apply delete_removals.
  - cbn [QueryCache.call].
    apply (removals_reported_intro T _ c _ (QueryCache.cache c)).
    + reflexivity.
    + reflexivity.
    + unfold QueryCache.size, QueryCache.Map_size.
      cbn [QueryCache.clear QueryCache.cache QueryCache.stored length]. lia.
    + exact Hnd.
    + intros k e Hin. split; [now apply In_Map_get|now left].
  - cbn [QueryCache.call]. unfold QueryCache.invalidatePattern, QueryCache.keys.
    rewrite fold_left_over_map.
    rewrite (deleting_loop_whole T (fun kv => pattern (fst kv)) c Hnd).
    now apply filter_removals.
  - cbn [QueryCache.call]. unfold QueryCache.prune.
    rewrite (deleting_loop_whole T
               (fun kv => QueryCache.isExpired c now (snd kv)) c Hnd).
    now apply filter_removals.
  - now apply getOrSet_removals.
Qed.

(** A full store with a callback: [set] for a new key evicts [a] and
    reports it. *)
Lemma every_removal_is_reported_witness :
  QueryCache.removals_reported
    (QueryCache.CallSet (JS.lit "c") (CacheScenario.v "3") 30)
    CacheScenario.a_b_reporting
    (QueryCache.set CacheScenario.a_b_reporting (JS.lit "c") (CacheScenario.v "3") 30)
  /\ QueryCache.onEvict_calls
       (QueryCache.set CacheScenario.a_b_reporting (JS.lit "c")
          (CacheScenario.v "3") 30)
     = [(JS.lit "a",
         {| QueryCache.data := CacheScenario.v "1";
            QueryCache.timestamp := 10; QueryCache.hits := 0 |})].
Proof.
  split; [|reflexivity].
  apply (every_removal_is_reported JS.jsstring CacheScenario.a_b_reporting
           (QueryCache.CallSet (JS.lit "c") (CacheScenario.v "3") 30)).
  vm_compute. repeat constructor; simpl; intuition discriminate.
Defined.

(** ** The framer: what a message looks like, what stays in the buffer *)

Section TrimFacts.
Import JS MCPServer.

Lemma trimStart_suffix (s : jsstring) :
  exists pre, s = pre ++ trimStart s.
Proof.
  induction s as [|c s [pre IH]]; [now exists []|]. cbn [trimStart].
  destruct (isWhiteSpace c); [|now exists []].
  exists (c :: pre). cbn [app]. now rewrite <- IH.
Qed.

Lemma trimStart_head (s : jsstring) (c : codeunit) (rest : jsstring) :
  trimStart s = c :: rest -> isWhiteSpace c = false.
Proof.
  induction s as [|d s IH]; [discriminate|]. cbn [trimStart].
  destruct (isWhiteSpace d) eqn:E; [exact IH|]. now intros [= <- _].
Qed.

Lemma trimEnd_prefix (s : jsstring) : exists post, s = trimEnd s ++ post.
Proof.
  unfold trimEnd. destruct (trimStart_suffix (rev s)) as [pre Hpre].
  exists (rev pre). rewrite <- rev_app_distr, <- Hpre. now rewrite rev_involutive.
Qed.

Lemma trimEnd_last (s : jsstring) :
  trimEnd s <> [] -> isWhiteSpace (last (trimEnd s) 0%N) = false.
Proof.
  unfold trimEnd. destruct (trimStart (rev s)) as [|c rest] eqn:E;
    [intros H; now contradiction H|]. intros _.
  cbn [rev]. rewrite last_last. exact (trimStart_head (rev s) c rest E).
Qed.

Lemma trim_In (s : jsstring) (c : codeunit) : In c (trim s) -> In c s.
Proof.
  unfold trim. intros Hin.
  destruct (trimEnd_prefix (trimStart s)) as [post Hpost].
  destruct (trimStart_suffix s) as [pre Hpre].
  rewrite Hpre, Hpost. apply in_or_app. right. apply in_or_app. now left.
Qed.

Lemma trim_head (s : jsstring) :
  trim s <> [] -> isWhiteSpace (hd 0%N (trim s)) = false.
Proof.
  unfold trim. intros Hne.
  destruct (trimEnd_prefix (trimStart s)) as [post Hpost].
  destruct (trimEnd (trimStart s)) as [|c rest]; [now contradiction Hne|].
  cbn [hd]. cbn [app] in Hpost. exact (trimStart_head s c (rest ++ post) Hpost).
Qed.

(** No segment of [split] holds the separator. *)
Lemma split_segments_no_sep (sep : codeunit) (s seg : jsstring) :
  In seg (split sep s) -> ~ In sep seg.
Proof.
  revert seg. induction s as [|c s IH]; intros seg.
  - simpl. intros [<-|[]]. intros [].
  - destruct (N.eqb c sep) eqn:Hc.
    + rewrite (split_cons_sep sep c s Hc). intros [<-|Hin]; [simpl; tauto|].
      now apply IH.
    + rewrite (split_cons_other sep c s Hc).
      pose proof (split_not_nil sep s) as Hne.
      destruct (split sep s) as [|seg0 segs] eqn:E; [congruence|].
      cbn [hd tl]. intros [<-|Hin].
      * intros [->|Hin]; [now rewrite N.eqb_refl in Hc|].
        apply (IH seg0); [now left|exact Hin].
      * apply IH. now right.
Qed.

Lemma In_removelast (A : Type) (l : list A) (x : A) :
  In x (removelast l) -> In x l.
Proof.
  induction l as [|a l IH]; [simpl; tauto|]. cbn [removelast].
  destruct l as [|b l]; [simpl; tauto|].
  intros [<-|Hin]; [now left|right; now apply IH].
Qed.

Lemma split_first_segment (sep : codeunit) (t rest : jsstring) :
  ~ In sep t -> split sep (t ++ sep :: rest) = t :: split sep rest.
Proof.
  induction t as [|c t IH]; intros Ht.
  - cbn [app]. apply split_cons_sep, N.eqb_refl.
  - assert (Hc : N.eqb c sep = false).
    { apply N.eqb_neq. intros ->. apply Ht. now left. }
    cbn [app]. rewrite (split_cons_other sep c _ Hc), IH; [reflexivity|].
    intros Hin. apply Ht. now right.
Qed.

(** Splitting at a separator splits the list of segments. *)
Lemma split_at_sep (sep : codeunit) (x y : jsstring) :
  split sep (x ++ sep :: y) = split sep x ++ split sep y.
Proof.
  rewrite split_app, (split_first_segment sep _ y (last_split_no_sep sep x)).
  pose proof (split_not_nil sep x) as Hne.
  rewrite (app_removelast_last [] Hne) at 3.
  now rewrite <- app_assoc.
Qed.

End TrimFacts.

(** X9. Every message [parseMessages] hands on is non-empty, holds no
    newline, and neither begins nor ends with a whitespace character. *)
Theorem parsed_messages_are_trimmed_lines :
  forall (buffer message : JS.jsstring),
    In message (MCPServer.parsed (MCPServer.parseMessages buffer)) ->
    message <> []
    /\ ~ In JS.LF message
    /\ JS.isWhiteSpace (hd 0%N message) = false
    /\ JS.isWhiteSpace (last message 0%N) = false.
Proof.
  intros buffer message Hin.
  rewrite parseMessages_split in Hin. cbn [MCPServer.parsed] in Hin.
  unfold MCPServer.messages_of in Hin. apply filter_In in Hin.
  destruct Hin as [Hin Htruthy]. apply in_map_iff in Hin.
  destruct Hin as [segment [<- Hseg]].
  assert (Hne : JS.trim segment <> []).
  { intros H. rewrite H in Htruthy. discriminate. }
  split; [exact Hne|]. split; [|split].
  - intros HLF. apply trim_In in HLF.
    apply In_removelast in Hseg.
    exact (split_segments_no_sep JS.LF buffer segment Hseg HLF).
  - now apply trim_head.
  - unfold JS.trim in *. now apply trimEnd_last.
Qed.

Lemma parsed_messages_are_trimmed_lines_witness :
  JS.lit "ab" <> []
  /\ ~ In JS.LF (JS.lit "ab")
  /\ JS.isWhiteSpace (hd 0%N (JS.lit "ab")) = false
  /\ JS.isWhiteSpace (last (JS.lit "ab") 0%N) = false.
Proof.
  apply (parsed_messages_are_trimmed_lines Scenario.text (JS.lit "ab")).
  vm_compute. tauto.
Defined.

(** X10. The buffer keeps exactly what follows the last newline: a buffer
    without newline yields no message and stays whole, and of a buffer with
    a newline the messages are the non-empty trimmed lines up to the last
    newline and the remainder is what comes after it. *)
Theorem remainder_is_the_open_line :
  forall (closed open : JS.jsstring),
    ~ In JS.LF open ->
    MCPServer.parseMessages open
    = {| MCPServer.parsed := []; MCPServer.remaining := open |}
    /\ MCPServer.parseMessages (closed ++ JS.LF :: open)
       = {| MCPServer.parsed := MCPServer.text_lines (closed ++ [JS.LF]);
            MCPServer.remaining := open |}.
Proof.
  intros closed open Hopen. split.
  - rewrite parseMessages_split, (split_no_sep JS.LF open Hopen). reflexivity.
  - rewrite parseMessages_split, split_at_sep, (split_no_sep JS.LF open Hopen).
    rewrite removelast_last, last_last.
    unfold MCPServer.text_lines.
    rewrite terminated_lines_split, split_at_sep. cbn [JS.split].
    now rewrite removelast_last.
Qed.

Lemma remainder_is_the_open_line_witness :
  MCPServer.parseMessages (JS.lit " ab" ++ JS.LF :: JS.lit "cd")
  = {| MCPServer.parsed := [JS.lit "ab"]; MCPServer.remaining := JS.lit "cd" |}.
Proof.
  refine (proj2 (remainder_is_the_open_line (JS.lit " ab") (JS.lit "cd") _)).
  vm_compute. intuition discriminate.
Defined.

(** ** The transports over whole runs *)

Section RunFacts.
Import JS MCP MCPServer.

Variables Json MCPRequest : Type.
Variable JSON_parse : jsstring -> option MCPRequest.
Variable handleRequest : MCPRequest -> Completion (MCPResponse Json).
Variable JSON_stringify : MCPResponse Json -> jsstring.
Variable PARSE_ERROR : Z.

Local Abbreviation answer :=
  (fun message =>
     line JSON_stringify (reply JSON_parse handleRequest PARSE_ERROR message)).

Lemma feed_cons (buffer chunk : jsstring) (rest : list jsstring) :
  feed buffer (chunk :: rest) =
  (parsed (parseMessages (buffer ++ chunk))
   ++ fst (feed (remaining (parseMessages (buffer ++ chunk))) rest),
   snd (feed (remaining (parseMessages (buffer ++ chunk))) rest)).
Proof.
  cbn [feed]. now destruct (feed (remaining (parseMessages (buffer ++ chunk))) rest).
Qed.

(** A connection fed byte chunks is the framer fed their decodings, each
    message answered in turn. *)
Lemma handleConnection_run_feed (chunks : list (list byte)) (conn : Connection) :
  socket (handleConnection_run JSON_parse handleRequest JSON_stringify
            PARSE_ERROR conn chunks)
  = socket conn
    ++ map answer (fst (feed (buffer conn) (map Utf8.Buffer_toString chunks)))
  /\ buffer (handleConnection_run JSON_parse handleRequest JSON_stringify
               PARSE_ERROR conn chunks)
     = snd (feed (buffer conn) (map Utf8.Buffer_toString chunks)).
Proof.
  revert conn. induction chunks as [|data rest IH]; intros conn.
  - cbn. now rewrite app_nil_r.
  - cbn [handleConnection_run map]. rewrite feed_cons. cbn [fst snd].
    destruct (IH (snd (handleConnection_data JSON_parse handleRequest
                         JSON_stringify PARSE_ERROR conn data))) as [Hs Hb].
    rewrite Hs, Hb, handleConnection_data_closed, parseMessages_split.
    cbn [snd socket buffer parsed remaining].
    now rewrite map_app, app_assoc.
Qed.

Lemma run_app (a b : list byte) (st : Utf8.State) :
  Utf8.run st (a ++ b)
  = (fst (Utf8.run st a) ++ fst (Utf8.run (snd (Utf8.run st a)) b),
     snd (Utf8.run (snd (Utf8.run st a)) b)).
Proof.
  revert st. induction a as [|x a IH]; intros st.
  - cbn [app Utf8.run fst snd]. now destruct (Utf8.run st b).
  - cbn [app]. rewrite !run_cons, IH. cbn [fst snd]. now rewrite app_assoc.
Qed.

(** What a stream decoder hands out over the chunks is, put together, the
    decoding of the bytes put together. *)
Lemma StringDecoder_chunks_concat (chunks : list (list byte)) (st : Utf8.State) :
  concat (Utf8.StringDecoder_chunks st chunks) = fst (Utf8.run st (concat chunks)).
Proof.
  revert st. induction chunks as [|data rest IH]; intros st; [reflexivity|].
  cbn [Utf8.StringDecoder_chunks concat]. rewrite run_app, IH. reflexivity.
Qed.

Lemma startStdio_run_feed (chunks : list (list byte)) (p : Stdio) :
  stdout (startStdio_run JSON_parse handleRequest JSON_stringify PARSE_ERROR
            p chunks)
  = stdout p
    ++ map answer
         (fst (feed (stdio_buffer p)
                 (Utf8.StringDecoder_chunks (decoder p) chunks))).
Proof.
  revert p. induction chunks as [|data rest IH]; intros p.
  - cbn. now rewrite app_nil_r.
  - cbn [startStdio_run Utf8.StringDecoder_chunks]. rewrite feed_cons.
    cbn [fst]. rewrite IH. unfold startStdio_bytes.
    destruct (Utf8.StringDecoder_write (decoder p) data) as [chunk dec].
    rewrite startStdio_data_closed, parseMessages_split.
    cbn [fst snd stdout stdio_buffer decoder parsed remaining].
    now rewrite map_app, app_assoc.
Qed.

End RunFacts.

(** ** The listeners under every order of events *)

Section ListenerFacts.
Import JS MCP MCPServer.

Variables Json MCPRequest : Type.
Variable JSON_parse : jsstring -> option MCPRequest.
Variable JSON_stringify : MCPResponse Json -> jsstring.
Variable PARSE_ERROR : Z.

Local Abbreviation error_line :=
  (line JSON_stringify (errorResponse Json PARSE_ERROR)).
Local Abbreviation Listener := (Listeners.Listener MCPRequest).

Lemma waiting_app (a b : list Listener) :
  Listeners.waiting (a ++ b) = Listeners.waiting a + Listeners.waiting b.
Proof. induction a as [|l a IH]; cbn [app Listeners.waiting]; lia. Qed.

Lemma stdin_waiting_app (a b : list Listener) :
  Listeners.stdin_waiting (a ++ b)
  = Listeners.stdin_waiting a + Listeners.stdin_waiting b.
Proof. induction a as [|l a IH]; cbn [app Listeners.stdin_waiting]; lia. Qed.

(** A list around its [i]-th element. *)
Lemma nth_error_around (A : Type) (l : list A) (i : nat) (x : A) :
  nth_error l i = Some x -> l = firstn i l ++ x :: skipn (S i) l.
Proof.
  revert i. induction l as [|a l IH]; intros [|i]; cbn; try discriminate.
  - now intros [= ->].
  - intros H. f_equal. now apply IH.
Qed.

(** The loop of [handleConnection] answers the messages it passes and
    leaves the others to the suspended call. *)
Lemma handleConnection_loop_counts (messages : list jsstring) (out : Channel) :
  length (fst (Listeners.handleConnection_loop JSON_parse JSON_stringify
                 PARSE_ERROR messages out))
  + Listeners.waiting
      (Listeners.still_suspended
         (snd (Listeners.handleConnection_loop JSON_parse JSON_stringify
                 PARSE_ERROR messages out)))
  = length out + length messages.
Proof.
  revert out. induction messages as [|m rest IH]; intros out.
  - cbn. lia.
  - cbn [Listeners.handleConnection_loop]. destruct (JSON_parse m) as [request|].
    + cbn. lia.
    + rewrite IH, length_app. cbn [length]. lia.
Qed.

Lemma handleConnection_loop_writes (messages : list jsstring) (out : Channel) :
  exists n,
    fst (Listeners.handleConnection_loop JSON_parse JSON_stringify
           PARSE_ERROR messages out)
    = out ++ repeat error_line n.
Proof.
  revert out. induction messages as [|m rest IH]; intros out.
  - exists 0. cbn. now rewrite app_nil_r.
  - cbn [Listeners.handleConnection_loop]. destruct (JSON_parse m) as [request|].
    + exists 0. cbn. now rewrite app_nil_r.
    + destruct (IH (out ++ [error_line])) as [n Hn]. exists (S n).
      rewrite Hn, <- app_assoc. reflexivity.
Qed.

Lemma startStdio_loop_counts (lines : list jsstring) (out : Channel) :
  length (fst (Listeners.startStdio_loop JSON_parse JSON_stringify
                 PARSE_ERROR lines out))
  + Listeners.stdin_waiting
      (Listeners.still_suspended
         (snd (Listeners.startStdio_loop JSON_parse JSON_stringify
                 PARSE_ERROR lines out)))
  = length out + length (messages_of lines).
Proof.
  revert out. induction lines as [|l rest IH]; intros out.
  - cbn. lia.
  - cbn [Listeners.startStdio_loop]. unfold messages_of. cbn [map filter].
    fold (messages_of rest).
    destruct (truthy (trim l)); cbn [negb].
    + destruct (JSON_parse (trim l)) as [request|].
      * cbn. fold (messages_of rest). lia.
      * rewrite IH, length_app. cbn [length]. lia.
    + apply IH.
Qed.

Lemma startStdio_loop_writes (lines : list jsstring) (out : Channel) :
  exists n,
    fst (Listeners.startStdio_loop JSON_parse JSON_stringify
           PARSE_ERROR lines out)
    = out ++ repeat error_line n.
Proof.
  revert out. induction lines as [|l rest IH]; intros out.
  - exists 0. cbn. now rewrite app_nil_r.
  - cbn [Listeners.startStdio_loop].
    destruct (truthy (trim l)); cbn [negb]; [|apply IH].
    destruct (JSON_parse (trim l)) as [request|].
    + exists 0. cbn. now rewrite app_nil_r.
    + destruct (IH (out ++ [error_line])) as [n Hn]. exists (S n).
      rewrite Hn, <- app_assoc. reflexivity.
Qed.

(** One event on a connection: the lines written and the messages waiting
    grow together by the messages of the chunk. *)
Lemma connection_data_counts (conn : Listeners.Connection MCPRequest)
  (data : list byte) :
  let conn' := Listeners.connection_data JSON_parse JSON_stringify PARSE_ERROR
                 conn data in
  let messages :=
    parseMessages (Listeners.buffer conn ++ Utf8.Buffer_toString data) in
  length (Listeners.socket conn') + Listeners.waiting (Listeners.suspended conn')
  = length (Listeners.socket conn) + Listeners.waiting (Listeners.suspended conn)
    + length (parsed messages)
  /\ Listeners.buffer conn' = remaining messages.
Proof.
  cbv zeta. unfold Listeners.connection_data.
  pose proof (handleConnection_loop_counts
                (parsed (parseMessages
                           (Listeners.buffer conn ++ Utf8.Buffer_toString data)))
                (Listeners.socket conn)) as H.
  destruct (Listeners.handleConnection_loop JSON_parse JSON_stringify PARSE_ERROR
              (parsed (parseMessages
                         (Listeners.buffer conn ++ Utf8.Buffer_toString data)))
              (Listeners.socket conn)) as [out l].
  cbn [fst snd Listeners.socket Listeners.suspended Listeners.buffer] in *.
  rewrite waiting_app. split; [lia|reflexivity].
Qed.

Lemma waiting_resumed (suspended : list Listener) (i : nat) (l : Listener)
  (l' : option Listener) :
  nth_error suspended i = Some l ->
  Listeners.waiting (Listeners.resumed suspended i l')
  + S (length (Listeners.to_come l))
  = Listeners.waiting suspended
    + Listeners.waiting (Listeners.still_suspended l').
Proof.
  intros H. unfold Listeners.resumed.
  rewrite (nth_error_around _ _ _ _ H) at 3.
  rewrite !waiting_app. cbn [Listeners.waiting]. lia.
Qed.

Lemma connection_settled_counts (conn : Listeners.Connection MCPRequest)
  (i : nat) (outcome : Listeners.Outcome Json) :
  let conn' := Listeners.connection_settled JSON_parse JSON_stringify
                 PARSE_ERROR conn i outcome in
  length (Listeners.socket conn') + Listeners.waiting (Listeners.suspended conn')
  = length (Listeners.socket conn) + Listeners.waiting (Listeners.suspended conn)
  /\ Listeners.buffer conn' = Listeners.buffer conn.
Proof.
  cbv zeta. unfold Listeners.connection_settled.
  destruct (nth_error (Listeners.suspended conn) i) as [l|] eqn:E;
    [|split; reflexivity].
  pose proof (handleConnection_loop_counts (Listeners.to_come l)
                (Listeners.socket conn
                 ++ [Listeners.settled_line JSON_stringify PARSE_ERROR outcome]))
    as H.
  destruct (Listeners.handleConnection_loop JSON_parse JSON_stringify PARSE_ERROR
              (Listeners.to_come l)
              (Listeners.socket conn
               ++ [Listeners.settled_line JSON_stringify PARSE_ERROR outcome]))
    as [out l'].
  cbn [fst snd Listeners.socket Listeners.suspended Listeners.buffer] in *.
  rewrite length_app in H. cbn [length] in H.
  pose proof (waiting_resumed _ _ _ l' E). split; [lia|reflexivity].
Qed.

Lemma connection_run_counts (events : list (Listeners.Event Json))
  (conn : Listeners.Connection MCPRequest) :
  let conn' := Listeners.connection_run JSON_parse JSON_stringify PARSE_ERROR
                 conn events in
  let fed := feed (Listeners.buffer conn)
               (map Utf8.Buffer_toString (Listeners.chunks_of events)) in
  length (Listeners.socket conn') + Listeners.waiting (Listeners.suspended conn')
  = length (Listeners.socket conn) + Listeners.waiting (Listeners.suspended conn)
    + length (fst fed)
  /\ Listeners.buffer conn' = snd fed.
Proof.
  cbv zeta. revert conn. induction events as [|event events IH]; intros conn.
  - cbn. split; [lia|reflexivity].
  - unfold Listeners.connection_run in *. cbn [fold_left].
    destruct event as [data|i outcome];
      cbn [Listeners.connection_step Listeners.chunks_of map].
    + destruct (connection_data_counts conn data) as [Hc Hb].
      destruct (IH (Listeners.connection_data JSON_parse JSON_stringify
                      PARSE_ERROR conn data)) as [IHc IHb].
      rewrite feed_cons. cbn [fst snd]. rewrite length_app.
      rewrite Hb in IHc, IHb. split; [lia|exact IHb].
    + destruct (connection_settled_counts conn i outcome) as [Hc Hb].
      destruct (IH (Listeners.connection_settled JSON_parse JSON_stringify
                      PARSE_ERROR conn i outcome)) as [IHc IHb].
      rewrite Hb in IHc, IHb. split; [lia|exact IHb].
Qed.


(** The lines a run writes are error responses and the responses the
    handler's promises were fulfilled with. *)
Lemma connection_run_writes (events : list (Listeners.Event Json))
  (conn : Listeners.Connection MCPRequest) :
  incl (Listeners.socket
          (Listeners.connection_run JSON_parse JSON_stringify PARSE_ERROR
             conn events))
       (Listeners.socket conn
        ++ error_line :: map (line JSON_stringify) (Listeners.fulfilled events)).
Proof.
  revert conn. induction events as [|event events IH]; intros conn.
  - cbn. apply incl_appl, incl_refl.
  - unfold Listeners.connection_run in *. cbn [fold_left].
    eapply incl_tran; [apply IH|].
    destruct event as [data|i outcome]; cbn [Listeners.connection_step].
    + unfold Listeners.connection_data.
      destruct (handleConnection_loop_writes
                  (parsed (parseMessages
                             (Listeners.buffer conn ++ Utf8.Buffer_toString data)))
                  (Listeners.socket conn)) as [n Hn].
      destruct (Listeners.handleConnection_loop JSON_parse JSON_stringify
                  PARSE_ERROR
                  (parsed (parseMessages
                             (Listeners.buffer conn ++ Utf8.Buffer_toString data)))
                  (Listeners.socket conn)) as [out l].
      cbn [fst Listeners.socket Listeners.fulfilled] in *. subst out.
      intros x Hx. apply in_app_or in Hx. destruct Hx as [Hx|Hx].
      * apply in_app_or in Hx. destruct Hx as [Hx|Hx].
        -- apply in_or_app. now left.
        -- apply repeat_spec in Hx. subst x. apply in_or_app. right. now left.
      * apply in_or_app. now right.
    + unfold Listeners.connection_settled.
      assert (Hrest :
        incl (error_line
              :: map (line JSON_stringify) (Listeners.fulfilled events))
             (Listeners.socket conn
              ++ error_line
                 :: map (line JSON_stringify)
                      (Listeners.fulfilled (Listeners.Settled i outcome :: events)))).
      { intros x [Hx|Hx]; apply in_or_app; right; [now left|right].
        destruct outcome; cbn [Listeners.fulfilled map]; [now right|exact Hx]. }
      destruct (nth_error (Listeners.suspended conn) i) as [l|].
      * destruct (handleConnection_loop_writes (Listeners.to_come l)
                    (Listeners.socket conn
                     ++ [Listeners.settled_line JSON_stringify PARSE_ERROR
                           outcome])) as [n Hn].
        destruct (Listeners.handleConnection_loop JSON_parse JSON_stringify
                    PARSE_ERROR (Listeners.to_come l)
                    (Listeners.socket conn
                     ++ [Listeners.settled_line JSON_stringify PARSE_ERROR
                           outcome])) as [out l'].
        cbn [fst Listeners.socket] in *. subst out.
        intros x Hx. apply in_app_or in Hx. destruct Hx as [Hx|Hx];
          [|now apply Hrest].
        apply in_app_or in Hx. destruct Hx as [Hx|Hx].
        -- apply in_app_or in Hx. destruct Hx as [Hx|[<-|[]]].
           ++ apply in_or_app. now left.
           ++ apply in_or_app. right.
              destruct outcome; cbn [Listeners.settled_line Listeners.fulfilled map].
              ** right. now left.
              ** now left.
        -- apply repeat_spec in Hx. subst x. apply in_or_app. right. now left.
      * intros x Hx. apply in_app_or in Hx. destruct Hx as [Hx|Hx];
          [apply in_or_app; now left|now apply Hrest].
Qed.

(** The messages the framer hands on and the buffer it keeps, read off the
    text received. *)
Lemma feed_text_lines (chunks : list jsstring) :
  feed [] chunks
  = (text_lines (concat chunks), last (split LF (concat chunks)) []).
Proof.
  rewrite feed_concat by (intros []). cbn [app].
  unfold text_lines. now rewrite terminated_lines_split.
Qed.


Lemma stdin_waiting_resumed (suspended : list Listener) (i : nat) (l : Listener)
  (l' : option Listener) :
  nth_error suspended i = Some l ->
  Listeners.stdin_waiting (Listeners.resumed suspended i l')
  + S (length (messages_of (Listeners.to_come l)))
  = Listeners.stdin_waiting suspended
    + Listeners.stdin_waiting (Listeners.still_suspended l').
Proof.
  intros H. unfold Listeners.resumed.
  rewrite (nth_error_around _ _ _ _ H) at 3.
  rewrite !stdin_waiting_app. cbn [Listeners.stdin_waiting]. lia.
Qed.

(** The ['data'] listener of standard input in closed form, up to its
    first [await]. *)
Lemma stdin_data_closed (p : Listeners.Process MCPRequest) (data : list byte) :
  Listeners.stdin_data JSON_parse JSON_stringify PARSE_ERROR p data
  = let chunk := fst (Utf8.StringDecoder_write (Listeners.decoder p) data) in
    let messages := parseMessages (Listeners.stdin_buffer p ++ chunk) in
    let run :=
      Listeners.startStdio_loop JSON_parse JSON_stringify PARSE_ERROR
        (removelast (split LF (Listeners.stdin_buffer p ++ chunk)))
        (Listeners.stdout p) in
    {| Listeners.stdin_buffer := remaining messages;
       Listeners.stdout := fst run;
       Listeners.decoder :=
         snd (Utf8.StringDecoder_write (Listeners.decoder p) data);
       Listeners.stdin_suspended :=
         Listeners.stdin_suspended p ++ Listeners.still_suspended (snd run);
       Listeners.exited := false |}.
Proof.
  unfold Listeners.stdin_data. cbv zeta.
  destruct (Utf8.StringDecoder_write (Listeners.decoder p) data) as [chunk dec].
  cbn [fst snd].
  rewrite (pop_not_nil jsstring _ []
             (split_not_nil LF (Listeners.stdin_buffer p ++ chunk))).
  rewrite parseMessages_split. cbn [remaining]. rewrite or_empty_Some.
  now destruct (Listeners.startStdio_loop JSON_parse JSON_stringify PARSE_ERROR
                  (removelast (split LF (Listeners.stdin_buffer p ++ chunk)))
                  (Listeners.stdout p)).
Qed.

Lemma stdin_run_exited (events : list (Listeners.StdinEvent Json))
  (p : Listeners.Process MCPRequest) :
  Listeners.exited p = true ->
  Listeners.stdin_run JSON_parse JSON_stringify PARSE_ERROR p events = p.
Proof.
  intros Hp. induction events as [|event events IH]; [reflexivity|].
  unfold Listeners.stdin_run in *. cbn [fold_left].
  unfold Listeners.stdin_step at 2. now rewrite Hp.
Qed.

Lemma stdin_settled_counts (p : Listeners.Process MCPRequest)
  (i : nat) (outcome : Listeners.Outcome Json) :
  Listeners.exited p = false ->
  let p' := Listeners.stdin_settled JSON_parse JSON_stringify PARSE_ERROR
              p i outcome in
  length (Listeners.stdout p')
  + Listeners.stdin_waiting (Listeners.stdin_suspended p')
  = length (Listeners.stdout p)
    + Listeners.stdin_waiting (Listeners.stdin_suspended p)
  /\ Listeners.stdin_buffer p' = Listeners.stdin_buffer p
  /\ Listeners.decoder p' = Listeners.decoder p
  /\ Listeners.exited p' = false.
Proof.
  intros Hp. cbv zeta. unfold Listeners.stdin_settled.
  destruct (nth_error (Listeners.stdin_suspended p) i) as [l|] eqn:E;
    [|now repeat split].
  pose proof (startStdio_loop_counts (Listeners.to_come l)
                (Listeners.stdout p
                 ++ [Listeners.settled_line JSON_stringify PARSE_ERROR outcome]))
    as H.
  destruct (Listeners.startStdio_loop JSON_parse JSON_stringify PARSE_ERROR
              (Listeners.to_come l)
              (Listeners.stdout p
               ++ [Listeners.settled_line JSON_stringify PARSE_ERROR outcome]))
    as [out l'].
  cbn [fst snd Listeners.stdout Listeners.stdin_suspended Listeners.stdin_buffer
         Listeners.decoder Listeners.exited] in *.
  rewrite length_app in H. cbn [length] in H.
  pose proof (stdin_waiting_resumed _ _ _ l' E).
  repeat split. lia.
Qed.

Lemma stdin_run_counts (events : list (Listeners.StdinEvent Json))
  (p : Listeners.Process MCPRequest) :
  Listeners.exited p = false ->
  let p' := Listeners.stdin_run JSON_parse JSON_stringify PARSE_ERROR p events in
  let fed := feed (Listeners.stdin_buffer p)
               (Utf8.StringDecoder_chunks (Listeners.decoder p)
                  (Listeners.stdin_chunks events)) in
  length (Listeners.stdout p')
  + Listeners.stdin_waiting (Listeners.stdin_suspended p')
  = length (Listeners.stdout p)
    + Listeners.stdin_waiting (Listeners.stdin_suspended p)
    + length (fst fed).
Proof.
  cbv zeta. revert p. induction events as [|event events IH]; intros p Hp.
  - cbn. lia.
  - change (Listeners.stdin_run JSON_parse JSON_stringify PARSE_ERROR p
              (event :: events))
      with (Listeners.stdin_run JSON_parse JSON_stringify PARSE_ERROR
              (Listeners.stdin_step JSON_parse JSON_stringify PARSE_ERROR p event)
              events).
    unfold Listeners.stdin_step. rewrite Hp.
    destruct event as [data|i outcome|];
      cbn [Listeners.stdin_chunks Utf8.StringDecoder_chunks].
    + rewrite IH by (now rewrite stdin_data_closed).
      rewrite stdin_data_closed. cbv zeta.
      cbn [Listeners.stdout Listeners.stdin_suspended Listeners.stdin_buffer
             Listeners.decoder].
      rewrite feed_cons. cbn [fst]. rewrite length_app.
      assert (Hparsed : forall text,
                 parsed (parseMessages text)
                 = messages_of (removelast (split LF text)))
        by (intros text; now rewrite parseMessages_split).
      rewrite Hparsed.
      pose proof (startStdio_loop_counts
                    (removelast
                       (split LF
                          (Listeners.stdin_buffer p
                           ++ fst (Utf8.StringDecoder_write
                                     (Listeners.decoder p) data))))
                    (Listeners.stdout p)) as H.
      rewrite stdin_waiting_app. lia.
    + destruct (stdin_settled_counts p i outcome Hp) as [Hc [Hb [Hd He]]].
      rewrite IH by exact He. rewrite Hb, Hd. lia.
    + rewrite stdin_run_exited by reflexivity. cbn. lia.
Qed.


Lemma stdin_run_writes (events : list (Listeners.StdinEvent Json))
  (p : Listeners.Process MCPRequest) :
  incl (Listeners.stdout
          (Listeners.stdin_run JSON_parse JSON_stringify PARSE_ERROR p events))
       (Listeners.stdout p
        ++ error_line
           :: map (line JSON_stringify) (Listeners.stdin_fulfilled events)).
Proof.
  revert p. induction events as [|event events IH]; intros p.
  - cbn. apply incl_appl, incl_refl.
  - change (Listeners.stdin_run JSON_parse JSON_stringify PARSE_ERROR p
              (event :: events))
      with (Listeners.stdin_run JSON_parse JSON_stringify PARSE_ERROR
              (Listeners.stdin_step JSON_parse JSON_stringify PARSE_ERROR p event)
              events).
    eapply incl_tran; [apply IH|].
    assert (Hrest :
      incl (error_line
            :: map (line JSON_stringify) (Listeners.stdin_fulfilled events))
           (Listeners.stdout p
            ++ error_line
               :: map (line JSON_stringify)
                    (Listeners.stdin_fulfilled (event :: events)))).
    { intros x [Hx|Hx]; apply in_or_app; right; [now left|right].
      destruct event as [data|i [response|]|];
        cbn [Listeners.stdin_fulfilled map]; solve [exact Hx|now right]. }
    assert (Hsame :
      incl (Listeners.stdout p
            ++ error_line
               :: map (line JSON_stringify) (Listeners.stdin_fulfilled events))
           (Listeners.stdout p
            ++ error_line
               :: map (line JSON_stringify)
                    (Listeners.stdin_fulfilled (event :: events)))).
    { intros x Hx. apply in_app_or in Hx. destruct Hx as [Hx|Hx];
        [apply in_or_app; now left|now apply Hrest]. }
    unfold Listeners.stdin_step. destruct (Listeners.exited p); [exact Hsame|].
    destruct event as [data|i outcome|]; [| |exact Hsame].
    + rewrite stdin_data_closed. cbv zeta. cbn [Listeners.stdout].
      destruct (startStdio_loop_writes
                  (removelast
                     (split LF
                        (Listeners.stdin_buffer p
                         ++ fst (Utf8.StringDecoder_write
                                   (Listeners.decoder p) data))))
                  (Listeners.stdout p)) as [n Hn].
      rewrite Hn.
      intros x Hx. apply in_app_or in Hx. destruct Hx as [Hx|Hx];
        [|now apply Hrest].
      apply in_app_or in Hx. destruct Hx as [Hx|Hx].
      * apply in_or_app. now left.
      * apply repeat_spec in Hx. subst x. apply in_or_app. right. now left.
    + unfold Listeners.stdin_settled.
      destruct (nth_error (Listeners.stdin_suspended p) i) as [l|];
        [|exact Hsame].
      destruct (startStdio_loop_writes (Listeners.to_come l)
                  (Listeners.stdout p
                   ++ [Listeners.settled_line JSON_stringify PARSE_ERROR
                         outcome])) as [n Hn].
      destruct (Listeners.startStdio_loop JSON_parse JSON_stringify
                  PARSE_ERROR (Listeners.to_come l)
                  (Listeners.stdout p
                   ++ [Listeners.settled_line JSON_stringify PARSE_ERROR
                         outcome])) as [out l'].
      cbn [fst Listeners.stdout] in *. subst out.
      intros x Hx. apply in_app_or in Hx. destruct Hx as [Hx|Hx];
        [|now apply Hrest].
      apply in_app_or in Hx. destruct Hx as [Hx|Hx].
      * apply in_app_or in Hx. destruct Hx as [Hx|[<-|[]]].
        -- apply in_or_app. now left.
        -- apply in_or_app. right.
           destruct outcome;
             cbn [Listeners.settled_line Listeners.stdin_fulfilled map].
           ++ right. now left.
           ++ now left.
      * apply repeat_spec in Hx. subst x. apply in_or_app. right. now left.
Qed.

(** After the end of input nothing is written. *)
Lemma stdin_run_after_end (events later : list (Listeners.StdinEvent Json))
  (p : Listeners.Process MCPRequest) :
  Listeners.stdout
    (Listeners.stdin_run JSON_parse JSON_stringify PARSE_ERROR p
       (events ++ Listeners.StdinEnd Json :: later))
  = Listeners.stdout
      (Listeners.stdin_run JSON_parse JSON_stringify PARSE_ERROR p events).
Proof.
  unfold Listeners.stdin_run. rewrite fold_left_app. cbn [fold_left].
  set (q := fold_left (Listeners.stdin_step JSON_parse JSON_stringify PARSE_ERROR)
              events p).
  fold (Listeners.stdin_run JSON_parse JSON_stringify PARSE_ERROR
          (Listeners.stdin_step JSON_parse JSON_stringify PARSE_ERROR q
             (Listeners.StdinEnd Json)) later).
  unfold Listeners.stdin_step. destruct (Listeners.exited q) eqn:E.
  - now rewrite stdin_run_exited.
  - now rewrite stdin_run_exited.
Qed.


(** *** Runs in which no two calls overlap *)

Variable handleRequest : MCPRequest -> Completion (MCPResponse Json).

Local Abbreviation answer :=
  (fun message =>
     line JSON_stringify (reply JSON_parse handleRequest PARSE_ERROR message)).

Lemma handleConnection_loop_waiting (messages : list jsstring) (out : Channel) :
  Listeners.waiting
    (Listeners.still_suspended
       (snd (Listeners.handleConnection_loop JSON_parse JSON_stringify
               PARSE_ERROR messages out)))
  <= length messages.
Proof.
  revert out. induction messages as [|m rest IH]; intros out; [cbn; lia|].
  cbn [Listeners.handleConnection_loop]. destruct (JSON_parse m).
  - cbn. lia.
  - specialize (IH (out ++ [error_line])). cbn [length]. lia.
Qed.

Lemma startStdio_loop_waiting (lines : list jsstring) (out : Channel) :
  Listeners.stdin_waiting
    (Listeners.still_suspended
       (snd (Listeners.startStdio_loop JSON_parse JSON_stringify
               PARSE_ERROR lines out)))
  <= length (messages_of lines).
Proof.
  pose proof (startStdio_loop_counts lines out) as Hc.
  destruct (startStdio_loop_writes lines out) as [n Hn].
  rewrite Hn, length_app in Hc. lia.
Qed.

Lemma connection_data_closed (conn : Listeners.Connection MCPRequest)
  (data : list byte) :
  Listeners.connection_data JSON_parse JSON_stringify PARSE_ERROR conn data
  = let messages :=
      parseMessages (Listeners.buffer conn ++ Utf8.Buffer_toString data) in
    let run :=
      Listeners.handleConnection_loop JSON_parse JSON_stringify PARSE_ERROR
        (parsed messages) (Listeners.socket conn) in
    {| Listeners.buffer := remaining messages;
       Listeners.socket := fst run;
       Listeners.suspended :=
         Listeners.suspended conn ++ Listeners.still_suspended (snd run) |}.
Proof.
  unfold Listeners.connection_data. cbv zeta.
  now destruct (Listeners.handleConnection_loop JSON_parse JSON_stringify
                  PARSE_ERROR
                  (parsed (parseMessages
                             (Listeners.buffer conn ++ Utf8.Buffer_toString data)))
                  (Listeners.socket conn)).
Qed.

(** Settling the promises of one call in turn writes the answers to its
    messages in order. *)
Lemma connection_settle_all_loop (messages : list jsstring) :
  forall (buffer0 : jsstring) (out : Channel) (fuel : nat),
    Listeners.waiting
      (Listeners.still_suspended
         (snd (Listeners.handleConnection_loop JSON_parse JSON_stringify
                 PARSE_ERROR messages out)))
    <= fuel ->
    Listeners.connection_settle_all JSON_parse JSON_stringify PARSE_ERROR
      handleRequest fuel
      {| Listeners.buffer := buffer0;
         Listeners.socket :=
           fst (Listeners.handleConnection_loop JSON_parse JSON_stringify
                  PARSE_ERROR messages out);
         Listeners.suspended :=
           Listeners.still_suspended
             (snd (Listeners.handleConnection_loop JSON_parse JSON_stringify
                     PARSE_ERROR messages out)) |}
    = {| Listeners.buffer := buffer0;
         Listeners.socket := out ++ map answer messages;
         Listeners.suspended := [] |}.
Proof.
  induction messages as [|m rest IH]; intros buffer0 out fuel Hfuel.
  - cbn [Listeners.handleConnection_loop fst snd Listeners.still_suspended map].
    rewrite app_nil_r. now destruct fuel.
  - cbn [Listeners.handleConnection_loop map] in *. unfold reply at 1.
    destruct (JSON_parse m) as [request|] eqn:E.
    + cbn [fst snd Listeners.still_suspended Listeners.waiting
             Listeners.to_come] in *.
      destruct fuel as [|fuel]; [lia|].
      cbn [Listeners.connection_settle_all Listeners.suspended Listeners.awaited].
      unfold Listeners.connection_settled.
      cbn [Listeners.suspended nth_error Listeners.to_come Listeners.socket
             Listeners.buffer].
      pose proof (handleConnection_loop_waiting rest
                    (out ++ [Listeners.settled_line JSON_stringify PARSE_ERROR
                               (handleRequest request)])) as Hw.
      specialize (IH buffer0
                    (out ++ [Listeners.settled_line JSON_stringify PARSE_ERROR
                               (handleRequest request)]) fuel).
      destruct (Listeners.handleConnection_loop JSON_parse JSON_stringify
                  PARSE_ERROR rest
                  (out ++ [Listeners.settled_line JSON_stringify PARSE_ERROR
                             (handleRequest request)])) as [out' l'].
      unfold Listeners.resumed. cbn [firstn skipn app fst snd] in *.
      rewrite app_nil_r, IH by lia. rewrite <- app_assoc.
      now destruct (handleRequest request).
    + rewrite IH by exact Hfuel. now rewrite <- app_assoc.
Qed.

Lemma connection_run_in_turn_closed (chunks : list (list byte)) :
  forall (conn : Listeners.Connection MCPRequest),
    Listeners.suspended conn = [] ->
    Listeners.connection_run_in_turn JSON_parse JSON_stringify PARSE_ERROR
      handleRequest conn chunks
    = {| Listeners.buffer :=
           buffer (handleConnection_run JSON_parse handleRequest JSON_stringify
                     PARSE_ERROR
                     {| buffer := Listeners.buffer conn;
                        socket := Listeners.socket conn |} chunks);
         Listeners.socket :=
           socket (handleConnection_run JSON_parse handleRequest JSON_stringify
                     PARSE_ERROR
                     {| buffer := Listeners.buffer conn;
                        socket := Listeners.socket conn |} chunks);
         Listeners.suspended := [] |}.
Proof.
  induction chunks as [|data rest IH]; intros conn Hconn.
  - cbn. destruct conn. cbn in *. now subst.
  - cbn [Listeners.connection_run_in_turn handleConnection_run].
    rewrite connection_data_closed. cbv zeta.
    cbn [Listeners.suspended Listeners.buffer Listeners.socket].
    rewrite Hconn. cbn [app].
    rewrite connection_settle_all_loop by lia.
    rewrite IH by reflexivity.
    rewrite handleConnection_data_closed, parseMessages_split.
    cbn [snd Listeners.buffer Listeners.socket buffer socket parsed remaining].
    reflexivity.
Qed.


Lemma stdin_settle_all_loop (lines : list jsstring) :
  forall (buffer0 : jsstring) (dec : Utf8.State) (out : Channel) (fuel : nat),
    Listeners.stdin_waiting
      (Listeners.still_suspended
         (snd (Listeners.startStdio_loop JSON_parse JSON_stringify
                 PARSE_ERROR lines out)))
    <= fuel ->
    Listeners.stdin_settle_all JSON_parse JSON_stringify PARSE_ERROR
      handleRequest fuel
      {| Listeners.stdin_buffer := buffer0;
         Listeners.stdout :=
           fst (Listeners.startStdio_loop JSON_parse JSON_stringify
                  PARSE_ERROR lines out);
         Listeners.decoder := dec;
         Listeners.stdin_suspended :=
           Listeners.still_suspended
             (snd (Listeners.startStdio_loop JSON_parse JSON_stringify
                     PARSE_ERROR lines out));
         Listeners.exited := false |}
    = {| Listeners.stdin_buffer := buffer0;
         Listeners.stdout := out ++ map answer (messages_of lines);
         Listeners.decoder := dec;
         Listeners.stdin_suspended := [];
         Listeners.exited := false |}.
Proof.
  induction lines as [|l rest IH]; intros buffer0 dec out fuel Hfuel.
  - cbn [Listeners.startStdio_loop fst snd Listeners.still_suspended map
           messages_of filter].
    rewrite app_nil_r. now destruct fuel.
  - cbn [Listeners.startStdio_loop] in *. unfold messages_of.
    cbn [map filter]. fold (messages_of rest).
    destruct (truthy (trim l)); cbn [negb] in *; [|now apply IH].
    cbn [map]. unfold reply at 1.
    destruct (JSON_parse (trim l)) as [request|] eqn:E.
    + cbn [fst snd Listeners.still_suspended Listeners.stdin_waiting
             Listeners.to_come] in *.
      destruct fuel as [|fuel]; [lia|].
      cbn [Listeners.stdin_settle_all Listeners.stdin_suspended
             Listeners.awaited].
      unfold Listeners.stdin_settled.
      cbn [Listeners.stdin_suspended nth_error Listeners.to_come
             Listeners.stdout Listeners.stdin_buffer Listeners.decoder].
      pose proof (startStdio_loop_waiting rest
                    (out ++ [Listeners.settled_line JSON_stringify PARSE_ERROR
                               (handleRequest request)])) as Hw.
      specialize (IH buffer0 dec
                    (out ++ [Listeners.settled_line JSON_stringify PARSE_ERROR
                               (handleRequest request)]) fuel).
      destruct (Listeners.startStdio_loop JSON_parse JSON_stringify
                  PARSE_ERROR rest
                  (out ++ [Listeners.settled_line JSON_stringify PARSE_ERROR
                             (handleRequest request)])) as [out' l'].
      unfold Listeners.resumed. cbn [firstn skipn app fst snd] in *.
      rewrite app_nil_r, IH by lia. rewrite <- app_assoc.
      now destruct (handleRequest request).
    + rewrite IH by exact Hfuel. now rewrite <- app_assoc.
Qed.

Lemma stdin_run_in_turn_closed (chunks : list (list byte)) :
  forall (p : Listeners.Process MCPRequest),
    Listeners.stdin_suspended p = [] ->
    Listeners.stdin_run_in_turn JSON_parse JSON_stringify PARSE_ERROR
      handleRequest p chunks
    = let q :=
        startStdio_run JSON_parse handleRequest JSON_stringify PARSE_ERROR
          {| stdio_buffer := Listeners.stdin_buffer p;
             stdout := Listeners.stdout p;
             decoder := Listeners.decoder p |} chunks in
      {| Listeners.stdin_buffer := stdio_buffer q;
         Listeners.stdout := stdout q;
         Listeners.decoder := decoder q;
         Listeners.stdin_suspended := [];
         Listeners.exited :=
           match chunks with [] => Listeners.exited p | _ :: _ => false end |}.
Proof.
  induction chunks as [|data rest IH]; intros p Hp.
  - cbn. destruct p. cbn in *. now subst.
  - cbn [Listeners.stdin_run_in_turn startStdio_run].
    rewrite stdin_data_closed. cbv zeta.
    cbn [Listeners.stdin_suspended Listeners.stdin_buffer Listeners.stdout
           Listeners.decoder].
    rewrite Hp. cbn [app].
    rewrite stdin_settle_all_loop by lia.
    rewrite IH by reflexivity. cbv zeta.
    cbn [Listeners.stdin_buffer Listeners.stdout Listeners.decoder
           Listeners.exited].
    unfold startStdio_bytes. cbn [stdio_buffer stdout decoder].
    destruct (Utf8.StringDecoder_write (Listeners.decoder p) data)
      as [chunk dec] eqn:Ew.
    rewrite startStdio_data_closed, parseMessages_split.
    cbn [fst snd stdio_buffer stdout decoder remaining].
    destruct rest; reflexivity.
Qed.


(** The runs in turn are runs: the events are the chunks, each followed by
    the settling of the promises it gave rise to. *)
Lemma connection_settle_all_run (fuel : nat)
  (conn : Listeners.Connection MCPRequest) :
  exists events : list (Listeners.Event Json),
    Listeners.chunks_of events = []
    /\ Listeners.connection_run JSON_parse JSON_stringify PARSE_ERROR conn events
       = Listeners.connection_settle_all JSON_parse JSON_stringify PARSE_ERROR
           handleRequest fuel conn.
Proof.
  revert conn. induction fuel as [|fuel IH]; intros conn.
  - exists []. split; reflexivity.
  - cbn [Listeners.connection_settle_all].
    destruct (Listeners.suspended conn) as [|l rest] eqn:E.
    + exists []. split; reflexivity.
    + destruct (IH (Listeners.connection_settled JSON_parse JSON_stringify
                      PARSE_ERROR conn 0 (handleRequest (Listeners.awaited l))))
        as [events [Hc Hr]].
      exists (Listeners.Settled 0 (handleRequest (Listeners.awaited l)) :: events).
      split; [exact Hc|exact Hr].
Qed.

Lemma chunks_of_app (a b : list (Listeners.Event Json)) :
  Listeners.chunks_of (a ++ b) = Listeners.chunks_of a ++ Listeners.chunks_of b.
Proof.
  induction a as [|[data|i outcome] a IH]; cbn [app Listeners.chunks_of];
    [reflexivity| |exact IH]. now rewrite IH.
Qed.

Lemma connection_run_in_turn_run (chunks : list (list byte))
  (conn : Listeners.Connection MCPRequest) :
  exists events : list (Listeners.Event Json),
    Listeners.chunks_of events = chunks
    /\ Listeners.connection_run JSON_parse JSON_stringify PARSE_ERROR conn events
       = Listeners.connection_run_in_turn JSON_parse JSON_stringify PARSE_ERROR
           handleRequest conn chunks.
Proof.
  revert conn. induction chunks as [|data rest IH]; intros conn.
  - exists []. split; reflexivity.
  - cbn [Listeners.connection_run_in_turn].
    set (conn' := Listeners.connection_data JSON_parse JSON_stringify
                    PARSE_ERROR conn data).
    destruct (connection_settle_all_run
                (Listeners.waiting (Listeners.suspended conn')) conn')
      as [settle [Hsc Hsr]].
    destruct (IH (Listeners.connection_settle_all JSON_parse JSON_stringify
                    PARSE_ERROR handleRequest
                    (Listeners.waiting (Listeners.suspended conn')) conn'))
      as [events [Hc Hr]].
    exists (Listeners.Data Json data :: settle ++ events). split.
    + cbn [Listeners.chunks_of]. now rewrite chunks_of_app, Hsc, Hc.
    + unfold Listeners.connection_run in *. cbn [fold_left].
      rewrite fold_left_app. fold conn'.
      cbn [Listeners.connection_step]. fold conn'. now rewrite Hsr.
Qed.

Lemma stdin_settled_not_exited (p : Listeners.Process MCPRequest) (i : nat)
  (outcome : Listeners.Outcome Json) :
  Listeners.exited p = false ->
  Listeners.exited
    (Listeners.stdin_settled JSON_parse JSON_stringify PARSE_ERROR p i outcome)
  = false.
Proof. intros Hp. now apply stdin_settled_counts. Qed.

Lemma stdin_settle_all_run (fuel : nat) (p : Listeners.Process MCPRequest) :
  Listeners.exited p = false ->
  exists events : list (Listeners.StdinEvent Json),
    Listeners.stdin_chunks events = []
    /\ (forall rest, Listeners.stdin_chunks (events ++ rest)
                     = Listeners.stdin_chunks rest)
    /\ Listeners.stdin_run JSON_parse JSON_stringify PARSE_ERROR p events
       = Listeners.stdin_settle_all JSON_parse JSON_stringify PARSE_ERROR
           handleRequest fuel p
    /\ Listeners.exited
         (Listeners.stdin_settle_all JSON_parse JSON_stringify PARSE_ERROR
            handleRequest fuel p) = false.
Proof.
  revert p. induction fuel as [|fuel IH]; intros p Hp.
  - exists []. now repeat split.
  - cbn [Listeners.stdin_settle_all].
    destruct (Listeners.stdin_suspended p) as [|l rest] eqn:E.
    + exists []. now repeat split.
    + destruct (IH (Listeners.stdin_settled JSON_parse JSON_stringify
                      PARSE_ERROR p 0 (handleRequest (Listeners.awaited l)))
                  (stdin_settled_not_exited p 0 _ Hp))
        as [events [Hc [Happ [Hr He]]]].
      exists (Listeners.StdinSettled 0 (handleRequest (Listeners.awaited l))
              :: events).
      split; [exact Hc|split; [exact Happ|split; [|exact He]]].
      unfold Listeners.stdin_run in *. cbn [fold_left].
      unfold Listeners.stdin_step at 2. now rewrite Hp.
Qed.

Lemma stdin_run_in_turn_run (chunks : list (list byte))
  (p : Listeners.Process MCPRequest) :
  Listeners.exited p = false ->
  exists events : list (Listeners.StdinEvent Json),
    Listeners.stdin_chunks events = chunks
    /\ Listeners.stdin_run JSON_parse JSON_stringify PARSE_ERROR p events
       = Listeners.stdin_run_in_turn JSON_parse JSON_stringify PARSE_ERROR
           handleRequest p chunks.
Proof.
  revert p. induction chunks as [|data rest IH]; intros p Hp.
  - exists []. split; reflexivity.
  - cbn [Listeners.stdin_run_in_turn].
    set (p' := Listeners.stdin_data JSON_parse JSON_stringify PARSE_ERROR p data).
    assert (Hp' : Listeners.exited p' = false)
      by (unfold p'; now rewrite stdin_data_closed).
    destruct (stdin_settle_all_run
                (Listeners.stdin_waiting (Listeners.stdin_suspended p')) p' Hp')
      as [settle [_ [Happ [Hsr Hse]]]].
    destruct (IH _ Hse) as [events [Hc Hr]].
    exists (Listeners.StdinData Json data :: settle ++ events). split.
    + cbn [Listeners.stdin_chunks]. now rewrite Happ, Hc.
    + unfold Listeners.stdin_run in *. cbn [fold_left].
      rewrite fold_left_app. unfold Listeners.stdin_step at 3. rewrite Hp.
      fold p'. now rewrite Hsr.
Qed.

End ListenerFacts.

(** ** The listeners: which message each line answers *)

Section ListenerAnswers.
Import JS MCP MCPServer.

Variables Json MCPRequest : Type.
Variable JSON_parse : jsstring -> option MCPRequest.
Variable JSON_stringify : MCPResponse Json -> jsstring.
Variable PARSE_ERROR : Z.

Local Abbreviation error_line :=
  (line JSON_stringify (errorResponse Json PARSE_ERROR)).
Local Abbreviation Listener := (Listeners.Listener MCPRequest).
Local Abbreviation answers :=
  (Listeners.answers JSON_parse JSON_stringify PARSE_ERROR).
Local Abbreviation parsed_ok :=
  (fun l : Listener =>
     JSON_parse (Listeners.message l) = Some (Listeners.awaited l)).

Lemma waiting_messages_app (a b : list Listener) :
  Listeners.waiting_messages (a ++ b)
  = Listeners.waiting_messages a ++ Listeners.waiting_messages b.
Proof. apply flat_map_app. Qed.

Lemma stdin_waiting_messages_app (a b : list Listener) :
  Listeners.stdin_waiting_messages (a ++ b)
  = Listeners.stdin_waiting_messages a ++ Listeners.stdin_waiting_messages b.
Proof. apply flat_map_app. Qed.

Lemma answers_more (responses responses' : list (MCPResponse Json))
  (m written : jsstring) :
  incl responses responses' ->
  answers responses m written -> answers responses' m written.
Proof.
  intros Hincl. unfold Listeners.answers. destruct (JSON_parse m); [|trivial].
  intros [H|[r [Hr H]]]; [now left|right]. exists r. split; [now apply Hincl|exact H].
Qed.

Lemma answered_more (responses responses' : list (MCPResponse Json))
  (answered written : list jsstring) :
  incl responses responses' ->
  Forall2 (answers responses) answered written ->
  Forall2 (answers responses') answered written.
Proof.
  intros Hincl H. induction H; constructor; [|assumption].
  now apply (answers_more responses).
Qed.

(** The loop of [handleConnection] up to its next [await]: the messages
    it passes are those [JSON.parse] rejects, each answered by the error
    response; the others wait in the suspended call. *)
Lemma handleConnection_loop_done (messages : list jsstring) (out : Channel) :
  exists done : list jsstring,
    messages
    = done
      ++ Listeners.waiting_messages
           (Listeners.still_suspended
              (snd (Listeners.handleConnection_loop JSON_parse JSON_stringify
                      PARSE_ERROR messages out)))
    /\ Forall parsed_ok
         (Listeners.still_suspended
            (snd (Listeners.handleConnection_loop JSON_parse JSON_stringify
                    PARSE_ERROR messages out)))
    /\ exists written : list jsstring,
         fst (Listeners.handleConnection_loop JSON_parse JSON_stringify
                PARSE_ERROR messages out)
         = out ++ written
         /\ forall responses, Forall2 (answers responses) done written.
Proof.
  revert out. induction messages as [|m rest IH]; intros out.
  - exists []. cbn. split; [reflexivity|split; [constructor|]].
    exists []. rewrite app_nil_r. split; [reflexivity|constructor].
  - cbn [Listeners.handleConnection_loop].
    destruct (JSON_parse m) as [request|] eqn:E.
    + exists []. cbn. rewrite app_nil_r. split; [reflexivity|].
      split; [now repeat constructor|].
      exists []. rewrite app_nil_r. split; [reflexivity|constructor].
    + destruct (IH (out ++ [error_line]))
        as [done [Hm [Hok [written [Hw Ha]]]]].
      exists (m :: done). split; [cbn [app]; now rewrite <- Hm|].
      split; [exact Hok|].
      exists (error_line :: written). rewrite Hw, <- app_assoc.
      split; [reflexivity|]. intros responses. constructor; [|apply Ha].
      unfold Listeners.answers. now rewrite E.
Qed.

Lemma startStdio_loop_done (lines : list jsstring) (out : Channel) :
  exists done : list jsstring,
    messages_of lines
    = done
      ++ Listeners.stdin_waiting_messages
           (Listeners.still_suspended
              (snd (Listeners.startStdio_loop JSON_parse JSON_stringify
                      PARSE_ERROR lines out)))
    /\ Forall parsed_ok
         (Listeners.still_suspended
            (snd (Listeners.startStdio_loop JSON_parse JSON_stringify
                    PARSE_ERROR lines out)))
    /\ exists written : list jsstring,
         fst (Listeners.startStdio_loop JSON_parse JSON_stringify
                PARSE_ERROR lines out)
         = out ++ written
         /\ forall responses, Forall2 (answers responses) done written.
Proof.
  revert out. induction lines as [|l rest IH]; intros out.
  - exists []. cbn. split; [reflexivity|split; [constructor|]].
    exists []. rewrite app_nil_r. split; [reflexivity|constructor].
  - cbn [Listeners.startStdio_loop]. unfold messages_of. cbn [map filter].
    fold (messages_of rest).
    destruct (truthy (trim l)); cbn [negb]; [|apply IH].
    destruct (JSON_parse (trim l)) as [request|] eqn:E.
    + exists []. cbn. rewrite app_nil_r. split; [reflexivity|].
      split; [now repeat constructor|].
      exists []. rewrite app_nil_r. split; [reflexivity|constructor].
    + destruct (IH (out ++ [error_line]))
        as [done [Hm [Hok [written [Hw Ha]]]]].
      exists (trim l :: done). split; [cbn [app]; now rewrite <- Hm|].
      split; [exact Hok|].
      exists (error_line :: written). rewrite Hw, <- app_assoc.
      split; [reflexivity|]. intros responses. constructor; [|apply Ha].
      unfold Listeners.answers. now rewrite E.
Qed.

Lemma Forall_firstn_skipn (A : Type) (P : A -> Prop) (l : list A) (n : nat) :
  Forall P l -> Forall P (firstn n l) /\ Forall P (skipn n l).
Proof.
  intros H. rewrite <- (firstn_skipn n l) in H. now apply Forall_app in H.
Qed.

Lemma Forall_resumed (P : Listener -> Prop) (suspended : list Listener)
  (i : nat) (l' : option Listener) :
  Forall P suspended ->
  Forall P (Listeners.still_suspended l') ->
  Forall P (Listeners.resumed suspended i l').
Proof.
  intros Hs Hl. unfold Listeners.resumed. apply Forall_app. split.
  - now apply Forall_firstn_skipn.
  - apply Forall_app. split; [exact Hl|]. now apply Forall_firstn_skipn.
Qed.

(** The messages waiting before and after the [i]-th suspended call has
    run on. *)
Lemma waiting_messages_resumed (suspended : list Listener) (i : nat)
  (l : Listener) (l' : option Listener) (done : list jsstring) :
  nth_error suspended i = Some l ->
  Listeners.to_come l
  = done ++ Listeners.waiting_messages (Listeners.still_suspended l') ->
  Permutation
    ((Listeners.message l :: done)
     ++ Listeners.waiting_messages (Listeners.resumed suspended i l'))
    (Listeners.waiting_messages suspended).
Proof.
  intros Hi Hdone. unfold Listeners.resumed.
  rewrite (nth_error_around _ _ _ _ Hi) at 3.
  rewrite !waiting_messages_app.
  change (Listeners.waiting_messages (l :: skipn (S i) suspended))
    with ((Listeners.message l :: Listeners.to_come l)
          ++ Listeners.waiting_messages (skipn (S i) suspended)).
  rewrite Hdone.
  rewrite Permutation_app_swap_app. apply Permutation_app_head.
  cbn [app]. constructor. rewrite <- !app_assoc. reflexivity.
Qed.

Lemma stdin_waiting_messages_resumed (suspended : list Listener) (i : nat)
  (l : Listener) (l' : option Listener) (done : list jsstring) :
  nth_error suspended i = Some l ->
  messages_of (Listeners.to_come l)
  = done ++ Listeners.stdin_waiting_messages (Listeners.still_suspended l') ->
  Permutation
    ((Listeners.message l :: done)
     ++ Listeners.stdin_waiting_messages (Listeners.resumed suspended i l'))
    (Listeners.stdin_waiting_messages suspended).
Proof.
  intros Hi Hdone. unfold Listeners.resumed.
  rewrite (nth_error_around _ _ _ _ Hi) at 3.
  rewrite !stdin_waiting_messages_app.
  change (Listeners.stdin_waiting_messages (l :: skipn (S i) suspended))
    with ((Listeners.message l :: messages_of (Listeners.to_come l))
          ++ Listeners.stdin_waiting_messages (skipn (S i) suspended)).
  rewrite Hdone.
  rewrite Permutation_app_swap_app. apply Permutation_app_head.
  cbn [app]. constructor. rewrite <- !app_assoc. reflexivity.
Qed.

(** One event keeps the account: what has been answered and what waits
    are together the messages received. *)
Lemma connection_step_answers (conn : Listeners.Connection MCPRequest)
  (event : Listeners.Event Json)
  (received answered : list jsstring) (responses : list (MCPResponse Json)) :
  Forall parsed_ok (Listeners.suspended conn) ->
  Permutation
    (answered ++ Listeners.waiting_messages (Listeners.suspended conn))
    received ->
  Forall2 (answers responses) answered (Listeners.socket conn) ->
  let conn' := Listeners.connection_step JSON_parse JSON_stringify PARSE_ERROR
                 conn event in
  Forall parsed_ok (Listeners.suspended conn')
  /\ exists answered' : list jsstring,
       Permutation
         (answered' ++ Listeners.waiting_messages (Listeners.suspended conn'))
         (received
          ++ fst (feed (Listeners.buffer conn)
                    (map Utf8.Buffer_toString (Listeners.chunks_of [event]))))
       /\ Forall2 (answers (responses ++ Listeners.fulfilled [event]))
            answered' (Listeners.socket conn').
Proof.
  intros Hok Hperm Hans. cbv zeta.
  destruct event as [data|i outcome];
    cbn [Listeners.connection_step Listeners.chunks_of map].
  - rewrite connection_data_closed. cbv zeta.
    cbn [Listeners.suspended Listeners.socket Listeners.fulfilled].
    rewrite feed_cons. cbn [feed fst]. rewrite !app_nil_r.
    destruct (handleConnection_loop_done
                (parsed (parseMessages
                           (Listeners.buffer conn ++ Utf8.Buffer_toString data)))
                (Listeners.socket conn))
      as [done [Hm [Hnew [written [Hw Ha]]]]].
    split; [apply Forall_app; now split|].
    exists (answered ++ done). split.
    + rewrite Hm at 2. rewrite waiting_messages_app, <- Hperm.
      rewrite <- !app_assoc. apply Permutation_app_head.
      rewrite Permutation_app_swap_app. reflexivity.
    + rewrite Hw. apply Forall2_app; [exact Hans|apply Ha].
  - cbn [feed fst]. rewrite app_nil_r.
    assert (Hmore : incl responses
                      (responses
                       ++ Listeners.fulfilled [Listeners.Settled i outcome]))
      by (apply incl_appl, incl_refl).
    unfold Listeners.connection_settled.
    destruct (nth_error (Listeners.suspended conn) i) as [l|] eqn:Hi.
    + destruct (handleConnection_loop_done (Listeners.to_come l)
                  (Listeners.socket conn
                   ++ [Listeners.settled_line JSON_stringify PARSE_ERROR
                         outcome]))
        as [done [Hm [Hnew [written [Hw Ha]]]]].
      destruct (Listeners.handleConnection_loop JSON_parse JSON_stringify
                  PARSE_ERROR (Listeners.to_come l)
                  (Listeners.socket conn
                   ++ [Listeners.settled_line JSON_stringify PARSE_ERROR
                         outcome])) as [out l'].
      cbn [fst snd Listeners.suspended Listeners.socket] in *. subst out.
      split; [now apply Forall_resumed|].
      exists (answered ++ Listeners.message l :: done). split.
      * rewrite <- Hperm, <- app_assoc. apply Permutation_app_head.
        now apply waiting_messages_resumed.
      * rewrite <- app_assoc. apply Forall2_app.
        -- now apply (answered_more responses).
        -- cbn [app]. constructor; [|apply Ha].
           assert (Hl : parsed_ok l).
           { rewrite Forall_forall in Hok. apply Hok.
             eapply nth_error_In, Hi. }
           cbn beta in Hl. unfold Listeners.answers. rewrite Hl.
           destruct outcome as [response|]; cbn [Listeners.settled_line];
             [right|now left].
           exists response. split; [|reflexivity].
           apply in_or_app. right. now left.
    + split; [exact Hok|]. exists answered. split; [exact Hperm|].
      now apply (answered_more responses).
Qed.

Lemma fulfilled_app (a b : list (Listeners.Event Json)) :
  Listeners.fulfilled (a ++ b) = Listeners.fulfilled a ++ Listeners.fulfilled b.
Proof.
  induction a as [|[data|i [response|]] a IH]; cbn [app Listeners.fulfilled];
    [reflexivity|exact IH| |exact IH]. now rewrite IH.
Qed.

Lemma connection_run_answers (events : list (Listeners.Event Json)) :
  forall (conn : Listeners.Connection MCPRequest)
    (received answered : list jsstring) (responses : list (MCPResponse Json)),
    Forall parsed_ok (Listeners.suspended conn) ->
    Permutation
      (answered ++ Listeners.waiting_messages (Listeners.suspended conn))
      received ->
    Forall2 (answers responses) answered (Listeners.socket conn) ->
    let conn' := Listeners.connection_run JSON_parse JSON_stringify PARSE_ERROR
                   conn events in
    exists answered' : list jsstring,
      Permutation
        (answered' ++ Listeners.waiting_messages (Listeners.suspended conn'))
        (received
         ++ fst (feed (Listeners.buffer conn)
                   (map Utf8.Buffer_toString (Listeners.chunks_of events))))
      /\ Forall2 (answers (responses ++ Listeners.fulfilled events))
           answered' (Listeners.socket conn').
Proof.
  induction events as [|event events IH];
    intros conn received answered responses Hok Hperm Hans; cbv zeta.
  - exists answered. cbn. rewrite !app_nil_r. now split.
  - destruct (connection_step_answers conn event received answered responses
                Hok Hperm Hans) as [Hok' [answered' [Hperm' Hans']]].
    destruct (IH _ _ _ _ Hok' Hperm' Hans') as [answered'' [Hperm'' Hans'']].
    exists answered''. unfold Listeners.connection_run in *. cbn [fold_left].
    split.
    + rewrite Hperm''. rewrite <- app_assoc. apply Permutation_app_head.
      destruct event as [data|i outcome];
        cbn [Listeners.chunks_of map Listeners.connection_step].
      * rewrite !feed_cons. cbn [feed fst snd]. rewrite app_nil_r.
        destruct (connection_data_counts Json MCPRequest JSON_parse
                    JSON_stringify PARSE_ERROR conn data) as [_ Hb].
        now rewrite Hb.
      * cbn [feed fst app].
        destruct (connection_settled_counts Json MCPRequest JSON_parse
                    JSON_stringify PARSE_ERROR conn i outcome) as [_ Hb].
        now rewrite Hb.
    + rewrite <- app_assoc in Hans''.
      change (event :: events) with ([event] ++ events).
      now rewrite fulfilled_app.
Qed.


Lemma stdin_step_answers (p : Listeners.Process MCPRequest)
  (event : Listeners.StdinEvent Json)
  (received answered : list jsstring) (responses : list (MCPResponse Json)) :
  Listeners.exited p = false ->
  Forall parsed_ok (Listeners.stdin_suspended p) ->
  Permutation
    (answered ++ Listeners.stdin_waiting_messages (Listeners.stdin_suspended p))
    received ->
  Forall2 (answers responses) answered (Listeners.stdout p) ->
  let p' := Listeners.stdin_step JSON_parse JSON_stringify PARSE_ERROR p event in
  Forall parsed_ok (Listeners.stdin_suspended p')
  /\ exists answered' : list jsstring,
       Permutation
         (answered'
          ++ Listeners.stdin_waiting_messages (Listeners.stdin_suspended p'))
         (received
          ++ fst (feed (Listeners.stdin_buffer p)
                    (Utf8.StringDecoder_chunks (Listeners.decoder p)
                       (Listeners.stdin_chunks [event]))))
       /\ Forall2 (answers (responses ++ Listeners.stdin_fulfilled [event]))
            answered' (Listeners.stdout p').
Proof.
  intros Hp Hok Hperm Hans. cbv zeta. unfold Listeners.stdin_step. rewrite Hp.
  destruct event as [data|i outcome|];
    cbn [Listeners.stdin_chunks Utf8.StringDecoder_chunks].
  - rewrite stdin_data_closed. cbv zeta.
    cbn [Listeners.stdin_suspended Listeners.stdout Listeners.stdin_fulfilled].
    rewrite feed_cons. cbn [feed fst]. rewrite !app_nil_r.
    rewrite parseMessages_split. cbn [parsed].
    destruct (startStdio_loop_done
                (removelast
                   (split LF
                      (Listeners.stdin_buffer p
                       ++ fst (Utf8.StringDecoder_write
                                 (Listeners.decoder p) data))))
                (Listeners.stdout p))
      as [done [Hm [Hnew [written [Hw Ha]]]]].
    split; [apply Forall_app; now split|].
    exists (answered ++ done). split.
    + rewrite Hm. rewrite stdin_waiting_messages_app, <- Hperm.
      rewrite <- !app_assoc. apply Permutation_app_head.
      rewrite Permutation_app_swap_app. reflexivity.
    + rewrite Hw. apply Forall2_app; [exact Hans|apply Ha].
  - cbn [feed fst]. rewrite app_nil_r.
    assert (Hmore : incl responses
                      (responses
                       ++ Listeners.stdin_fulfilled
                            [Listeners.StdinSettled i outcome]))
      by (apply incl_appl, incl_refl).
    unfold Listeners.stdin_settled.
    destruct (nth_error (Listeners.stdin_suspended p) i) as [l|] eqn:Hi.
    + destruct (startStdio_loop_done (Listeners.to_come l)
                  (Listeners.stdout p
                   ++ [Listeners.settled_line JSON_stringify PARSE_ERROR
                         outcome]))
        as [done [Hm [Hnew [written [Hw Ha]]]]].
      destruct (Listeners.startStdio_loop JSON_parse JSON_stringify
                  PARSE_ERROR (Listeners.to_come l)
                  (Listeners.stdout p
                   ++ [Listeners.settled_line JSON_stringify PARSE_ERROR
                         outcome])) as [out l'].
      cbn [fst snd Listeners.stdin_suspended Listeners.stdout] in *. subst out.
      split; [now apply Forall_resumed|].
      exists (answered ++ Listeners.message l :: done). split.
      * rewrite <- Hperm, <- app_assoc. apply Permutation_app_head.
        now apply stdin_waiting_messages_resumed.
      * rewrite <- app_assoc. apply Forall2_app.
        -- now apply (answered_more responses).
        -- cbn [app]. constructor; [|apply Ha].
           assert (Hl : parsed_ok l).
           { rewrite Forall_forall in Hok. apply Hok.
             eapply nth_error_In, Hi. }
           cbn beta in Hl. unfold Listeners.answers. rewrite Hl.
           destruct outcome as [response|]; cbn [Listeners.settled_line];
             [right|now left].
           exists response. split; [|reflexivity].
           apply in_or_app. right. now left.
    + split; [exact Hok|]. exists answered. split; [exact Hperm|].
      now apply (answered_more responses).
  - cbn [Listeners.stdin_end Listeners.stdin_suspended Listeners.stdout
           Listeners.stdin_fulfilled feed fst].
    rewrite !app_nil_r. split; [exact Hok|]. exists answered. now split.
Qed.

Lemma stdin_fulfilled_app (a b : list (Listeners.StdinEvent Json)) :
  Listeners.stdin_fulfilled (a ++ b)
  = Listeners.stdin_fulfilled a ++ Listeners.stdin_fulfilled b.
Proof.
  induction a as [|[data|i [response|]|] a IH];
    cbn [app Listeners.stdin_fulfilled];
    [reflexivity|exact IH| |exact IH|exact IH]. now rewrite IH.
Qed.

Lemma stdin_run_answers (events : list (Listeners.StdinEvent Json)) :
  forall (p : Listeners.Process MCPRequest)
    (received answered : list jsstring) (responses : list (MCPResponse Json)),
    Listeners.exited p = false ->
    Forall parsed_ok (Listeners.stdin_suspended p) ->
    Permutation
      (answered ++ Listeners.stdin_waiting_messages (Listeners.stdin_suspended p))
      received ->
    Forall2 (answers responses) answered (Listeners.stdout p) ->
    let p' := Listeners.stdin_run JSON_parse JSON_stringify PARSE_ERROR
                p events in
    exists answered' : list jsstring,
      Permutation
        (answered'
         ++ Listeners.stdin_waiting_messages (Listeners.stdin_suspended p'))
        (received
         ++ fst (feed (Listeners.stdin_buffer p)
                   (Utf8.StringDecoder_chunks (Listeners.decoder p)
                      (Listeners.stdin_chunks events))))
      /\ Forall2 (answers (responses ++ Listeners.stdin_fulfilled events))
           answered' (Listeners.stdout p').
Proof.
  induction events as [|event events IH];
    intros p received answered responses Hp Hok Hperm Hans; cbv zeta.
  - exists answered. cbn. rewrite !app_nil_r. now split.
  - destruct (stdin_step_answers p event received answered responses
                Hp Hok Hperm Hans) as [Hok' [answered' [Hperm' Hans']]].
    change (Listeners.stdin_run JSON_parse JSON_stringify PARSE_ERROR p
              (event :: events))
      with (Listeners.stdin_run JSON_parse JSON_stringify PARSE_ERROR
              (Listeners.stdin_step JSON_parse JSON_stringify PARSE_ERROR p event)
              events).
    assert (Hfulfilled :
      forall answered'',
        Forall2
          (answers ((responses ++ Listeners.stdin_fulfilled [event])
                    ++ Listeners.stdin_fulfilled events))
          answered''
          (Listeners.stdout
             (Listeners.stdin_run JSON_parse JSON_stringify PARSE_ERROR
                (Listeners.stdin_step JSON_parse JSON_stringify PARSE_ERROR
                   p event) events)) ->
        Forall2 (answers (responses ++ Listeners.stdin_fulfilled (event :: events)))
          answered''
          (Listeners.stdout
             (Listeners.stdin_run JSON_parse JSON_stringify PARSE_ERROR
                (Listeners.stdin_step JSON_parse JSON_stringify PARSE_ERROR
                   p event) events))).
    { intros answered'' H. rewrite <- app_assoc in H.
      change (event :: events) with ([event] ++ events).
      now rewrite stdin_fulfilled_app. }
    destruct event as [data|i outcome|].
    + assert (Hp' : Listeners.exited
                      (Listeners.stdin_step JSON_parse JSON_stringify
                         PARSE_ERROR p (Listeners.StdinData Json data)) = false).
      { unfold Listeners.stdin_step. rewrite Hp. now rewrite stdin_data_closed. }
      destruct (IH _ _ _ _ Hp' Hok' Hperm' Hans')
        as [answered'' [Hperm'' Hans'']].
      exists answered''. split; [|now apply Hfulfilled].
      rewrite Hperm''. rewrite <- app_assoc. apply Permutation_app_head.
      cbn [Listeners.stdin_chunks Utf8.StringDecoder_chunks].
      rewrite !feed_cons. cbn [feed fst snd]. rewrite app_nil_r.
      unfold Listeners.stdin_step. rewrite Hp, stdin_data_closed. cbv zeta.
      cbn [Listeners.stdin_buffer Listeners.decoder]. reflexivity.
    + destruct (stdin_settled_counts Json MCPRequest JSON_parse JSON_stringify
                  PARSE_ERROR p i outcome Hp) as [_ [Hb [Hd He]]].
      assert (Hstep : Listeners.stdin_step JSON_parse JSON_stringify
                        PARSE_ERROR p (Listeners.StdinSettled i outcome)
                      = Listeners.stdin_settled JSON_parse JSON_stringify
                          PARSE_ERROR p i outcome).
      { unfold Listeners.stdin_step. now rewrite Hp. }
      rewrite Hstep in *.
      destruct (IH _ _ _ _ He Hok' Hperm' Hans')
        as [answered'' [Hperm'' Hans'']].
      exists answered''. split; [|now apply Hfulfilled].
      rewrite Hperm''. rewrite <- app_assoc. apply Permutation_app_head.
      cbn [Listeners.stdin_chunks Utf8.StringDecoder_chunks feed fst app].
      now rewrite Hb, Hd.
    + rewrite stdin_run_exited
        by (unfold Listeners.stdin_step; now rewrite Hp).
      exists answered'. split.
      * exact Hperm'.
      * apply (answered_more (responses
                              ++ Listeners.stdin_fulfilled
                                   [Listeners.StdinEnd Json]));
          [|exact Hans'].
        cbn [Listeners.stdin_fulfilled]. rewrite app_nil_r.
        apply incl_appl, incl_refl.
Qed.

End ListenerAnswers.

(** X11. On a connection, whatever the order in which chunks arrive and
    the handler's promises settle, and whatever they settle with, every
    message received is answered once or is still waiting: the lines written
    so far answer, one each and in the order written, messages that together
    with the messages waiting in suspended calls of the listener are a
    rearrangement of the non-empty trimmed lines of the text received so far
    (each chunk decoded on its own). A line answers a message when it is the
    error response, the only answer to a message [JSON.parse] rejects, or a
    response a promise was fulfilled with. In numbers: lines written plus
    messages waiting are the lines received. The buffer holds what follows
    the last newline of the text. *)
Theorem connection_answers_each_message_once :
  forall (Json MCPRequest : Type)
    (JSON_parse : JS.jsstring -> option MCPRequest)
    (JSON_stringify : MCP.MCPResponse Json -> JS.jsstring)
    (PARSE_ERROR : Z) (events : list (Listeners.Event Json)),
    let conn :=
      Listeners.connection_run JSON_parse JSON_stringify PARSE_ERROR
        (Listeners.connection_open MCPRequest) events in
    let text :=
      concat (map Utf8.Buffer_toString (Listeners.chunks_of events)) in
    (exists answered : list JS.jsstring,
        Permutation
          (answered ++ Listeners.waiting_messages (Listeners.suspended conn))
          (MCPServer.text_lines text)
        /\ Forall2
             (Listeners.answers JSON_parse JSON_stringify PARSE_ERROR
                (Listeners.fulfilled events))
             answered (Listeners.socket conn))
    /\ length (Listeners.socket conn)
       + length (Listeners.waiting_messages (Listeners.suspended conn))
       = length (MCPServer.text_lines text)
    /\ Listeners.buffer conn = last (JS.split JS.LF text) [].
Proof.
  intros Json MCPRequest JSON_parse JSON_stringify PARSE_ERROR events conn text.
  destruct (connection_run_answers Json MCPRequest JSON_parse JSON_stringify
              PARSE_ERROR events (Listeners.connection_open MCPRequest)
              [] [] [] (Forall_nil _) (Permutation_refl _) (Forall2_nil _))
    as [answered [Hperm Hans]].
  cbn [Listeners.connection_open Listeners.buffer app] in Hperm, Hans.
  rewrite feed_text_lines in Hperm. cbn [fst] in Hperm.
  fold text in Hperm. fold conn in Hperm, Hans.
  split; [exists answered; now split|]. split.
  - apply Permutation_length in Hperm. apply Forall2_length in Hans.
    rewrite length_app in Hperm. lia.
  - destruct (connection_run_counts Json MCPRequest JSON_parse JSON_stringify
                PARSE_ERROR events (Listeners.connection_open MCPRequest))
      as [_ Hb].
    cbn [Listeners.connection_open Listeners.buffer] in Hb.
    rewrite feed_text_lines in Hb. exact Hb.
Qed.

(** The answers need not come in the order of the lines: when a chunk
    arrives while the call for the chunk before it is suspended, a line of
    the later chunk that [JSON.parse] rejects is answered first. Run in turn,
    the same chunks are answered in their order. *)
Example later_chunk_answered_first :
  Listeners.socket
    (Listeners.connection_run Scenario.JSON_parse Scenario.JSON_stringify
       Scenario.PARSE_ERROR (Listeners.connection_open Scenario.Request)
       [Listeners.Data JS.jsstring (Scenario.bytes (Scenario.ping_line ++ [JS.LF]));
        Listeners.Data JS.jsstring
          (Scenario.bytes (Scenario.malformed_line ++ [JS.LF]));
        Listeners.Settled 0
          (Scenario.handleRequest
             {| Scenario.request_id := Some (MCP.IdNumber 7);
                Scenario.method := JS.lit "ping" |})])
  = [Scenario.error_line;
     Scenario.json "{'jsonrpc':'2.0','id':7,'result':'pong'}" ++ [JS.LF]]
  /\ MCPServer.socket
       (MCPServer.handleConnection_run Scenario.JSON_parse Scenario.handleRequest
          Scenario.JSON_stringify Scenario.PARSE_ERROR
          MCPServer.handleConnection_open
          [Scenario.bytes (Scenario.ping_line ++ [JS.LF]);
           Scenario.bytes (Scenario.malformed_line ++ [JS.LF])])
     = [Scenario.json "{'jsonrpc':'2.0','id':7,'result':'pong'}" ++ [JS.LF];
        Scenario.error_line].
Proof. split; vm_compute; reflexivity. Qed.

(** X12. On standard input, whatever the order in which chunks arrive,
    the handler's promises settle and the input ends, and whatever the
    promises settle with, every message received before the end of input is
    answered once or is still waiting: the lines written so far answer, one
    each and in the order written, messages that together with the messages
    waiting in suspended calls of the listener are a rearrangement of the
    non-empty trimmed lines of the bytes received before the end of input,
    decoded as one stream, however they were cut into chunks. Once the input
    has ended ([process.exit]) nothing more is written: the messages waiting
    then are never answered. *)
Theorem stdin_answers_each_message_once_until_end :
  forall (Json MCPRequest : Type)
    (JSON_parse : JS.jsstring -> option MCPRequest)
    (JSON_stringify : MCP.MCPResponse Json -> JS.jsstring)
    (PARSE_ERROR : Z) (events : list (Listeners.StdinEvent Json)),
    let p :=
      Listeners.stdin_run JSON_parse JSON_stringify PARSE_ERROR
        (Listeners.stdin_open MCPRequest) events in
    let text :=
      fst (Utf8.run Utf8.init (concat (Listeners.stdin_chunks events))) in
    (exists answered : list JS.jsstring,
        Permutation
          (answered
           ++ Listeners.stdin_waiting_messages (Listeners.stdin_suspended p))
          (MCPServer.text_lines text)
        /\ Forall2
             (Listeners.answers JSON_parse JSON_stringify PARSE_ERROR
                (Listeners.stdin_fulfilled events))
             answered (Listeners.stdout p))
    /\ length (Listeners.stdout p)
       + length (Listeners.stdin_waiting_messages (Listeners.stdin_suspended p))
       = length (MCPServer.text_lines text)
    /\ forall later : list (Listeners.StdinEvent Json),
         Listeners.stdout
           (Listeners.stdin_run JSON_parse JSON_stringify PARSE_ERROR
              (Listeners.stdin_open MCPRequest)
              (events ++ Listeners.StdinEnd Json :: later))
         = Listeners.stdout p.
Proof.
  intros Json MCPRequest JSON_parse JSON_stringify PARSE_ERROR events p text.
  destruct (stdin_run_answers Json MCPRequest JSON_parse JSON_stringify
              PARSE_ERROR events (Listeners.stdin_open MCPRequest)
              [] [] [] eq_refl (Forall_nil _) (Permutation_refl _)
              (Forall2_nil _))
    as [answered [Hperm Hans]].
  cbn [Listeners.stdin_open Listeners.stdin_buffer Listeners.decoder app]
    in Hperm, Hans.
  rewrite feed_text_lines, StringDecoder_chunks_concat in Hperm.
  cbn [fst] in Hperm. fold text in Hperm. fold p in Hperm, Hans.
  split; [exists answered; now split|]. split.
  - apply Permutation_length in Hperm. apply Forall2_length in Hans.
    rewrite length_app in Hperm. lia.
  - intros later. apply stdin_run_after_end.
Qed.

(** X21. When every promise settles before the next chunk arrives, with
    the outcome [handleRequest] gives for the request, no call of a listener
    is left suspended and the lines written are the answers to the non-empty
    trimmed lines of the text received, one per line and in the order of the
    lines, on a socket (each chunk decoded on its own) and on standard output
    (the bytes decoded as one stream) alike. These runs are runs of the
    listeners (the events being each chunk followed by the settling of the
    promises it gave rise to), and they are [MCPServer.handleConnection_run]
    and [MCPServer.startStdio_run]. *)
Theorem calls_settled_in_turn_answer_in_line_order :
  forall (Json MCPRequest : Type)
    (JSON_parse : JS.jsstring -> option MCPRequest)
    (handleRequest : MCPRequest -> JS.Completion (MCP.MCPResponse Json))
    (JSON_stringify : MCP.MCPResponse Json -> JS.jsstring)
    (PARSE_ERROR : Z) (chunks : list (list byte)),
    let answer := fun message =>
      MCPServer.line JSON_stringify
        (MCPServer.reply JSON_parse handleRequest PARSE_ERROR message) in
    let conn :=
      Listeners.connection_run_in_turn JSON_parse JSON_stringify PARSE_ERROR
        handleRequest (Listeners.connection_open MCPRequest) chunks in
    let p :=
      Listeners.stdin_run_in_turn JSON_parse JSON_stringify PARSE_ERROR
        handleRequest (Listeners.stdin_open MCPRequest) chunks in
    (exists events : list (Listeners.Event Json),
        Listeners.chunks_of events = chunks
        /\ Listeners.connection_run JSON_parse JSON_stringify PARSE_ERROR
             (Listeners.connection_open MCPRequest) events = conn)
    /\ Listeners.suspended conn = []
    /\ Listeners.socket conn
       = map answer
           (MCPServer.text_lines (concat (map Utf8.Buffer_toString chunks)))
    /\ Listeners.socket conn
       = MCPServer.socket
           (MCPServer.handleConnection_run JSON_parse handleRequest
              JSON_stringify PARSE_ERROR MCPServer.handleConnection_open chunks)
    /\ Listeners.buffer conn
       = MCPServer.buffer
           (MCPServer.handleConnection_run JSON_parse handleRequest
              JSON_stringify PARSE_ERROR MCPServer.handleConnection_open chunks)
    /\ (exists events : list (Listeners.StdinEvent Json),
           Listeners.stdin_chunks events = chunks
           /\ Listeners.stdin_run JSON_parse JSON_stringify PARSE_ERROR
                (Listeners.stdin_open MCPRequest) events = p)
    /\ Listeners.stdin_suspended p = []
    /\ Listeners.stdout p
       = map answer
           (MCPServer.text_lines (fst (Utf8.run Utf8.init (concat chunks))))
    /\ Listeners.stdout p
       = MCPServer.stdout
           (MCPServer.startStdio_run JSON_parse handleRequest
              JSON_stringify PARSE_ERROR MCPServer.startStdio_open chunks)
    /\ Listeners.stdin_buffer p
       = MCPServer.stdio_buffer
           (MCPServer.startStdio_run JSON_parse handleRequest
              JSON_stringify PARSE_ERROR MCPServer.startStdio_open chunks).
Proof.
  intros Json MCPRequest JSON_parse handleRequest JSON_stringify PARSE_ERROR
    chunks answer conn p.
  pose proof (connection_run_in_turn_closed Json MCPRequest JSON_parse
                JSON_stringify PARSE_ERROR handleRequest chunks
                (Listeners.connection_open MCPRequest) eq_refl) as Hconn.
  pose proof (stdin_run_in_turn_closed Json MCPRequest JSON_parse
                JSON_stringify PARSE_ERROR handleRequest chunks
                (Listeners.stdin_open MCPRequest) eq_refl) as Hp.
  cbv zeta in Hp.
  cbn [Listeners.connection_open Listeners.stdin_open Listeners.socket
         Listeners.buffer Listeners.stdout Listeners.stdin_buffer
         Listeners.decoder] in Hconn, Hp.
  fold MCPServer.handleConnection_open in Hconn.
  fold MCPServer.startStdio_open in Hp.
  fold conn in Hconn. fold p in Hp.
  destruct (handleConnection_run_feed Json MCPRequest JSON_parse handleRequest
              JSON_stringify PARSE_ERROR chunks MCPServer.handleConnection_open)
    as [Hs _].
  pose proof (startStdio_run_feed Json MCPRequest JSON_parse handleRequest
                JSON_stringify PARSE_ERROR chunks MCPServer.startStdio_open)
    as Ho.
  cbn [MCPServer.handleConnection_open MCPServer.socket MCPServer.buffer
         MCPServer.startStdio_open MCPServer.stdout MCPServer.stdio_buffer
         MCPServer.decoder app] in Hs, Ho.
  rewrite feed_text_lines in Hs, Ho. cbn [fst] in Hs, Ho.
  rewrite StringDecoder_chunks_concat in Ho.
  split; [apply connection_run_in_turn_run|].
  split; [now rewrite Hconn|]. split; [now rewrite Hconn|].
  split; [now rewrite Hconn|]. split; [now rewrite Hconn|].
  split; [now apply stdin_run_in_turn_run|].
  split; [now rewrite Hp|]. split; [now rewrite Hp|].
  split; now rewrite Hp.
Qed.



(** ** The cache: memoization and the choice among equals *)

Section CacheChoices.
Import JS QueryCache.
Local Open Scope Z_scope.

Variable T : Type.

Lemma get_fresh_entry (c : Cache T) (key : jsstring) (data0 : Value T)
  (now later : Z) :
  later - now <= ttlMs (options c) ->
  fst (get (set c key data0 now) key later) = data0.
Proof.
  intros Hage. unfold get. rewrite set_cache, Map_get_set_same.
  unfold isExpired. rewrite set_options. cbn [timestamp].
  destruct (Z.gtb_spec (later - now) (ttlMs (options c))); [lia|reflexivity].
Qed.

Lemma get_options (c : Cache T) (key : jsstring) (now : Z) :
  options (snd (get c key now)) = options c.
Proof. apply get_shrinks. Qed.

(** The scan of [evictLRU] takes a later entry only when it comes strictly
    before the candidate in the order: of entries that tie, the first met
    stays. *)
Lemma evictLRU_fold_first (m : Map T) (a r : jsstring * CacheEntry T) :
  fold_left (@evictLRU_step T) m (Some a) = Some r ->
  (r = a /\ forall x, In x m -> fewest_then_earliest (snd a) (snd x))
  \/ exists pre suf,
       m = pre ++ r :: suf
       /\ ~ fewest_then_earliest (snd a) (snd r)
       /\ (forall x, In x pre -> ~ fewest_then_earliest (snd x) (snd r))
       /\ (forall x, In x suf -> fewest_then_earliest (snd r) (snd x)).
Proof.
  revert a. induction m as [|x m IH]; intros a.
  - cbn [fold_left]. intros [= ->]. left. split; [reflexivity|intros x []].
  - cbn [fold_left]. unfold evictLRU_step at 2. destruct a as [k0 e0].
    destruct ((hits (snd x) <? hits e0)
              || ((hits (snd x) =? hits e0)
                  && (timestamp (snd x) <? timestamp e0))) eqn:E; intros Hr.
    + rewrite orb_true_iff, andb_true_iff, !Z.ltb_lt, Z.eqb_eq in E.
      destruct (IH x Hr) as [[-> Hall]|[pre [suf [-> [Hra [Hpre Hsuf]]]]]].
      * right. exists [], m. cbn [app snd]. split; [reflexivity|].
        split; [unfold fewest_then_earliest; lia|]. split; [intros y []|exact Hall].
      * right. exists (x :: pre), suf. cbn [app snd] in *.
        split; [reflexivity|].
        split; [unfold fewest_then_earliest in *; lia|]. split; [|exact Hsuf].
        intros y [<-|Hy]; [exact Hra|now apply Hpre].
    + rewrite orb_false_iff, andb_false_iff, !Z.ltb_ge, Z.eqb_neq in E.
      destruct (IH (k0, e0) Hr) as [[-> Hall]|[pre [suf [-> [Hra [Hpre Hsuf]]]]]].
      * left. split; [reflexivity|]. cbn [snd].
        intros y [<-|Hy]; [unfold fewest_then_earliest; lia|now apply Hall].
      * right. exists (x :: pre), suf. cbn [app snd] in *.
        split; [reflexivity|]. split; [exact Hra|]. split; [|exact Hsuf].
        intros y [<-|Hy]; [unfold fewest_then_earliest in *; lia|now apply Hpre].
Qed.

End CacheChoices.

(** X14. [getOrSet] memoizes a defined value: when the key has no usable
    entry and the factory produces a value that is not [undefined], the call
    returns that value, and a second call for the key made within the
    time-to-live returns it again without calling its factory. *)
Theorem getOrSet_memoizes :
  forall (T World : Type) (c : QueryCache.Cache T) (key : JS.jsstring)
    (factory again : World -> JS.Completion (QueryCache.Value T) * World)
    (now_get now_set later later_set : Z) (w w' : World) (v : T),
    fst (QueryCache.get c key now_get) = QueryCache.Undefined ->
    factory w = (JS.Normal (QueryCache.Defined v), w') ->
    (later - now_set <= QueryCache.ttlMs (QueryCache.options c))%Z ->
    let first := QueryCache.getOrSet c key factory now_get now_set w in
    let second :=
      QueryCache.getOrSet (snd (fst first)) key again later later_set (snd first) in
    fst (fst first) = JS.Normal (QueryCache.Defined v)
    /\ snd first = w'
    /\ fst (fst second) = JS.Normal (QueryCache.Defined v)
    /\ snd second = w'.
Proof.
  intros T World c key factory again now_get now_set later later_set w w' v
    Hmiss Hfactory Hage. cbv zeta.
  assert (Hfirst :
    QueryCache.getOrSet c key factory now_get now_set w
    = (JS.Normal (QueryCache.Defined v),
       QueryCache.set (snd (QueryCache.get c key now_get)) key
         (QueryCache.Defined v) now_set,
       w')).
  { unfold QueryCache.getOrSet.
    destruct (QueryCache.get c key now_get) as [cached c1].
    cbn [fst snd] in *. subst cached. now rewrite Hfactory. }
  rewrite Hfirst. cbn [fst snd]. split; [reflexivity|]. split; [reflexivity|].
  unfold QueryCache.getOrSet.
  pose proof (get_fresh_entry T (snd (QueryCache.get c key now_get)) key
                (QueryCache.Defined v) now_set later) as Hhit.
  rewrite get_options in Hhit. specialize (Hhit Hage).
  destruct (QueryCache.get
              (QueryCache.set (snd (QueryCache.get c key now_get)) key
                 (QueryCache.Defined v) now_set) key later)
    as [cached c2].
  cbn [fst] in Hhit. subst cached. cbn [fst snd]. split; reflexivity.
Qed.

Lemma getOrSet_memoizes_witness :
  fst (fst (QueryCache.getOrSet
              (snd (fst (QueryCache.getOrSet CacheScenario.two (JS.lit "q")
                           CacheScenario.counting_factory 10 11 0%nat)))
              (JS.lit "q") CacheScenario.counting_factory 20 21 1%nat))
  = JS.Normal (CacheScenario.v "fresh")
  /\ snd (QueryCache.getOrSet
            (snd (fst (QueryCache.getOrSet CacheScenario.two (JS.lit "q")
                         CacheScenario.counting_factory 10 11 0%nat)))
            (JS.lit "q") CacheScenario.counting_factory 20 21 1%nat)
     = 1%nat.
Proof.
  destruct (getOrSet_memoizes JS.jsstring nat CacheScenario.two (JS.lit "q")
              CacheScenario.counting_factory CacheScenario.counting_factory
              10 11 20 21 0%nat 1%nat (JS.lit "fresh") eq_refl eq_refl)
    as [_ [_ [Hvalue Hworld]]].
  - vm_compute. discriminate.
  - split; [exact Hvalue|exact Hworld].
Defined.

(** X15. The entry [evictLRU] selects is the first, in the order of
    insertion, among the entries with the fewest hits and, of these, the
    earliest timestamp: every entry before it in the map has more hits, or
    as many and a later timestamp, and no entry after it comes before it. *)
Theorem evictLRU_selects_the_first_of_the_least :
  forall (T : Type) (m : QueryCache.Map T) (lruKey : JS.jsstring)
    (lruEntry : QueryCache.CacheEntry T),
    QueryCache.evictLRU_scan m = Some (lruKey, lruEntry) ->
    exists pre suf,
      m = pre ++ (lruKey, lruEntry) :: suf
      /\ (forall k e, In (k, e) pre ->
            (QueryCache.hits lruEntry < QueryCache.hits e)%Z
            \/ (QueryCache.hits lruEntry = QueryCache.hits e
                /\ (QueryCache.timestamp lruEntry < QueryCache.timestamp e)%Z))
      /\ (forall k e, In (k, e) suf ->
            (QueryCache.hits lruEntry < QueryCache.hits e)%Z
            \/ (QueryCache.hits lruEntry = QueryCache.hits e
                /\ (QueryCache.timestamp lruEntry <= QueryCache.timestamp e)%Z)).
Proof.
  intros T m lruKey lruEntry. unfold QueryCache.evictLRU_scan.
  destruct m as [|a m]; [discriminate|].
  cbn [fold_left QueryCache.evictLRU_step]. intros Hscan.
  destruct (evictLRU_fold_first T m a _ Hscan)
    as [[Heq Hall]|[pre [suf [-> [Hra [Hpre Hsuf]]]]]].
  - subst a. exists [], m. cbn [app]. split; [reflexivity|].
    split; [intros k e []|]. intros k e Hin.
    specialize (Hall (k, e) Hin). unfold QueryCache.fewest_then_earliest in Hall.
    cbn [snd] in Hall. lia.
  - exists (a :: pre), suf. cbn [app]. split; [reflexivity|]. split.
    + intros k e [Heq|Hin].
      * subst a. unfold QueryCache.fewest_then_earliest in Hra.
        cbn [snd] in Hra. lia.
      * specialize (Hpre (k, e) Hin).
        unfold QueryCache.fewest_then_earliest in Hpre. cbn [snd] in Hpre. lia.
    + intros k e Hin. specialize (Hsuf (k, e) Hin).
      unfold QueryCache.fewest_then_earliest in Hsuf. cbn [snd] in Hsuf. lia.
Qed.

Lemma evictLRU_selects_the_first_of_the_least_witness :
  exists pre suf,
    QueryCache.cache CacheScenario.a_b
    = pre ++ (JS.lit "a", {| QueryCache.data := CacheScenario.v "1";
                             QueryCache.timestamp := 10;
                             QueryCache.hits := 0 |}) :: suf.
Proof.
  destruct (evictLRU_selects_the_first_of_the_least JS.jsstring
              (QueryCache.cache CacheScenario.a_b) (JS.lit "a")
              {| QueryCache.data := CacheScenario.v "1";
                 QueryCache.timestamp := 10;
                 QueryCache.hits := 0 |} eq_refl)
    as [pre [suf [Hm _]]].
  exists pre, suf. exact Hm.
Defined.

(** ** The server object *)

Section ServerFacts.
Import JS MCP MCPServer Server.

Variables Json MCPRequest : Type.
Variable JSON_parse : jsstring -> option MCPRequest.
Variable handleRequest : MCPRequest -> Completion (MCPResponse Json).
Variable JSON_stringify : MCPResponse Json -> jsstring.
Variable PARSE_ERROR : Z.

Local Abbreviation step' :=
  (step JSON_parse handleRequest JSON_stringify PARSE_ERROR).
Local Abbreviation run' :=
  (run JSON_parse handleRequest JSON_stringify PARSE_ERROR).

Lemma session_app (ss : list (Socket * Connection)) (s s0 : Socket)
  (conn conn0 : Connection) :
  session ss s = Some conn -> session (ss ++ [(s0, conn0)]) s = Some conn.
Proof.
  induction ss as [|[s1 c1] ss IH]; [discriminate|]. cbn [session app].
  destruct (Nat.eqb s1 s); [trivial|exact IH].
Qed.

Lemma session_set_same (ss : list (Socket * Connection)) (s : Socket)
  (conn conn' : Connection) :
  session ss s = Some conn -> session (set_session ss s conn') s = Some conn'.
Proof.
  induction ss as [|[s1 c1] ss IH]; [discriminate|]. cbn [session set_session].
  destruct (Nat.eqb s1 s) eqn:E; cbn [session]; rewrite E; [reflexivity|exact IH].
Qed.

Lemma session_set_other (ss : list (Socket * Connection)) (s s0 : Socket)
  (conn' : Connection) :
  s0 <> s -> session (set_session ss s0 conn') s = session ss s.
Proof.
  intros Hne. induction ss as [|[s1 c1] ss IH]; [reflexivity|].
  cbn [session set_session].
  destruct (Nat.eqb s1 s0) eqn:E0; cbn [session].
  - apply Nat.eqb_eq in E0. subst s1.
    apply Nat.eqb_neq in Hne. now rewrite Hne.
  - now rewrite IH.
Qed.

Lemma Set_has_In (c : list Socket) (s : Socket) : Set_has c s = true <-> In s c.
Proof.
  unfold Set_has. rewrite existsb_exists. split.
  - intros [x [Hin Hx]]. apply Nat.eqb_eq in Hx. now subst.
  - intros Hin. exists s. now rewrite Nat.eqb_refl.
Qed.

Lemma Set_has_add (c : list Socket) (x s : Socket) :
  Set_has (Set_add c x) s = if Nat.eqb x s then true else Set_has c s.
Proof.
  unfold Set_add. destruct (Set_has c x) eqn:E.
  - destruct (Nat.eqb x s) eqn:Ex; [|reflexivity].
    apply Nat.eqb_eq in Ex. now subst.
  - unfold Set_has. rewrite existsb_app. cbn [existsb].
    rewrite orb_false_r, (Nat.eqb_sym s x).
    destruct (Nat.eqb x s); [apply orb_true_r|apply orb_false_r].
Qed.

Lemma Set_has_delete (c : list Socket) (x s : Socket) :
  Set_has (Set_delete c x) s = if Nat.eqb x s then false else Set_has c s.
Proof.
  unfold Set_delete, Set_has. induction c as [|y c IH]; cbn [filter existsb].
  - now destruct (Nat.eqb x s).
  - destruct (Nat.eqb y x) eqn:Ey; cbn [negb existsb]; rewrite IH.
    + apply Nat.eqb_eq in Ey. subst y. rewrite (Nat.eqb_sym s x).
      now destruct (Nat.eqb x s).
    + destruct (Nat.eqb x s) eqn:Ex; [|reflexivity].
      apply Nat.eqb_eq in Ex. subst s. rewrite Nat.eqb_sym, Ey. reflexivity.
Qed.

Lemma Set_add_NoDup (c : list Socket) (x : Socket) :
  NoDup c -> NoDup (Set_add c x).
Proof.
  intros Hnd. unfold Set_add. destruct (Set_has c x) eqn:E; [exact Hnd|].
  apply NoDup_app; [exact Hnd|repeat constructor; simpl; tauto|].
  intros y Hy [<-|[]]. apply Set_has_In in Hy. congruence.
Qed.

Lemma Set_delete_NoDup (c : list Socket) (x : Socket) :
  NoDup c -> NoDup (Set_delete c x).
Proof. apply NoDup_filter. Qed.

Lemma step_registry_sound (st : State) (ev : Event) :
  registry_sound st -> registry_sound (step' st ev).
Proof.
  intros [Hc [Hd [Hcd Hlt]]].
  destruct ev as [| | |socket data|socket|socket]; cbn [step].
  - exact (conj Hc (conj Hd (conj Hcd Hlt))).
  - unfold registry_sound. cbn [stop connections destroyed created].
    split; [constructor|]. split.
    + apply NoDup_app; [exact Hd|exact Hc|]. intros s Hs Hs'. exact (Hcd s Hs' Hs).
    + split; [intros s []|]. intros s [[]|Hs]. apply Hlt.
      apply in_app_or in Hs. tauto.
  - unfold registry_sound. cbn [handleConnection connections destroyed created].
    split; [now apply Set_add_NoDup|]. split; [exact Hd|]. split.
    + intros s Hs. apply Set_has_In in Hs. rewrite Set_has_add in Hs.
      destruct (Nat.eqb (created st) s) eqn:E.
      * apply Nat.eqb_eq in E. subst s. intros Hin.
        specialize (Hlt (created st) (or_intror Hin)). lia.
      * apply Hcd. now apply Set_has_In.
    + intros s [Hs|Hs].
      * apply Set_has_In in Hs. rewrite Set_has_add in Hs.
        destruct (Nat.eqb (created st) s) eqn:E.
        -- apply Nat.eqb_eq in E. lia.
        -- apply Set_has_In in Hs. specialize (Hlt s (or_introl Hs)). lia.
      * specialize (Hlt s (or_intror Hs)). lia.
  - unfold on_data. destruct (session (sessions st) socket);
      exact (conj Hc (conj Hd (conj Hcd Hlt))).
  - unfold registry_sound. cbn [on_close connections destroyed created].
    split; [now apply Set_delete_NoDup|]. split; [exact Hd|]. split.
    + intros s Hs. apply Hcd. unfold Set_delete in Hs. apply filter_In in Hs. tauto.
    + intros s [Hs|Hs]; apply Hlt; [left|now right].
      unfold Set_delete in Hs. apply filter_In in Hs. tauto.
  - unfold registry_sound, on_error. cbn [on_close connections destroyed created].
    split; [now apply Set_delete_NoDup|]. split; [exact Hd|]. split.
    + intros s Hs. apply Hcd. unfold Set_delete in Hs. apply filter_In in Hs. tauto.
    + intros s [Hs|Hs]; apply Hlt; [left|now right].
      unfold Set_delete in Hs. apply filter_In in Hs. tauto.
Qed.

Lemma run_registry_sound (events : list Event) (st : State) :
  registry_sound st -> registry_sound (run' st events).
Proof.
  revert st. induction events as [|ev events IH]; intros st Hst; [exact Hst|].
  unfold run. cbn [fold_left]. apply IH. now apply step_registry_sound.
Qed.

Lemma run_tracked (events : list Event) (st : State) (s : Socket) :
  Set_has (connections (run' st events)) s
  = tracked (created st) s (Set_has (connections st) s) events.
Proof.
  revert st. induction events as [|ev events IH]; intros st; [reflexivity|].
  unfold run. cbn [fold_left]. fold (run' (step' st ev) events). rewrite IH.
  destruct ev as [| | |socket data|socket|socket]; cbn [step tracked].
  - reflexivity.
  - reflexivity.
  - cbn [handleConnection created connections]. now rewrite Set_has_add.
  - unfold on_data. now destruct (session (sessions st) socket).
  - cbn [on_close created connections]. now rewrite Set_has_delete.
  - unfold on_error. cbn [on_close created connections].
    now rewrite Set_has_delete.
Qed.

Lemma run_session (events : list Event) (st : State) (s : Socket)
  (conn : Connection) :
  session (sessions st) s = Some conn ->
  session (sessions (run' st events)) s
  = Some (handleConnection_run JSON_parse handleRequest JSON_stringify
            PARSE_ERROR conn (chunks_for s events)).
Proof.
  revert st conn. induction events as [|ev events IH]; intros st conn Hs;
    [exact Hs|].
  unfold run. cbn [fold_left]. fold (run' (step' st ev) events).
  destruct ev as [| | |socket data|socket|socket]; cbn [step chunks_for];
    try (apply IH; exact Hs).
  - apply IH. cbn [handleConnection sessions]. now apply session_app.
  - destruct (Nat.eqb socket s) eqn:E.
    + apply Nat.eqb_eq in E. subst socket. cbn [handleConnection_run].
      apply IH. unfold on_data. rewrite Hs. cbn [sessions].
      now apply (session_set_same _ _ conn).
    + apply Nat.eqb_neq in E. apply IH. unfold on_data.
      destruct (session (sessions st) socket); [|exact Hs].
      cbn [sessions]. now rewrite session_set_other.
Qed.

End ServerFacts.

(** X16. The framing state is kept per connection: once
    [handleConnection] has been called for a socket, the buffer of that
    socket is, after any events, the remainder the framer keeps when fed the
    chunks that arrived on that socket, in their order, and nothing else,
    whatever happens to the server in between (other connections and their
    data, sockets closing or failing, [start] and [stop]). The listener
    assigns the buffer when a chunk arrives, before it first awaits the
    handler: the statement does not depend on the handler or on how the calls
    of the listeners overlap. *)
Theorem framing_state_is_per_connection :
  forall (Json MCPRequest : Type)
    (JSON_parse : JS.jsstring -> option MCPRequest)
    (handleRequest : MCPRequest -> JS.Completion (MCP.MCPResponse Json))
    (JSON_stringify : MCP.MCPResponse Json -> JS.jsstring)
    (PARSE_ERROR : Z) (st : Server.State) (events : list Server.Event)
    (socket : Server.Socket) (conn : MCPServer.Connection),
    Server.session (Server.sessions st) socket = Some conn ->
    exists conn' : MCPServer.Connection,
      Server.session
        (Server.sessions
           (Server.run JSON_parse handleRequest JSON_stringify PARSE_ERROR
              st events))
        socket
      = Some conn'
      /\ MCPServer.buffer conn'
         = snd (MCPServer.feed (MCPServer.buffer conn)
                  (map Utf8.Buffer_toString (Server.chunks_for socket events))).
Proof.
  intros Json MCPRequest JSON_parse handleRequest JSON_stringify PARSE_ERROR
    st events socket conn Hsession.
  exists (MCPServer.handleConnection_run JSON_parse handleRequest
            JSON_stringify PARSE_ERROR conn (Server.chunks_for socket events)).
  split; [now apply run_session|].
  apply handleConnection_run_feed.
Qed.

Lemma framing_state_is_per_connection_witness :
  exists conn' : MCPServer.Connection,
    Server.session
      (Server.sessions
         (Server.run Scenario.JSON_parse Scenario.handleRequest
            Scenario.JSON_stringify Scenario.PARSE_ERROR
            (Server.handleConnection (Server.handleConnection Server.initial))
            [Server.Data 0 (Scenario.bytes (firstn 10 Scenario.ping_line));
             Server.Data 1 (Scenario.bytes (Scenario.malformed_line ++ [JS.LF]));
             Server.Close 1;
             Server.Data 0 (Scenario.bytes (skipn 10 Scenario.ping_line ++ [JS.LF] ++ JS.lit "{"))]))
      0
    = Some conn'
    /\ MCPServer.buffer conn'
       = snd (MCPServer.feed []
                (map Utf8.Buffer_toString
                   [Scenario.bytes (firstn 10 Scenario.ping_line);
                    Scenario.bytes (skipn 10 Scenario.ping_line ++ [JS.LF] ++ JS.lit "{")])).
Proof.
  apply (framing_state_is_per_connection _ _ Scenario.JSON_parse
           Scenario.handleRequest Scenario.JSON_stringify Scenario.PARSE_ERROR
           (Server.handleConnection (Server.handleConnection Server.initial))
           [Server.Data 0 (Scenario.bytes (firstn 10 Scenario.ping_line));
            Server.Data 1 (Scenario.bytes (Scenario.malformed_line ++ [JS.LF]));
            Server.Close 1;
            Server.Data 0 (Scenario.bytes (skipn 10 Scenario.ping_line ++ [JS.LF] ++ JS.lit "{"))]
           0 MCPServer.handleConnection_open).
  reflexivity.
Defined.

(** X17. After any sequence of events on a new server, the set
    [connections] holds exactly the sockets that were handed to
    [handleConnection] and have since neither closed nor failed, with no
    [stop] in between. *)
Theorem registry_holds_the_open_sockets :
  forall (Json MCPRequest : Type)
    (JSON_parse : JS.jsstring -> option MCPRequest)
    (handleRequest : MCPRequest -> JS.Completion (MCP.MCPResponse Json))
    (JSON_stringify : MCP.MCPResponse Json -> JS.jsstring)
    (PARSE_ERROR : Z) (events : list Server.Event) (socket : Server.Socket),
    In socket
      (Server.connections
         (Server.run JSON_parse handleRequest JSON_stringify PARSE_ERROR
            Server.initial events))
    <-> Server.tracked 0 socket false events = true.
Proof.
  intros. rewrite <- Set_has_In, run_tracked. reflexivity.
Qed.

(** X18. Over the whole life of a server no socket is destroyed twice, and
    no socket still in [connections] has been destroyed: each [stop]
    destroys the sockets open at that moment and forgets them. *)
Theorem no_socket_is_destroyed_twice :
  forall (Json MCPRequest : Type)
    (JSON_parse : JS.jsstring -> option MCPRequest)
    (handleRequest : MCPRequest -> JS.Completion (MCP.MCPResponse Json))
    (JSON_stringify : MCP.MCPResponse Json -> JS.jsstring)
    (PARSE_ERROR : Z) (events : list Server.Event),
    let st :=
      Server.run JSON_parse handleRequest JSON_stringify PARSE_ERROR
        Server.initial events in
    NoDup (Server.destroyed st)
    /\ NoDup (Server.connections st)
    /\ forall socket, In socket (Server.connections st) ->
                      ~ In socket (Server.destroyed st).
Proof.
  intros Json MCPRequest JSON_parse handleRequest JSON_stringify PARSE_ERROR
    events st.
  destruct (run_registry_sound Json MCPRequest JSON_parse handleRequest
              JSON_stringify PARSE_ERROR events Server.initial)
    as [Hc [Hd [Hcd _]]].
  - repeat split; try constructor; cbn; intros s H; try tauto; lia.
  - now repeat split.
Qed.

(** ** The command line *)

Section CliFacts.
Import JS Cli.

Lemma digit_of_uint_head (d : Decimal.uint) (c : codeunit) (rest : jsstring) :
  of_uint d = c :: rest ->
  digit c <> None /\ isWhiteSpace c = false /\ N.eqb c 45 = false
  /\ N.eqb c 43 = false /\ c <> 61%N.
Proof.
  destruct d; cbn [of_uint]; try discriminate; intros [= <- _];
    repeat split; try discriminate; reflexivity.
Qed.

Lemma of_uint_no_equals (d : Decimal.uint) : ~ In 61%N (of_uint d).
Proof.
  induction d; cbn [of_uint In]; try tauto; intros [H|H];
    try discriminate; tauto.
Qed.

(** Reading the digits of a numeral gives the numeral back, whatever
    follows it that is not a digit. *)
Lemma digits_of_uint (d : Decimal.uint) (junk : jsstring) :
  match junk with c :: _ => digit c = None | [] => True end ->
  digits (of_uint d ++ junk) = d.
Proof.
  intros Hjunk. induction d; cbn [of_uint app digits];
    try (cbn [digit N.eqb Pos.eqb]; now rewrite IHd).
  destruct junk as [|c junk]; [reflexivity|]. cbn [digits]. now rewrite Hjunk.
Qed.

Lemma parseInt_decimal (n : N) (junk : jsstring) :
  (0 < n)%N ->
  match junk with c :: _ => digit c = None | [] => True end ->
  parseInt (decimal n ++ junk) = Int (Z.of_N n).
Proof.
  intros Hn Hjunk. unfold parseInt, decimal.
  pose proof (DecimalN.Unsigned.of_to n) as Hround.
  remember (N.to_uint n) as d eqn:Ed. clear Ed.
  pose proof (digits_of_uint d junk Hjunk) as Hdigits.
  destruct (of_uint d) as [|c rest] eqn:E.
  - destruct d; try discriminate E. cbn in Hround. lia.
  - destruct (digit_of_uint_head _ _ _ E) as [_ [Hws [Hminus [Hplus _]]]].
    cbn [app trimStart]. rewrite Hws, Hminus, Hplus.
    change (c :: rest ++ junk) with ((c :: rest) ++ junk).
    rewrite Hdigits.
    destruct d; try discriminate E; rewrite Hround; f_equal; lia.
Qed.

Lemma includes_In (args : list jsstring) (x : jsstring) :
  includes args x = true <-> In x args.
Proof.
  unfold includes. rewrite existsb_exists. split.
  - intros [a [Hin Ha]]. apply eqb_eq in Ha. now subst.
  - intros Hin. exists x. split; [exact Hin|apply eqb_refl].
Qed.

Lemma find_first (A : Type) (test : A -> bool) (before after : list A) (x : A) :
  Forall (fun a => test a = false) before ->
  test x = true ->
  find test (before ++ x :: after) = Some x.
Proof.
  intros Hb Hx. induction Hb as [|a before Ha Hb IH]; cbn [app find].
  - now rewrite Hx.
  - now rewrite Ha.
Qed.

Lemma find_none (A : Type) (test : A -> bool) (l : list A) :
  Forall (fun a => test a = false) l -> find test l = None.
Proof.
  intros H. induction H as [|a l Ha Hl IH]; cbn [find]; [reflexivity|].
  now rewrite Ha.
Qed.

(** The text [parseInt] is given for an argument [--port=rest]: what
    follows the first [=] up to the next one. *)
Lemma port_text (rest : jsstring) :
  nth_error (split 61%N (lit "--port=" ++ rest)) 1
  = Some (hd [] (split 61%N rest)).
Proof.
  change (lit "--port=" ++ rest) with (lit "--port" ++ 61%N :: rest).
  rewrite (split_first_segment 61%N (lit "--port"))
    by (vm_compute; intuition discriminate).
  cbn [nth_error]. pose proof (split_not_nil 61%N rest) as Hne.
  now destruct (split 61%N rest).
Qed.

(** The constructor never keeps a port that is zero or [NaN]. *)
Lemma constructor_port_truthy (options : MCPServerOptions) :
  number_truthy (server_port (constructor options)) = true.
Proof.
  unfold constructor. cbn [server_port].
  destruct (port options) as [n|]; [|reflexivity].
  destruct (number_truthy n) eqn:E; [exact E|reflexivity].
Qed.

End CliFacts.

(** X19. The port given on the command line is the port the server is
    made with: when [--stdio] is absent and the first argument that starts
    with [--port=] continues with the decimal digits of a number between 1
    and 2^53, followed by nothing or by anything that does not start with a
    digit, the entry point starts a socket server on that port, on host
    127.0.0.1. *)
Theorem port_argument_is_the_port :
  forall (n : N) (before after : list JS.jsstring) (junk : JS.jsstring),
    (0 < n < 2 ^ 53)%N ->
    Cli.includes (before ++ after) (JS.lit "--stdio") = false ->
    Forall (fun a => Cli.startsWith a (JS.lit "--port=") = false) before ->
    ~ In 61%N junk ->
    match junk with c :: _ => Cli.digit c = None | [] => True end ->
    Cli.main (before ++ (JS.lit "--port=" ++ Cli.decimal n ++ junk) :: after)
    = Cli.StartSocket
        {| Cli.server_port := Cli.Int (Z.of_N n);
           Cli.server_host := JS.lit "127.0.0.1";
           Cli.handlers_dataDir := None |}.
Proof.
  intros n before after junk [Hn _] Hstdio Hbefore Hequals Hjunk.
  unfold Cli.main.
  assert (Hinc : Cli.includes
                   (before ++ (JS.lit "--port=" ++ Cli.decimal n ++ junk) :: after)
                   (JS.lit "--stdio") = false).
  { unfold Cli.includes in *. rewrite existsb_app in *. cbn [existsb].
    apply orb_false_iff in Hstdio. destruct Hstdio as [Hb Ha].
    rewrite Hb, Ha. reflexivity. }
  rewrite Hinc.
  rewrite (find_first _ _ before after _ Hbefore) by (vm_compute; reflexivity).
  cbv zeta.
  change (JS.lit "--port=" ++ Cli.decimal n ++ junk)
    with (JS.lit "--port" ++ 61%N :: (Cli.decimal n ++ junk)).
  rewrite (split_first_segment 61%N (JS.lit "--port"))
    by (vm_compute; intuition discriminate).
  rewrite (split_no_sep 61%N (Cli.decimal n ++ junk)).
  - cbn [nth_error JS.truthy JS.lit app map list_ascii_of_string].
    rewrite (parseInt_decimal n junk Hn Hjunk).
    unfold Cli.createMCPServer, Cli.constructor.
    cbn [Cli.port Cli.host Cli.dataDir Cli.number_truthy].
    destruct (Z.eqb_spec (Z.of_N n) 0); [lia|reflexivity].
  - intros Hin. apply in_app_or in Hin. destruct Hin as [Hin|Hin];
      [exact (of_uint_no_equals _ Hin)|exact (Hequals Hin)].
Qed.

Lemma port_argument_is_the_port_witness :
  Cli.main [JS.lit "--verbose"; JS.lit "--port=" ++ Cli.decimal 8080 ++ JS.lit "tcp";
            JS.lit "--port=" ++ Cli.decimal 9]
  = Cli.StartSocket
      {| Cli.server_port := Cli.Int 8080;
         Cli.server_host := JS.lit "127.0.0.1";
         Cli.handlers_dataDir := None |}.
Proof.
  apply (port_argument_is_the_port 8080 [JS.lit "--verbose"]
           [JS.lit "--port=" ++ Cli.decimal 9] (JS.lit "tcp")).
  - vm_compute. split; reflexivity.
  - reflexivity.
  - repeat constructor.
  - vm_compute. intuition discriminate.
  - reflexivity.
Defined.

(** X20. Whatever the arguments, the entry point starts the standard-stream
    transport exactly when [--stdio] is among them, and otherwise a socket
    server on host 127.0.0.1 whose port is neither zero nor [NaN]. Without
    [--stdio]: when no argument starts with [--port=] the port is the
    default port; when the first such argument is [--port=rest], the port is
    what [parseInt] reads in [rest] up to its first [=], unless that is
    [NaN] (no digits: nothing at all, or text that is no number) or zero,
    and then it is the default port. *)
Theorem launch_is_stdio_or_a_usable_port :
  forall (args : list JS.jsstring),
    (Cli.main args = Cli.StartStdio <-> In (JS.lit "--stdio") args)
    /\ Cli.main args <> Cli.NotRun
    /\ (forall srv : Cli.MCPServer,
          Cli.main args = Cli.StartSocket srv ->
          Cli.number_truthy (Cli.server_port srv) = true
          /\ Cli.server_host srv = JS.lit "127.0.0.1")
    /\ (~ In (JS.lit "--stdio") args ->
        Forall (fun a => Cli.startsWith a (JS.lit "--port=") = false) args ->
        Cli.main args
        = Cli.StartSocket
            {| Cli.server_port := Cli.DEFAULT_PORT;
               Cli.server_host := JS.lit "127.0.0.1";
               Cli.handlers_dataDir := None |})
    /\ (forall (before after : list JS.jsstring) (rest : JS.jsstring),
          ~ In (JS.lit "--stdio") args ->
          args = before ++ (JS.lit "--port=" ++ rest) :: after ->
          Forall (fun a => Cli.startsWith a (JS.lit "--port=") = false) before ->
          Cli.main args
          = Cli.StartSocket
              {| Cli.server_port :=
                   match Cli.parseInt (hd [] (JS.split 61%N rest)) with
                   | Cli.NaN => Cli.DEFAULT_PORT
                   | Cli.Int z => if (z =? 0)%Z then Cli.DEFAULT_PORT else Cli.Int z
                   end;
                 Cli.server_host := JS.lit "127.0.0.1";
                 Cli.handlers_dataDir := None |}).
Proof.
  intros args. unfold Cli.main.
  pose proof (includes_In args (JS.lit "--stdio")) as Hinc.
  destruct (Cli.includes args (JS.lit "--stdio")).
  - split; [split; [intros _; now apply Hinc|reflexivity]|].
    split; [discriminate|]. split; [discriminate|].
    split; [intros Hno; exfalso; apply Hno; now apply Hinc|].
    intros before after rest Hno. exfalso. apply Hno. now apply Hinc.
  - split; [|split; [|split; [|split]]].
    + split; [discriminate|]. intros Hin. apply Hinc in Hin. discriminate.
    + discriminate.
    + intros srv [= <-].
      unfold Cli.createMCPServer. split; [apply constructor_port_truthy|].
      reflexivity.
    + intros _ Hnone. now rewrite (find_none _ _ args Hnone).
    + intros before after rest _ -> Hbefore.
      rewrite (find_first _ _ before after _ Hbefore) by reflexivity.
      cbv zeta. rewrite port_text.
      change (JS.truthy (JS.lit "--port=" ++ rest)) with true. cbv iota.
      unfold Cli.createMCPServer, Cli.constructor.
      cbn [Cli.port Cli.host Cli.dataDir].
      destruct (Cli.parseInt (hd [] (JS.split 61%N rest))) as [|z];
        [reflexivity|].
      cbn [Cli.number_truthy]. now destruct (z =? 0)%Z.
Qed.

(** The port arguments [--port=], [--port=0] and [--port=http] all give the
    default port; [--port=8080=x] gives 8080. *)
Lemma launch_is_stdio_or_a_usable_port_witness :
  Cli.main [JS.lit "-v"; JS.lit "--port="]
  = Cli.StartSocket
      {| Cli.server_port := Cli.Int 3847;
         Cli.server_host := JS.lit "127.0.0.1";
         Cli.handlers_dataDir := None |}
  /\ Cli.main [JS.lit "--port=0"; JS.lit "--port=9"]
     = Cli.StartSocket
         {| Cli.server_port := Cli.Int 3847;
            Cli.server_host := JS.lit "127.0.0.1";
            Cli.handlers_dataDir := None |}
  /\ Cli.main [JS.lit "--port=http"]
     = Cli.StartSocket
         {| Cli.server_port := Cli.Int 3847;
            Cli.server_host := JS.lit "127.0.0.1";
            Cli.handlers_dataDir := None |}
  /\ Cli.main [JS.lit "--port=8080=x"]
     = Cli.StartSocket
         {| Cli.server_port := Cli.Int 8080;
            Cli.server_host := JS.lit "127.0.0.1";
            Cli.handlers_dataDir := None |}.
Proof.
  assert (Hno : forall args : list JS.jsstring,
             Cli.includes args (JS.lit "--stdio") = false ->
             ~ In (JS.lit "--stdio") args).
  { intros args H Hin. apply includes_In in Hin. congruence. }
  split; [|split; [|split]].
  - apply (proj2 (proj2 (proj2 (proj2
             (launch_is_stdio_or_a_usable_port [JS.lit "-v"; JS.lit "--port="]))))
             [JS.lit "-v"] [] []);
      [apply Hno; reflexivity|reflexivity|repeat constructor].
  - apply (proj2 (proj2 (proj2 (proj2
             (launch_is_stdio_or_a_usable_port
                [JS.lit "--port=0"; JS.lit "--port=9"]))))
             [] [JS.lit "--port=9"] (JS.lit "0"));
      [apply Hno; reflexivity|reflexivity|constructor].
  - apply (proj2 (proj2 (proj2 (proj2
             (launch_is_stdio_or_a_usable_port [JS.lit "--port=http"]))))
             [] [] (JS.lit "http"));
      [apply Hno; reflexivity|reflexivity|constructor].
  - apply (proj2 (proj2 (proj2 (proj2
             (launch_is_stdio_or_a_usable_port [JS.lit "--port=8080=x"]))))
             [] [] (JS.lit "8080=x"));
      [apply Hno; reflexivity|reflexivity|constructor].
Defined.
